(** * Devimuth utilities: WKT/GeoJSON conversion and text diffing

    A shallow embedding of [src/utils/gis/geometry.ts] and
    [src/utils/dev/diffUtils.ts], together with the fragment of the
    JavaScript string, number and regular-expression semantics those two
    files rely on. *)

From Stdlib Require Import String Ascii List NArith ZArith Bool Arith Lia.
Import ListNotations.

Set Implicit Arguments.

(** * JavaScript strings

    A JavaScript string is a sequence of UTF-16 code units. *)

Module JS.

Definition char := N.
Definition jsstring := list char.

(** Reading a literal. *)
Definition js (s : string) : jsstring :=
  map N_of_ascii (list_ascii_of_string s).

Definition LF : char := 10%N.

Fixpoint str_eqb (a b : jsstring) : bool :=
  match a, b with
  | [], [] => true
  | x :: a', y :: b' => N.eqb x y && str_eqb a' b'
  | _, _ => false
  end.

(** [WhiteSpace] and [LineTerminator] code points: the set removed by
    [String.prototype.trim] and matched by the class [\s]. *)
Definition isWhiteSpace (c : char) : bool :=
  existsb (N.eqb c)
    [9; 10; 11; 12; 13; 32; 160; 5760; 8192; 8193; 8194; 8195; 8196; 8197;
     8198; 8199; 8200; 8201; 8202; 8232; 8233; 8239; 8287; 12288; 65279]%N.

Definition isLineTerminator (c : char) : bool :=
  existsb (N.eqb c) [10; 13; 8232; 8233]%N.

Definition isDigit (c : char) : bool := (48 <=? c)%N && (c <=? 57)%N.

Fixpoint trimStart (s : jsstring) : jsstring :=
  match s with
  | c :: s' => if isWhiteSpace c then trimStart s' else s
  | [] => []
  end.

Definition trimEnd (s : jsstring) : jsstring := rev (trimStart (rev s)).

Definition trim (s : jsstring) : jsstring := trimEnd (trimStart s).

(** Truthiness of a string, and [arr.length > 0]. *)
Definition nonempty {A} (s : list A) : bool :=
  match s with [] => false | _ :: _ => true end.

(** [Array.prototype.join]. *)
Fixpoint join (sep : jsstring) (l : list jsstring) : jsstring :=
  match l with
  | [] => []
  | [x] => x
  | x :: l' => x ++ sep ++ join sep l'
  end.

(** [String.prototype.split] with a one-character string separator. *)
Fixpoint split_char_aux (sep : char) (cur : jsstring) (s : jsstring)
  : list jsstring :=
  match s with
  | [] => [rev cur]
  | c :: s' =>
      if N.eqb c sep then rev cur :: split_char_aux sep [] s'
      else split_char_aux sep (c :: cur) s'
  end.

Definition split_char (sep : char) (s : jsstring) : list jsstring :=
  split_char_aux sep [] s.

(** Decimal rendering of a natural number, as [String(n)] gives it. *)
Fixpoint digits_fuel (fuel : nat) (n : N) (acc : jsstring) : jsstring :=
  match fuel with
  | O => acc
  | S f =>
      let acc' := (48 + n mod 10)%N :: acc in
      if (n <? 10)%N then acc' else digits_fuel f (n / 10)%N acc'
  end.

Definition digits_of_N (n : N) : jsstring :=
  digits_fuel (S (N.to_nat (N.log2 n))) n [].

End JS.

Import JS.

(** * Regular expressions

    The patterns of [geometry.ts] use literals, character classes, greedy
    and lazy repetition, alternation, capture groups, the anchors [^] and
    [$] (without the [m] flag) and one positive lookahead.  The matcher is
    the backtracking one of the language definition: a continuation is
    called at every way of matching, the first success wins.  No pattern
    of the file has a group inside a repetition, so the reset of captures
    at each iteration is left out. *)

Module Regex.

Inductive regex :=
| Eps
| Chr (p : char -> bool)
| Seq (r1 r2 : regex)
| Alt (r1 r2 : regex)
| Star (greedy : bool) (r : regex)
| Group (n : nat) (r : regex)
| Bol
| Eol
| Look (r : regex).

Definition caps := list (nat * jsstring).

(** end index, rest of the input, captures *)
Definition mres := (nat * jsstring * caps)%type.

Definition cont := nat -> jsstring -> caps -> option mres.

Definition accept : cont := fun j s c => Some (j, s, c).

Definition orelse (a b : option mres) : option mres :=
  match a with Some x => Some x | None => b end.

(** The loop of a repetition: [body] matches one more iteration, which
    has to consume something; the greedy form prefers it to leaving the
    loop, the lazy form prefers leaving.  The fuel is the length of the
    input plus one, which no run of the loop uses up ([star_loop_fuel]). *)
Fixpoint star_loop (greedy : bool)
  (body : nat -> jsstring -> caps -> cont -> option mres) (k : cont)
  (fuel : nat) (i : nat) (s : jsstring) (c : caps) : option mres :=
  match fuel with
  | O => k i s c
  | S f =>
      let iter :=
        body i s c
          (fun j s' c' =>
             if Nat.eqb j i then None else star_loop greedy body k f j s' c')
      in
      if greedy then orelse iter (k i s c) else orelse (k i s c) iter
  end.

Fixpoint rmatch (r : regex) (i : nat) (s : jsstring) (c : caps) (k : cont)
  {struct r} : option mres :=
  match r with
  | Eps => k i s c
  | Chr p =>
      match s with
      | x :: s' => if p x then k (S i) s' c else None
      | [] => None
      end
  | Seq r1 r2 => rmatch r1 i s c (fun j s' c' => rmatch r2 j s' c' k)
  | Alt r1 r2 => orelse (rmatch r1 i s c k) (rmatch r2 i s c k)
  | Star greedy r1 => star_loop greedy (rmatch r1) k (S (length s)) i s c
  | Group n r1 =>
      rmatch r1 i s c
        (fun j s' c' => k j s' ((n, firstn (j - i) s) :: c'))
  | Bol => if Nat.eqb i 0 then k i s c else None
  | Eol => match s with [] => k i s c | _ :: _ => None end
  | Look r1 =>
      match rmatch r1 i s c accept with
      | Some (_, _, c') => k i s c'
      | None => None
      end
  end.

Definition Plus (greedy : bool) (r : regex) : regex :=
  Seq r (Star greedy r).

(** A literal character, and one under the [i] flag: an ASCII letter of
    the pattern matches exactly its two cases. *)
Definition lit (x : char) : regex := Chr (N.eqb x).

Definition upcase (c : char) : char :=
  if ((97 <=? c) && (c <=? 122))%N then (c - 32)%N else c.

Definition lit_ci (x : char) : regex := Chr (fun c => N.eqb (upcase c) x).

Fixpoint word_ci (w : jsstring) : regex :=
  match w with
  | [] => Eps
  | x :: w' => Seq (lit_ci x) (word_ci w')
  end.

(** [\s], [\d], [.] *)
Definition ws : regex := Chr isWhiteSpace.
Definition digit : regex := Chr isDigit.
Definition dot : regex := Chr (fun c => negb (isLineTerminator c)).

(** The most recent capture of group [n]. *)
Fixpoint group (n : nat) (c : caps) : option jsstring :=
  match c with
  | [] => None
  | (m, v) :: c' => if Nat.eqb m n then Some v else group n c'
  end.

(** [RegExp.prototype.exec] without the [g] and [y] flags: the leftmost
    position at which the pattern matches. *)
Fixpoint search (r : regex) (i : nat) (s : jsstring) : option mres :=
  match rmatch r i s [] accept with
  | Some m => Some m
  | None =>
      match s with
      | [] => None
      | _ :: s' => search r (S i) s'
      end
  end.

Definition exec (r : regex) (s : jsstring) : option caps :=
  match search r 0 s with
  | Some (_, _, c) => Some c
  | None => None
  end.

(** [str.match(r)] used as a condition. *)
Definition test (r : regex) (s : jsstring) : bool :=
  match exec r s with Some _ => true | None => false end.

(** [String.prototype.split] with a pattern separator (no capture group
    in the separator, no limit): [p] is the start of the current piece,
    [q] the position at which a separator is looked for.  The fuel covers
    every run ([split_loop_fuel]). *)
Fixpoint split_loop (fuel : nat) (r : regex) (p : nat) (sp : jsstring)
  (q : nat) (sq : jsstring) (acc : list jsstring) : list jsstring :=
  match fuel with
  | O => rev (sp :: acc)
  | S f =>
      match sq with
      | [] => rev (sp :: acc)
      | _ :: sq' =>
          match rmatch r q sq [] accept with
          | None => split_loop f r p sp (S q) sq' acc
          | Some (e, se, _) =>
              if Nat.eqb e p then split_loop f r p sp (S q) sq' acc
              else split_loop f r e se e se (firstn (q - p) sp :: acc)
          end
      end
  end.

Definition split (r : regex) (s : jsstring) : list jsstring :=
  match s with
  | [] => match rmatch r 0 [] [] accept with Some _ => [] | None => [[]] end
  | _ => split_loop (2 * length s + 2) r 0 s 0 s []
  end.

(** [str.replace(r, '')] with the [g] flag; the fuel covers every run
    ([remove_loop_fuel]). *)
Fixpoint remove_loop (fuel : nat) (r : regex) (i : nat) (s : jsstring)
  : jsstring :=
  match fuel with
  | O => s
  | S f =>
      let step :=
        match s with
        | [] => []
        | x :: s' => x :: remove_loop f r (S i) s'
        end in
      match rmatch r i s [] accept with
      | Some (e, se, _) => if Nat.ltb i e then remove_loop f r e se else step
      | None => step
      end
  end.

Definition remove_all (r : regex) (s : jsstring) : jsstring :=
  remove_loop (S (length s)) r 0 s.

End Regex.

Import Regex.

(** * Numbers

    A number is modelled by the decimal value it denotes, [(-1)^neg * m *
    10^e], with the two zeros, the infinities and NaN.  Rounding to binary
    double precision is not modelled: the conversions below are the exact
    ones, which is what a double gives for the decimal literals of up to 15
    significant digits that coordinates are written with. *)

Module Number.

Inductive number :=
| NaN
| Infinity (neg : bool)
| Fin (neg : bool) (m : N) (e : Z).

(** Canonical form: no trailing zero in the mantissa. *)
Fixpoint strip_zeros (fuel : nat) (m : N) (e : Z) : N * Z :=
  match fuel with
  | O => (m, e)
  | S f =>
      if (m =? 0)%N then (0%N, 0%Z)
      else if (m mod 10 =? 0)%N then strip_zeros f (m / 10)%N (e + 1)%Z
      else (m, e)
  end.

Definition normalize (m : N) (e : Z) : N * Z :=
  strip_zeros (S (N.to_nat (N.log2 m))) m e.

Definition mkFin (neg : bool) (m : N) (e : Z) : number :=
  let '(m', e') := normalize m e in Fin neg m' e'.

(** A non-negative decimal literal [m * 10^e]. *)
Definition dec (m : N) (e : Z) : number := mkFin false m e.

Fixpoint span (p : char -> bool) (s : jsstring) : jsstring * jsstring :=
  match s with
  | c :: s' =>
      if p c then let '(a, b) := span p s' in (c :: a, b) else ([], s)
  | [] => ([], [])
  end.

Definition N_of_digits (d : jsstring) : N :=
  fold_left (fun acc c => (10 * acc + (c - 48))%N) d 0%N.

Fixpoint starts_with (w s : jsstring) : bool :=
  match w, s with
  | [], _ => true
  | x :: w', y :: s' => N.eqb x y && starts_with w' s'
  | _ :: _, [] => false
  end.

(** The exponent part of a decimal literal, when it is complete. *)
Definition exponent_part (s : jsstring) : Z :=
  match s with
  | c :: s1 =>
      if (N.eqb c 101 || N.eqb c 69)%bool then
        let '(eneg, s2) :=
          match s1 with
          | x :: t =>
              if N.eqb x 45 then (true, t)
              else if N.eqb x 43 then (false, t) else (false, s1)
          | [] => (false, s1)
          end in
        let '(d, _) := span isDigit s2 in
        match d with
        | [] => 0%Z
        | _ => if eneg then (- Z.of_N (N_of_digits d))%Z
               else Z.of_N (N_of_digits d)
        end
      else 0%Z
  | [] => 0%Z
  end.

(** [parseFloat]: leading white space is skipped and the longest prefix
    that is a decimal literal is read; NaN when there is none. *)
Definition parseFloat (s : jsstring) : number :=
  let s0 := trimStart s in
  let '(neg, s1) :=
    match s0 with
    | x :: t =>
        if N.eqb x 45 then (true, t)
        else if N.eqb x 43 then (false, t) else (false, s0)
    | [] => (false, s0)
    end in
  if starts_with (js "Infinity") s1 then Infinity neg
  else
    let '(d1, s2) := span isDigit s1 in
    match s2 with
    | 46%N :: s3 =>
        let '(d2, s4) := span isDigit s3 in
        match d1, d2 with
        | [], [] => NaN
        | _, _ =>
            mkFin neg (N_of_digits (d1 ++ d2))
              (exponent_part s4 - Z.of_nat (length d2))
        end
    | _ =>
        match d1 with
        | [] => NaN
        | _ => mkFin neg (N_of_digits d1) (exponent_part s2)
        end
    end.

(** [parseFloat] of an array element that may be missing: [undefined]
    reads as the string "undefined", which is no number. *)
Definition parseFloatU (s : option jsstring) : number :=
  match s with
  | Some v => parseFloat v
  | None => NaN
  end.

(** [Number::toString], the conversion a template literal applies. *)
Definition toString (x : number) : jsstring :=
  match x with
  | NaN => js "NaN"
  | Infinity neg => (if neg then js "-" else []) ++ js "Infinity"
  | Fin neg m0 e0 =>
      let '(m, e) := normalize m0 e0 in
      if (m =? 0)%N then js "0"
      else
        let s := digits_of_N m in
        let k := Z.of_nat (length s) in
        let n := (k + e)%Z in
        let body :=
          if ((k <=? n) && (n <=? 21))%Z then
            s ++ repeat 48%N (Z.to_nat (n - k))
          else if ((0 <? n) && (n <=? 21))%Z then
            firstn (Z.to_nat n) s ++ js "." ++ skipn (Z.to_nat n) s
          else if ((-6 <? n) && (n <=? 0))%Z then
            js "0." ++ repeat 48%N (Z.to_nat (- n)) ++ s
          else
            let ex :=
              js "e" ++ (if (n - 1 <? 0)%Z then js "-" else js "+")
                ++ digits_of_N (Z.abs_N (n - 1)) in
            match s with
            | [d] => [d] ++ ex
            | d :: ds => [d] ++ js "." ++ ds ++ ex
            | [] => ex
            end
        in
        (if neg then js "-" else []) ++ body
  end.

End Number.

Import Number.

(** * Outcomes

    A call returns a value or throws an [Error] with a message.  The third
    case only marks a recursion that was cut off by its fuel; the converter
    is shown below never to end there. *)

Inductive outcome (A : Type) :=
| Returns (a : A)
| Throws (msg : jsstring)
| OutOfFuel.

Arguments Returns {A} a.
Arguments Throws {A} msg.
Arguments OutOfFuel {A}.

(** [catch (error) { throw new Error(`<prefix>${error.message}`) }] *)
Definition rethrow {A} (prefix : jsstring) (o : outcome A) : outcome A :=
  match o with
  | Throws m => Throws (prefix ++ m)
  | _ => o
  end.

(** * geometry.ts *)

Module Geometry.

(** A coordinate pair, the two-element array of a GeoJSON position. *)
Definition position := (number * number)%type.

#[warnings="-register-all"]
Inductive geometry :=
| Point (coordinates : position)
| LineString (coordinates : list position)
| Polygon (coordinates : list (list position))
| MultiPoint (coordinates : list position)
| MultiLineString (coordinates : list (list position))
| MultiPolygon (coordinates : list (list (list position)))
| GeometryCollection (geometries : list geometry)
| Unknown (type : jsstring).

Inductive kind :=
| KPoint | KLineString | KPolygon | KMultiPoint | KMultiLineString
| KMultiPolygon | KGeometryCollection.

Definition kinds : list kind :=
  [KPoint; KLineString; KPolygon; KMultiPoint; KMultiLineString;
   KMultiPolygon; KGeometryCollection].

Definition keyword (k : kind) : jsstring :=
  match k with
  | KPoint => js "POINT"
  | KLineString => js "LINESTRING"
  | KPolygon => js "POLYGON"
  | KMultiPoint => js "MULTIPOINT"
  | KMultiLineString => js "MULTILINESTRING"
  | KMultiPolygon => js "MULTIPOLYGON"
  | KGeometryCollection => js "GEOMETRYCOLLECTION"
  end.

Declare Scope regex_scope.
Delimit Scope regex_scope with re.
Infix ";;" := Seq (at level 61, right associativity) : regex_scope.
Local Open Scope regex_scope.

Definition lparen : char := 40%N.
Definition rparen : char := 41%N.
Definition comma : char := 44%N.

(** [/^KEYWORD\s*\(/i] *)
Definition prefix_re (k : kind) : regex :=
  Bol ;; word_ci (keyword k) ;; Star true ws ;; lit lparen.

(** [[-\d.]] *)
Definition numch : regex :=
  Chr (fun c => N.eqb c 45 || isDigit c || N.eqb c 46).

(** [/POINT\s*\(\s*([-\d.]+)\s+([-\d.]+)\s*\)/i] *)
Definition point_re : regex :=
  word_ci (keyword KPoint) ;; Star true ws ;; lit lparen ;; Star true ws ;;
  Group 1 (Plus true numch) ;; Plus true ws ;; Group 2 (Plus true numch) ;;
  Star true ws ;; lit rparen.

(** [/KEYWORD\s*\((.*?)\)/i] *)
Definition body_re (k : kind) : regex :=
  word_ci (keyword k) ;; Star true ws ;; lit lparen ;;
  Group 1 (Star false dot) ;; lit rparen.

Definition extract_re (k : kind) : regex :=
  match k with
  | KPoint => point_re
  | _ => body_re k
  end.

(** [/\s+/] *)
Definition spaces_re : regex := Plus true ws.

(** [/\),\s*\(/] *)
Definition ring_sep_re : regex :=
  lit rparen ;; lit comma ;; Star true ws ;; lit lparen.

(** [/\),\s*\(|,\s*(?=\d)/] *)
Definition multipoint_sep_re : regex :=
  Alt ring_sep_re (lit comma ;; Star true ws ;; Look digit).

(** [/\)\),\s*\(\(/] *)
Definition polygon_sep_re : regex :=
  lit rparen ;; lit rparen ;; lit comma ;; Star true ws ;;
  lit lparen ;; lit lparen.

(** [/[()]/g] *)
Definition parens_re : regex :=
  Chr (fun c => N.eqb c lparen || N.eqb c rparen).

(** [/^\(|\)$/g] *)
Definition edge_parens_re : regex :=
  Alt (Bol ;; lit lparen) (lit rparen ;; Eol).

(** A capture group that took part in the match. *)
Definition cap (n : nat) (c : caps) : jsstring :=
  match group n c with Some v => v | None => [] end.

(** [const [x, y] = fields; return [parseFloat(y), parseFloat(x)]] *)
Definition pair_of_fields (fields : list jsstring) : position :=
  (parseFloatU (nth_error fields 1), parseFloatU (nth_error fields 0)).

(** [(p) => { const [x, y] = p.trim().split(/\s+/); ... }] *)
Definition parse_pair (p : jsstring) : position :=
  pair_of_fields (split spaces_re (trim p)).

(** [s.split(',').map(...)] *)
Definition parse_points (s : jsstring) : list position :=
  map parse_pair (split_char comma s).

(** [s.split(/\),\s*\(/).map((ring) => ring.replace(/[()]/g, '')...)] *)
Definition parse_rings (s : jsstring) : list (list position) :=
  map (fun ring => parse_points (remove_all parens_re ring))
      (split ring_sep_re s).

Definition parse_multipoint (s : jsstring) : list position :=
  map (fun p => pair_of_fields
                  (split spaces_re (trim (remove_all parens_re p))))
      (split multipoint_sep_re s).

Definition parse_polygons (s : jsstring) : list (list (list position)) :=
  map (fun polygon => parse_rings (remove_all edge_parens_re polygon))
      (split polygon_sep_re s).

(** The loop over the body of a collection, from its last character to
    its first; [self] is the recursive call. *)
Fixpoint collect (self : jsstring -> outcome geometry) (rev_chars : jsstring)
  (depth : Z) (current : jsstring) (geoms : list geometry)
  : outcome (list geometry) :=
  match rev_chars with
  | [] => Returns geoms
  | ch :: rest =>
      let depth1 := if N.eqb ch rparen then (depth + 1)%Z else depth in
      let depth2 := if N.eqb ch lparen then (depth1 - 1)%Z else depth1 in
      let current' := ch :: current in
      if (depth2 =? 0)%Z && nonempty (trim current') then
        match self (trim current') with
        | Returns geom => collect self rest depth2 [] (geom :: geoms)
        | Throws _ => collect self rest depth2 [] geoms
        | OutOfFuel => OutOfFuel
        end
      else collect self rest depth2 current' geoms
  end.

Definition unsupported_wkt : jsstring :=
  js "Unsupported WKT geometry type or invalid format".

(** What each branch returns once its extraction pattern has matched. *)
Definition build (self : jsstring -> outcome geometry) (k : kind) (c : caps)
  : outcome geometry :=
  match k with
  | KPoint =>
      Returns (Point (parseFloatU (group 2 c), parseFloatU (group 1 c)))
  | KLineString => Returns (LineString (parse_points (cap 1 c)))
  | KPolygon => Returns (Polygon (parse_rings (cap 1 c)))
  | KMultiPoint => Returns (MultiPoint (parse_multipoint (cap 1 c)))
  | KMultiLineString => Returns (MultiLineString (parse_rings (cap 1 c)))
  | KMultiPolygon => Returns (MultiPolygon (parse_polygons (cap 1 c)))
  | KGeometryCollection =>
      match collect self (rev (cap 1 c)) 0 [] [] with
      | Returns geoms => Returns (GeometryCollection geoms)
      | Throws m => Throws m
      | OutOfFuel => OutOfFuel
      end
  end.

(** The chain of [if (trimmed.match(...)) { ... if (coords) return ... }]
    statements, ending in the [throw]. *)
Fixpoint branches (self : jsstring -> outcome geometry) (ks : list kind)
  (trimmed : jsstring) : outcome geometry :=
  match ks with
  | [] => Throws unsupported_wkt
  | k :: ks' =>
      if test (prefix_re k) trimmed then
        match exec (extract_re k) trimmed with
        | Some c => build self k c
        | None => branches self ks' trimmed
        end
      else branches self ks' trimmed
  end.

Definition invalid_wkt : jsstring := js "Invalid WKT format: ".

Fixpoint wktToGeoJSON_fuel (fuel : nat) (wkt : jsstring) : outcome geometry :=
  match fuel with
  | O => OutOfFuel
  | S f => rethrow invalid_wkt (branches (wktToGeoJSON_fuel f) kinds (trim wkt))
  end.

Definition wktToGeoJSONExtended (wkt : jsstring) : outcome geometry :=
  wktToGeoJSON_fuel (S (length wkt)) wkt.

(** [`${lon} ${lat}`] *)
Definition pair_text (p : position) : jsstring :=
  toString (fst p) ++ js " " ++ toString (snd p).

Definition coords_text (l : list position) : jsstring :=
  join (js ", ") (map pair_text l).

Definition ring_text (ring : list position) : jsstring :=
  js "(" ++ coords_text ring ++ js ")".

Definition rings_text (rings : list (list position)) : jsstring :=
  join (js ", ") (map ring_text rings).

Definition invalid_geojson : jsstring := js "Invalid GeoJSON format: ".

(** The argument is an object of the shape that its [type] requires
    ([geometry]); objects of other shapes, on which the source throws
    through its [catch] with the message of a run-time error, are outside
    this embedding. *)
Fixpoint geoJSONToWKTExtended (geojson : geometry) : outcome jsstring :=
  rethrow invalid_geojson
    match geojson with
    | Point c => Returns (js "POINT(" ++ pair_text c ++ js ")")
    | LineString cs => Returns (js "LINESTRING(" ++ coords_text cs ++ js ")")
    | Polygon rings => Returns (js "POLYGON(" ++ rings_text rings ++ js ")")
    | MultiPoint cs => Returns (js "MULTIPOINT(" ++ coords_text cs ++ js ")")
    | MultiLineString ls =>
        Returns (js "MULTILINESTRING(" ++ rings_text ls ++ js ")")
    | MultiPolygon ps =>
        Returns (js "MULTIPOLYGON("
                 ++ join (js ", ")
                      (map (fun p => js "(" ++ rings_text p ++ js ")") ps)
                 ++ js ")")
    | GeometryCollection gs =>
        let mapped :=
          (fix each (l : list geometry) : outcome (list jsstring) :=
             match l with
             | [] => Returns []
             | g :: l' =>
                 match geoJSONToWKTExtended g with
                 | Returns t =>
                     match each l' with
                     | Returns ts => Returns (t :: ts)
                     | Throws m => Throws m
                     | OutOfFuel => OutOfFuel
                     end
                 | Throws m => Throws m
                 | OutOfFuel => OutOfFuel
                 end
             end) gs in
        match mapped with
        | Returns ts =>
            Returns (js "GEOMETRYCOLLECTION(" ++ join (js ", ") ts ++ js ")")
        | Throws m => Throws m
        | OutOfFuel => OutOfFuel
        end
    | Unknown ty => Throws (js "Unsupported GeoJSON geometry type: " ++ ty)
    end.

End Geometry.

Import Geometry.

(** * The simple converter

    The page of the WKT converter carries its own, smaller converter: three
    geometry types, the prefix tested with [startsWith], and one fixed
    error message. *)

Module WKTConverter.

Definition wktToGeoJSON (wkt : jsstring) : outcome geometry :=
  let trimmed := trim wkt in
  let guarded (word : jsstring) (r : regex) : option caps :=
    if starts_with word trimmed then exec r trimmed else None in
  let body :=
    match guarded (js "POINT") point_re with
    | Some c =>
        Returns (Point (parseFloatU (group 2 c), parseFloatU (group 1 c)))
    | None =>
        match guarded (js "LINESTRING") (body_re KLineString) with
        | Some c => Returns (LineString (parse_points (cap 1 c)))
        | None =>
            match guarded (js "POLYGON") (body_re KPolygon) with
            | Some c => Returns (Polygon (parse_rings (cap 1 c)))
            | None => Throws (js "Unsupported WKT geometry type")
            end
        end
    end in
  match body with
  | Throws _ => Throws (js "Invalid WKT format")
  | _ => body
  end.

End WKTConverter.

Import WKTConverter.

(** * diffUtils.ts *)

Module DiffUtils.

(** A diff tuple [[operation, text]]: -1 deletes, 1 inserts, 0 keeps. *)
Definition Diff := (Z * jsstring)%type.

Definition DIFF_DELETE : Z := (-1)%Z.
Definition DIFF_INSERT : Z := 1%Z.
Definition DIFF_EQUAL : Z := 0%Z.

Record LinesToChars := {
  chars1 : jsstring;
  chars2 : jsstring;
  lineArray : list jsstring
}.

(** The methods of the imported [diff-match-patch] object that the file
    calls.  The two that update their argument in place return it. *)
Record DiffMatchPatch := {
  diff_main : jsstring -> jsstring -> bool -> list Diff;
  diff_linesToChars_ : jsstring -> jsstring -> LinesToChars;
  diff_charsToLines_ : list Diff -> list jsstring -> list Diff;
  diff_cleanupSemantic : list Diff -> list Diff
}.

Inductive change := added | removed | unchanged.

Record DiffResult := {
  dr_type : change;
  dr_text : jsstring;
  lineNumber : Z
}.

Record DiffLine := {
  dl_type : change;
  dl_text : jsstring;
  oldLineNumber : option Z;
  newLineNumber : option Z
}.

Inductive mode := line_mode | word_mode | char_mode.

(** [String(n)] for an integer counter. *)
Definition int_text (z : Z) : jsstring :=
  (if (z <? 0)%Z then js "-" else []) ++ digits_of_N (Z.abs_N z).

Definition is_last (rest : list jsstring) : bool :=
  match rest with [] => true | _ :: _ => false end.

Definition change_of (operation : Z) : change :=
  if (operation =? 1)%Z then added
  else if (operation =? -1)%Z then removed
  else unchanged.

Section WithLibrary.

Variable dmp : DiffMatchPatch.

Definition diffLineMode (text1 text2 : jsstring) : list Diff :=
  let a := diff_linesToChars_ dmp text1 text2 in
  let diffs := diff_main dmp (chars1 a) (chars2 a) false in
  diff_charsToLines_ dmp diffs (lineArray a).

(** ** computeDiff *)

Definition push_result (operation : Z) (text : jsstring)
  (st : list DiffResult * Z) : list DiffResult * Z :=
  let '(results, n) := st in
  let r := {| dr_type := change_of operation; dr_text := text;
              lineNumber := n |} in
  match change_of operation with
  | unchanged => (results ++ [r], (n + 1)%Z)
  | _ => (results ++ [r], n)
  end.

Fixpoint computeDiff_lines (operation : Z) (lines : list jsstring)
  (st : list DiffResult * Z) : list DiffResult * Z :=
  match lines with
  | [] => st
  | line :: rest =>
      let st' :=
        if negb (is_last rest) then push_result operation (line ++ [LF]) st
        else if nonempty line then push_result operation line st
        else st in
      computeDiff_lines operation rest st'
  end.

Definition computeDiff (oldText newText : jsstring) (m : mode)
  : list DiffResult :=
  let diffs :=
    match m with
    | line_mode => diffLineMode oldText newText
    | word_mode =>
        diff_cleanupSemantic dmp (diff_main dmp oldText newText false)
    | char_mode => diff_main dmp oldText newText false
    end in
  fst (fold_left
         (fun st d => computeDiff_lines (fst d) (split_char LF (snd d)) st)
         diffs ([], 1%Z)).

(** ** computeLineDiff *)

Record line_state := {
  results : list DiffLine;
  oldLineNum : Z;
  newLineNum : Z
}.

Definition push_line (operation : Z) (line : jsstring) (st : line_state)
  : line_state :=
  match change_of operation with
  | added =>
      {| results := results st ++
           [{| dl_type := added; dl_text := line;
               oldLineNumber := None;
               newLineNumber := Some (newLineNum st) |}];
         oldLineNum := oldLineNum st;
         newLineNum := (newLineNum st + 1)%Z |}
  | removed =>
      {| results := results st ++
           [{| dl_type := removed; dl_text := line;
               oldLineNumber := Some (oldLineNum st);
               newLineNumber := None |}];
         oldLineNum := (oldLineNum st + 1)%Z;
         newLineNum := newLineNum st |}
  | unchanged =>
      {| results := results st ++
           [{| dl_type := unchanged; dl_text := line;
               oldLineNumber := Some (oldLineNum st);
               newLineNumber := Some (newLineNum st) |}];
         oldLineNum := (oldLineNum st + 1)%Z;
         newLineNum := (newLineNum st + 1)%Z |}
  end.

(** The inner loop: every line but the last, and the last one when it is
    not empty. *)
Fixpoint lineDiff_lines (operation : Z) (lines : list jsstring)
  (st : line_state) : line_state :=
  match lines with
  | [] => st
  | line :: rest =>
      let st' :=
        if negb (is_last rest) || nonempty line
        then push_line operation line st else st in
      lineDiff_lines operation rest st'
  end.

Definition lineDiff_of (diffs : list Diff) : list DiffLine :=
  results
    (fold_left
       (fun st d => lineDiff_lines (fst d) (split_char LF (snd d)) st)
       diffs {| results := []; oldLineNum := 1; newLineNum := 1 |}).

Definition computeLineDiff (oldText newText : jsstring) : list DiffLine :=
  lineDiff_of (diffLineMode oldText newText).

(** ** formatUnifiedDiff *)

Record unified_state := {
  output : jsstring;
  u_oldLineNum : Z;
  u_newLineNum : Z;
  hunkStartOld : Z;
  hunkStartNew : Z;
  hunkLines : list jsstring
}.

(** [`@@ -${hunkStartOld},${oldLineNum - hunkStartOld}
       +${hunkStartNew},${newLineNum - hunkStartNew} @@\n`] *)
Definition hunk_header (st : unified_state) : jsstring :=
  js "@@ -" ++ int_text (hunkStartOld st) ++ js ","
    ++ int_text (u_oldLineNum st - hunkStartOld st)
    ++ js " +" ++ int_text (hunkStartNew st) ++ js ","
    ++ int_text (u_newLineNum st - hunkStartNew st) ++ js " @@" ++ [LF].

Definition flush_hunk (st : unified_state) : jsstring :=
  output st ++ hunk_header st ++ join [LF] (hunkLines st) ++ [LF].

Definition unified_line (operation : Z) (line : jsstring)
  (st : unified_state) : unified_state :=
  match change_of operation with
  | added =>
      {| output := output st;
         u_oldLineNum := u_oldLineNum st;
         u_newLineNum := (u_newLineNum st + 1)%Z;
         hunkStartOld := hunkStartOld st;
         hunkStartNew := hunkStartNew st;
         hunkLines := hunkLines st ++ [js "+" ++ line] |}
  | removed =>
      {| output := output st;
         u_oldLineNum := (u_oldLineNum st + 1)%Z;
         u_newLineNum := u_newLineNum st;
         hunkStartOld := hunkStartOld st;
         hunkStartNew := hunkStartNew st;
         hunkLines := hunkLines st ++ [js "-" ++ line] |}
  | unchanged =>
      let flushed := nonempty (hunkLines st) in
      {| output := if flushed then flush_hunk st else output st;
         u_oldLineNum := (u_oldLineNum st + 1)%Z;
         u_newLineNum := (u_newLineNum st + 1)%Z;
         hunkStartOld := (u_oldLineNum st + 1)%Z;
         hunkStartNew := (u_newLineNum st + 1)%Z;
         hunkLines := if flushed then [] else hunkLines st |}
  end.

Fixpoint unified_lines (operation : Z) (lines : list jsstring)
  (st : unified_state) : unified_state :=
  match lines with
  | [] => st
  | line :: rest =>
      let st' :=
        if negb (is_last rest) || nonempty line
        then unified_line operation line st else st in
      unified_lines operation rest st'
  end.

Definition formatUnifiedDiff (oldText newText : jsstring)
  (oldFile newFile : option jsstring) : jsstring :=
  let oldFile := match oldFile with Some f => f | None => js "old" end in
  let newFile := match newFile with Some f => f | None => js "new" end in
  let diffs := diffLineMode oldText newText in
  let st0 :=
    {| output := js "--- " ++ oldFile ++ [LF] ++ js "+++ " ++ newFile ++ [LF];
       u_oldLineNum := 1; u_newLineNum := 1;
       hunkStartOld := 1; hunkStartNew := 1; hunkLines := [] |} in
  let st :=
    fold_left
      (fun st d => unified_lines (fst d) (split_char LF (snd d)) st)
      diffs st0 in
  if nonempty (hunkLines st) then flush_hunk st else output st.

End WithLibrary.

End DiffUtils.

Import DiffUtils.

(** * The diff-match-patch collaborator *)

Module DiffMatchPatchModel.

(** Modelled from the spec: the [diff-match-patch] package that
    [diffUtils.ts] imports is not part of the sources.  The spec describes
    it as a collaborator that returns (operation, text) pairs, and the line
    mode as "each distinct line maps to a single synthetic character, the
    character-level diff algorithm is run on the encoded strings, and the
    result is decoded back into full lines".  The model spells that out
    along the published algorithm of the library: the line encoding of
    [diff_linesToChars_] and its decoding, and, for [diff_main], the
    equality check, the trimming of the common prefix and suffix, the
    shortcuts of [diff_compute_] and the merge pass [diff_cleanupMerge].
    What lies behind the shortcuts (half-match and bisection) and the
    semantic clean-up of a non-empty diff is left open: these are the
    fields of [Unmodelled], and every statement about the model holds
    whatever they are. *)
Record Unmodelled := {
  diff_split_ : jsstring -> jsstring -> list Diff;
  cleanupSemantic_nonempty : list Diff -> list Diff
}.

Fixpoint diff_commonPrefix (a b : jsstring) : nat :=
  match a, b with
  | x :: a', y :: b' => if N.eqb x y then S (diff_commonPrefix a' b') else 0
  | _, _ => 0
  end.

Definition diff_commonSuffix (a b : jsstring) : nat :=
  diff_commonPrefix (rev a) (rev b).

(** [hay.indexOf(needle)] *)
Fixpoint indexOf (needle hay : jsstring) (i : nat) : option nat :=
  if starts_with needle hay then Some i
  else match hay with
       | [] => None
       | _ :: hay' => indexOf needle hay' (S i)
       end.

(** ** Lines to characters *)

(** The first line of a non-empty text, with its line feed, and the rest. *)
Fixpoint take_line (text : jsstring) : jsstring * jsstring :=
  match text with
  | [] => ([], [])
  | c :: t =>
      if N.eqb c LF then ([c], t)
      else let '(l, r) := take_line t in (c :: l, r)
  end.

Fixpoint index_of_line (line : jsstring) (arr : list jsstring) (i : nat)
  : option nat :=
  match arr with
  | [] => None
  | l :: arr' =>
      if str_eqb l line then Some i else index_of_line line arr' (S i)
  end.

Fixpoint munge (fuel : nat) (maxLines : N) (text : jsstring)
  (arr : list jsstring) (chars : jsstring) : jsstring * list jsstring :=
  match fuel, text with
  | _, [] => (chars, arr)
  | O, _ => (chars, arr)
  | S f, _ =>
      let '(line, rest) := take_line text in
      match index_of_line line (tl arr) 1 with
      | Some i => munge f maxLines rest arr (chars ++ [N.of_nat i])
      | None =>
          if N.eqb (N.of_nat (length arr)) maxLines then
            (chars ++ [N.of_nat (length arr)], arr ++ [text])
          else
            munge f maxLines rest (arr ++ [line])
              (chars ++ [N.of_nat (length arr)])
      end
  end.

Definition linesToChars (text1 text2 : jsstring) : LinesToChars :=
  let '(c1, arr1) := munge (length text1) 40000 text1 [[]] [] in
  let '(c2, arr2) := munge (length text2) 65535 text2 arr1 [] in
  {| chars1 := c1; chars2 := c2; lineArray := arr2 |}.

Definition charsToLines (diffs : list Diff) (arr : list jsstring)
  : list Diff :=
  map (fun d : Diff =>
         (fst d, flat_map (fun c => nth (N.to_nat c) arr []) (snd d)))
      diffs.

(** ** The merge pass *)

Record merge_state := {
  out : list Diff;
  count_delete : nat;
  count_insert : nat;
  text_delete : jsstring;
  text_insert : jsstring
}.

Definition ends_equal (l : list Diff) : bool :=
  match rev l with
  | (op, _) :: _ => (op =? DIFF_EQUAL)%Z
  | [] => false
  end.

Definition append_to_last (l : list Diff) (t : jsstring) : list Diff :=
  match rev l with
  | (op, u) :: r => rev ((op, u ++ t) :: r)
  | [] => []
  end.

Definition opt_diff (op : Z) (t : jsstring) : list Diff :=
  if nonempty t then [(op, t)] else [].

(** One step of the first pass, at the entry [d]: an edit joins the
    current run, an equality closes it. *)
Definition merge_step (st : merge_state) (d : Diff) : merge_state :=
  let '(op, text) := d in
  if (op =? DIFF_INSERT)%Z then
    {| out := out st ++ [d];
       count_delete := count_delete st;
       count_insert := S (count_insert st);
       text_delete := text_delete st;
       text_insert := text_insert st ++ text |}
  else if (op =? DIFF_DELETE)%Z then
    {| out := out st ++ [d];
       count_delete := S (count_delete st);
       count_insert := count_insert st;
       text_delete := text_delete st ++ text;
       text_insert := text_insert st |}
  else
    let run := count_delete st + count_insert st in
    let out' :=
      if Nat.ltb 1 run then
        let before := firstn (length (out st) - run) (out st) in
        let both :=
          negb (Nat.eqb (count_delete st) 0)
          && negb (Nat.eqb (count_insert st) 0) in
        let td := text_delete st in
        let ti := text_insert st in
        let cp := if both then diff_commonPrefix ti td else 0 in
        let before1 :=
          if Nat.eqb cp 0 then before
          else if ends_equal before then append_to_last before (firstn cp ti)
          else (DIFF_EQUAL, firstn cp ti) :: before in
        let td1 := skipn cp td in
        let ti1 := skipn cp ti in
        let cs := if both then diff_commonSuffix ti1 td1 else 0 in
        let text1 := skipn (length ti1 - cs) ti1 ++ text in
        let td2 := firstn (length td1 - cs) td1 in
        let ti2 := firstn (length ti1 - cs) ti1 in
        before1 ++ opt_diff DIFF_DELETE td2 ++ opt_diff DIFF_INSERT ti2
          ++ [(DIFF_EQUAL, text1)]
      else if ends_equal (out st) then append_to_last (out st) text
      else out st ++ [d]
    in
    {| out := out'; count_delete := 0; count_insert := 0;
       text_delete := []; text_insert := [] |}.

Definition merge_pass (diffs : list Diff) : list Diff :=
  let st :=
    fold_left merge_step (diffs ++ [(DIFF_EQUAL, [])])
      {| out := []; count_delete := 0; count_insert := 0;
         text_delete := []; text_insert := [] |} in
  match rev (out st) with
  | (_, []) :: r => rev r
  | _ => out st
  end.

Definition ends_with (s suffix : jsstring) : bool :=
  starts_with (rev suffix) (rev s).

Fixpoint set_nth (i : nat) (d : Diff) (l : list Diff) : list Diff :=
  match i, l with
  | O, _ :: l' => d :: l'
  | S i', x :: l' => x :: set_nth i' d l'
  | _, [] => []
  end.

Fixpoint remove_nth (i : nat) (l : list Diff) : list Diff :=
  match i, l with
  | O, _ :: l' => l'
  | S i', x :: l' => x :: remove_nth i' l'
  | _, [] => []
  end.

(** The second pass: a single edit between two equalities is shifted over
    one of them when its text allows it. *)
Fixpoint shift_pass (fuel : nat) (pointer : nat) (diffs : list Diff)
  (changes : bool) : list Diff * bool :=
  match fuel with
  | O => (diffs, changes)
  | S f =>
      if Nat.ltb (S pointer) (length diffs) then
        match nth_error diffs (pointer - 1), nth_error diffs pointer,
              nth_error diffs (S pointer) with
        | Some (opP, tP), Some (opC, tC), Some (opN, tN) =>
            if ((opP =? DIFF_EQUAL) && (opN =? DIFF_EQUAL))%Z then
              if ends_with tC tP then
                let cur := (opC, tP ++ firstn (length tC - length tP) tC) in
                let nxt := (opN, tP ++ tN) in
                shift_pass f (S pointer)
                  (remove_nth (pointer - 1)
                     (set_nth (S pointer) nxt (set_nth pointer cur diffs)))
                  true
              else if starts_with tN tC then
                let prv := (opP, tP ++ tN) in
                let cur := (opC, skipn (length tN) tC ++ tN) in
                shift_pass f (S pointer)
                  (remove_nth (S pointer)
                     (set_nth pointer cur (set_nth (pointer - 1) prv diffs)))
                  true
              else shift_pass f (S pointer) diffs changes
            else shift_pass f (S pointer) diffs changes
        | _, _, _ => (diffs, changes)
        end
      else (diffs, changes)
  end.

(** [diff_cleanupMerge]; it runs again after a pass that shifted an edit.
    Every shift removes an entry and only the first merge can add one,
    which bounds the number of runs by the fuel it is called with. *)
Fixpoint diff_cleanupMerge (fuel : nat) (diffs : list Diff) : list Diff :=
  let merged := merge_pass diffs in
  let '(shifted, changes) := shift_pass (length merged) 1 merged false in
  match fuel with
  | S f => if changes then diff_cleanupMerge f shifted else shifted
  | O => shifted
  end.

Section Model.

Variable u : Unmodelled.

Definition diff_compute_ (text1 text2 : jsstring) : list Diff :=
  match text1, text2 with
  | [], _ => [(DIFF_INSERT, text2)]
  | _, [] => [(DIFF_DELETE, text1)]
  | _, _ =>
      let longer := Nat.ltb (length text2) (length text1) in
      let longtext := if longer then text1 else text2 in
      let shorttext := if longer then text2 else text1 in
      match indexOf shorttext longtext 0 with
      | Some i =>
          let op := if longer then DIFF_DELETE else DIFF_INSERT in
          [(op, firstn i longtext); (DIFF_EQUAL, shorttext);
           (op, skipn (i + length shorttext) longtext)]
      | None =>
          if Nat.eqb (length shorttext) 1
          then [(DIFF_DELETE, text1); (DIFF_INSERT, text2)]
          else diff_split_ u text1 text2
      end
  end.

Definition model_diff_main (text1 text2 : jsstring) (checklines : bool)
  : list Diff :=
  if str_eqb text1 text2 then
    (if nonempty text1 then [(DIFF_EQUAL, text1)] else [])
  else
    let cp := diff_commonPrefix text1 text2 in
    let commonprefix := firstn cp text1 in
    let t1 := skipn cp text1 in
    let t2 := skipn cp text2 in
    let cs := diff_commonSuffix t1 t2 in
    let commonsuffix := skipn (length t1 - cs) t1 in
    let m1 := firstn (length t1 - cs) t1 in
    let m2 := firstn (length t2 - cs) t2 in
    let diffs :=
      opt_diff DIFF_EQUAL commonprefix ++ diff_compute_ m1 m2
        ++ opt_diff DIFF_EQUAL commonsuffix in
    diff_cleanupMerge (S (length diffs)) diffs.

Definition model_cleanupSemantic (diffs : list Diff) : list Diff :=
  match diffs with
  | [] => []
  | _ :: _ => cleanupSemantic_nonempty u diffs
  end.

(** Modelled from the spec: the [dmp] object of [diffUtils.ts], an instance
    of the imported library. *)
Definition model : DiffMatchPatch :=
  {| diff_main := model_diff_main;
     diff_linesToChars_ := linesToChars;
     diff_charsToLines_ := charsToLines;
     diff_cleanupSemantic := model_cleanupSemantic |}.

End Model.

End DiffMatchPatchModel.

Import DiffMatchPatchModel.

(** * Vocabulary of the statements *)

(** ** Texts and values of the literal cases *)

Definition berlin_wkt : jsstring := js "POINT(13.4050 52.5200)".

Definition berlin_point : geometry := Point (dec 13405 (-3), dec 5252 (-2)).

Definition line_geojson : geometry :=
  LineString [(dec 13405 (-3), dec 5252 (-2)); (dec 1341 (-2), dec 5253 (-2))].

Definition line_wkt : jsstring := js "LINESTRING(13.405 52.52, 13.41 52.53)".

Definition open_collection : jsstring := js "GEOMETRYCOLLECTION(".

Definition small_collection : jsstring := js "GEOMETRYCOLLECTION(POINT(1 2))".

Definition invalid_wkt_message : jsstring :=
  js "Invalid WKT format: Unsupported WKT geometry type or invalid format".

Definition old_abc : jsstring := js "a" ++ [LF] ++ js "b" ++ [LF] ++ js "c".
Definition new_axc : jsstring := js "a" ++ [LF] ++ js "x" ++ [LF] ++ js "c".

Definition mkLine (t : change) (text : string) (o n : option Z) : DiffLine :=
  {| dl_type := t; dl_text := js text; oldLineNumber := o;
     newLineNumber := n |}.


(** ** Words at the start of a text *)

(** The text starts with the word, up to the case of letters. *)
Fixpoint starts_ci (w s : jsstring) : bool :=
  match w, s with
  | [], _ => true
  | x :: w', y :: s' => N.eqb (upcase y) x && starts_ci w' s'
  | _ :: _, [] => false
  end.

(** Two words that both start the same text agree as far as both go. *)
Fixpoint compatible (w1 w2 : jsstring) : bool :=
  match w1, w2 with
  | x :: w1', y :: w2' => N.eqb x y && compatible w1' w2'
  | _, _ => true
  end.

(** ** The scan of a collection body *)

(** The sub-expressions that the loop of the collection branch cuts out of
    the body and hands to the recursive call, in the order of the text. *)
Fixpoint scan (rev_chars : jsstring) (depth : Z) (current : jsstring)
  (found : list jsstring) : list jsstring :=
  match rev_chars with
  | [] => found
  | ch :: rest =>
      let depth1 := if N.eqb ch rparen then (depth + 1)%Z else depth in
      let depth2 := if N.eqb ch lparen then (depth1 - 1)%Z else depth1 in
      let current' := ch :: current in
      if (depth2 =? 0)%Z && nonempty (trim current')
      then scan rest depth2 [] (trim current' :: found)
      else scan rest depth2 current' found
  end.

Definition sub_expressions (body : jsstring) : list jsstring :=
  scan (rev body) 0 [] [].

(** The conversions that succeed; a failing one leaves no trace. *)
Definition conversions (self : jsstring -> outcome geometry)
  (l : list jsstring) : list geometry :=
  flat_map (fun w => match self w with Returns g => [g] | _ => [] end) l.

Definition no_rparen (s : jsstring) : bool :=
  forallb (fun ch => negb (N.eqb ch rparen)) s.

(** The continuation of the lazy repetition in [body_re]: close the
    group that was opened at [i0] on the input [s0], then match [\)]. *)
Definition close_group (i0 : nat) (s0 : jsstring) : cont :=
  fun j s' c' =>
    rmatch (lit rparen) j s' ((1, firstn (j - i0) s0) :: c') accept.

(** ** Coordinate tokens *)

(** A token without white space, as a number is written. *)
Definition token (s : jsstring) : Prop :=
  s <> [] /\ forallb (fun ch => negb (isWhiteSpace ch)) s = true.

(** ** Line numbers *)

Definition on_old_side (r : DiffLine) : bool :=
  match dl_type r with added => false | _ => true end.

Definition on_new_side (r : DiffLine) : bool :=
  match dl_type r with removed => false | _ => true end.

(** The numbers 1, 2, ..., n as line-number fields. *)
Definition numbering (n : nat) : list (option Z) :=
  map (fun i => Some (Z.of_nat i)) (seq 1 n).

Definition old_numbers (rs : list DiffLine) : list (option Z) :=
  map oldLineNumber (filter on_old_side rs).

Definition new_numbers (rs : list DiffLine) : list (option Z) :=
  map newLineNumber (filter on_new_side rs).

Definition sides_ok (r : DiffLine) : Prop :=
  (dl_type r = added -> oldLineNumber r = None)
  /\ (dl_type r = removed -> newLineNumber r = None).

(** What the loop keeps true: both counters are one past the numbers
    given out so far. *)
Record numbered (st : line_state) : Prop := {
  old_counted : old_numbers (results st)
                = numbering (length (old_numbers (results st)));
  old_next : oldLineNum st
             = Z.of_nat (S (length (old_numbers (results st))));
  new_counted : new_numbers (results st)
                = numbering (length (new_numbers (results st)));
  new_next : newLineNum st
             = Z.of_nat (S (length (new_numbers (results st))));
  all_sides_ok : Forall sides_ok (results st)
}.

(** * Further code of the files *)

(** ** The serializer of the WKT page *)

Module WKTPage.

(** [geoJSONToWKT]: three geometry types and one fixed error message. *)
Definition geoJSONToWKT (geojson : geometry) : outcome jsstring :=
  let body :=
    match geojson with
    | Point c => Returns (js "POINT(" ++ pair_text c ++ js ")")
    | LineString cs => Returns (js "LINESTRING(" ++ coords_text cs ++ js ")")
    | Polygon rings => Returns (js "POLYGON(" ++ rings_text rings ++ js ")")
    | _ => Throws (js "Unsupported GeoJSON geometry type")
    end in
  match body with
  | Throws _ => Throws (js "Invalid GeoJSON format")
  | _ => body
  end.

End WKTPage.

Import WKTPage.

(** ** formatHTMLDiff *)

Module HtmlDiff.

(** [str.replace(r, rep)] with the [g] flag, for a replacement text
    without [$] patterns: every match is replaced, an empty match
    included, and the search goes on behind it. *)
Fixpoint replace_loop (fuel : nat) (r : regex) (rep : jsstring) (i : nat)
  (s : jsstring) : jsstring :=
  match fuel with
  | O => s
  | S f =>
      let step :=
        match s with
        | [] => []
        | x :: s' => x :: replace_loop f r rep (S i) s'
        end in
      match rmatch r i s [] accept with
      | Some (e, se, _) =>
          if Nat.ltb i e then rep ++ replace_loop f r rep e se
          else rep ++ step
      | None => step
      end
  end.

Definition replace_all (r : regex) (rep : jsstring) (s : jsstring)
  : jsstring :=
  replace_loop (S (length s)) r rep 0 s.

Definition quote : char := 34%N.
Definition ampersand : char := 38%N.
Definition less : char := 60%N.
Definition greater : char := 62%N.

(** [text.replace(/&/g, '&amp;').replace(/</g, '&lt;')
        .replace(/>/g, '&gt;').replace(/\n/g, '<br>')] *)
Definition escaped (text : jsstring) : jsstring :=
  replace_all (lit LF) (js "<br>")
    (replace_all (lit greater) (js "&gt;")
       (replace_all (lit less) (js "&lt;")
          (replace_all (lit ampersand) (js "&amp;") text))).

Definition span_tag (class : string) (content : jsstring) : jsstring :=
  js "<span class=" ++ [quote] ++ js class ++ [quote] ++ js ">"
    ++ content ++ js "</span>".

Definition span_of (operation : Z) (content : jsstring) : jsstring :=
  if (operation =? 1)%Z then span_tag "diff-added" content
  else if (operation =? -1)%Z then span_tag "diff-removed" content
  else span_tag "diff-unchanged" content.

Definition container_open : jsstring :=
  js "<div class=" ++ [quote] ++ js "diff-container" ++ [quote] ++ js ">"
    ++ [LF].

Definition container_close : jsstring := [LF] ++ js "</div>".

Section WithLibrary.

Variable dmp : DiffMatchPatch.

Definition formatHTMLDiff (oldText newText : jsstring) : jsstring :=
  let diffs :=
    diff_cleanupSemantic dmp (diff_main dmp oldText newText false) in
  fold_left (fun html d => html ++ span_of (fst d) (escaped (snd d)))
    diffs container_open
  ++ container_close.

End WithLibrary.

End HtmlDiff.

Import HtmlDiff.

(** ** Vocabulary of the further statements *)

(** The type that a geometry object names. *)
Definition kind_of (g : geometry) : option kind :=
  match g with
  | Point _ => Some KPoint
  | LineString _ => Some KLineString
  | Polygon _ => Some KPolygon
  | MultiPoint _ => Some KMultiPoint
  | MultiLineString _ => Some KMultiLineString
  | MultiPolygon _ => Some KMultiPolygon
  | GeometryCollection _ => Some KGeometryCollection
  | Unknown _ => None
  end.

(** No object of an unsupported type, at any depth of collections. *)
Fixpoint supported (g : geometry) : bool :=
  match g with
  | GeometryCollection gs => forallb supported gs
  | Unknown _ => false
  | _ => true
  end.

(** The first result that a function gives on the members of a list. *)
Definition first_some {A B : Type} (f : A -> option B)
  : list A -> option B :=
  fix first (l : list A) : option B :=
    match l with
    | [] => None
    | x :: l' => match f x with Some b => Some b | None => first l' end
    end.

(** The first object of an unsupported type in a geometry, members of
    collections taken in their order: how many collections it lies in,
    and its type. *)
Fixpoint first_unsupported (g : geometry) : option (nat * jsstring) :=
  match g with
  | Unknown ty => Some (0, ty)
  | GeometryCollection gs =>
      first_some
        (fun x => match first_unsupported x with
                  | Some (d, ty) => Some (S d, ty)
                  | None => None
                  end) gs
  | _ => None
  end.

(** The message for an unsupported type [ty] that lies in [d]
    collections: the [catch] of every call on the way puts
    "Invalid GeoJSON format: " in front. *)
Definition unsupported_message (d : nat) (ty : jsstring) : jsstring :=
  concat (repeat invalid_geojson (S d))
    ++ js "Unsupported GeoJSON geometry type: " ++ ty.

(** No empty array among the coordinates. *)
Definition populated (g : geometry) : Prop :=
  match g with
  | LineString cs | MultiPoint cs => cs <> []
  | Polygon rs | MultiLineString rs => rs <> [] /\ Forall (fun r => r <> []) rs
  | MultiPolygon ps =>
      ps <> []
      /\ Forall (fun p => p <> [] /\ Forall (fun r => r <> []) p) ps
  | _ => True
  end.

(** The diff tuples that computeDiff works on in each mode. *)
Definition mode_diffs (dmp : DiffMatchPatch) (oldText newText : jsstring)
  (m : mode) : list Diff :=
  match m with
  | line_mode => diffLineMode dmp oldText newText
  | word_mode =>
      diff_cleanupSemantic dmp (diff_main dmp oldText newText false)
  | char_mode => diff_main dmp oldText newText false
  end.

Definition change_eqb (a b : change) : bool :=
  match a, b with
  | added, added | removed, removed | unchanged, unchanged => true
  | _, _ => false
  end.

(** The texts of the tuples of one kind, and of the records of one kind,
    put together. *)
Definition tuple_text (c : change) (diffs : list Diff) : jsstring :=
  concat (map snd
            (filter (fun d : Diff => change_eqb (change_of (fst d)) c) diffs)).

Definition record_text (c : change) (rs : list DiffResult) : jsstring :=
  concat (map dr_text (filter (fun r => change_eqb (dr_type r) c) rs)).

(** One more than the number of unchanged records seen so far, record by
    record. *)
Fixpoint running (n : Z) (rs : list DiffResult) : list Z :=
  match rs with
  | [] => []
  | r :: rs' =>
      n :: running (match dr_type r with
                    | unchanged => (n + 1)%Z
                    | _ => n
                    end) rs'
  end.

Definition no_LF (s : jsstring) : bool :=
  forallb (fun ch => negb (N.eqb ch LF)) s.

(** A text with a line feed put behind its last line when that line has
    none. *)
Definition closed_text (t : jsstring) : jsstring :=
  match rev t with
  | [] => []
  | ch :: _ => if N.eqb ch LF then t else t ++ [LF]
  end.

Definition old_tuple (d : Diff) : bool :=
  negb (change_eqb (change_of (fst d)) added).

Definition new_tuple (d : Diff) : bool :=
  negb (change_eqb (change_of (fst d)) removed).

(** What one character of a diffed text becomes in the HTML fragment. *)
Definition escape_char (ch : char) : jsstring :=
  if N.eqb ch ampersand then js "&amp;"
  else if N.eqb ch less then js "&lt;"
  else if N.eqb ch greater then js "&gt;"
  else if N.eqb ch LF then js "<br>"
  else [ch].

(** A hunk of a unified diff: where it starts on either side, and its
    lines, each with its sign. *)
Record hunk := {
  start_old : Z;
  start_new : Z;
  hunk_body : list jsstring
}.

Definition signed (sign : char) (l : jsstring) : bool :=
  match l with
  | ch :: _ => N.eqb ch sign
  | [] => false
  end.

Definition count_signed (sign : char) (ls : list jsstring) : Z :=
  Z.of_nat (length (filter (signed sign) ls)).

Definition minus_sign : char := 45%N.
Definition plus_sign : char := 43%N.

(** The text of a hunk: its header, whose two counts are the numbers of
    its removed and of its added lines, then its lines. *)
Definition hunk_text (h : hunk) : jsstring :=
  js "@@ -" ++ int_text (start_old h) ++ js ","
    ++ int_text (count_signed minus_sign (hunk_body h))
    ++ js " +" ++ int_text (start_new h) ++ js ","
    ++ int_text (count_signed plus_sign (hunk_body h)) ++ js " @@" ++ [LF]
    ++ join [LF] (hunk_body h) ++ [LF].

Definition file_header (oldFile newFile : jsstring) : jsstring :=
  js "--- " ++ oldFile ++ [LF] ++ js "+++ " ++ newFile ++ [LF].

(** A text, when its operation is of the given kind. *)
Definition chosen (c : change) (operation : Z) (t : jsstring) : jsstring :=
  if change_eqb (change_of operation) c then t else [].

Definition is_unchanged (r : DiffResult) : bool :=
  change_eqb (dr_type r) unchanged.

(** What the loop of computeDiff keeps true of its results and counter. *)
Record counted (st : list DiffResult * Z) : Prop := {
  numbers_run : map lineNumber (fst st) = running 1 (fst st);
  next_number :
    snd st = (1 + Z.of_nat (length (filter is_unchanged (fst st))))%Z
}.


(** The lines of a tuple that the loops of computeLineDiff and
    formatUnifiedDiff go through: all but the last, and the last when it
    is not empty. *)
Fixpoint kept_lines (lines : list jsstring) : list jsstring :=
  match lines with
  | [] => []
  | line :: rest =>
      if negb (is_last rest) || nonempty line
      then line :: kept_lines rest else kept_lines rest
  end.

(** Lines, each closed by a line feed. *)
Definition closed_lines (lines : list jsstring) : jsstring :=
  concat (map (fun l => l ++ [LF]) lines).

Definition side_text (side : DiffLine -> bool) (rs : list DiffLine)
  : jsstring :=
  closed_lines (map dl_text (filter side rs)).

(** The kind and the text of a record. *)
Definition kind_and_text (r : DiffLine) : change * jsstring :=
  (dl_type r, dl_text r).

(** The kept lines of a tuple, each with the kind of the tuple. *)
Definition tuple_lines (d : Diff) : list (change * jsstring) :=
  map (pair (change_of (fst d))) (kept_lines (split_char LF (snd d))).

(** A line of a hunk starts with its sign. *)
Definition well_signed (l : jsstring) : bool :=
  signed minus_sign l || signed plus_sign l.

Definition proper_hunk (h : hunk) : bool :=
  nonempty (hunk_body h) && forallb well_signed (hunk_body h).

(** The line that formatUnifiedDiff prints for a line of a given kind:
    none for an unchanged one. *)
Definition printed_pair (p : change * jsstring) : list jsstring :=
  match fst p with
  | added => [js "+" ++ snd p]
  | removed => [js "-" ++ snd p]
  | unchanged => []
  end.

Definition printed (r : DiffLine) : list jsstring :=
  printed_pair (kind_and_text r).

(** The operation of a tuple of a given kind. *)
Definition operation_of (c : change) : Z :=
  match c with
  | added => DIFF_INSERT
  | removed => DIFF_DELETE
  | unchanged => DIFF_EQUAL
  end.

Definition next_is_change (ps : list (change * jsstring)) : bool :=
  match ps with
  | p :: _ => negb (change_eqb (fst p) unchanged)
  | [] => false
  end.

(** Lines put in front of the hunks [hs]: in front of the lines of the
    first hunk when they are [adjacent] to it, as a hunk of their own
    otherwise; the hunk starts at [so] and [sn]. *)
Definition prepend (so sn : Z) (lines : list jsstring) (adjacent : bool)
  (hs : list hunk) : list hunk :=
  match adjacent, hs with
  | true, h :: hs' =>
      {| start_old := so; start_new := sn;
         hunk_body := lines ++ hunk_body h |} :: hs'
  | _, _ =>
      {| start_old := so; start_new := sn; hunk_body := lines |} :: hs
  end.

(** The hunks of a sequence of lines with their kinds.  A hunk is a
    maximal run of removed and added lines: an unchanged line ends it and
    is not part of any hunk.  A hunk starts at the numbers [o] and [n]
    that the old and the new side have reached when its first line comes:
    both sides start at the given numbers, a removed line counts on the
    old side, an added line on the new side, an unchanged line on
    both. *)
Fixpoint hunks_of (o n : Z) (ps : list (change * jsstring)) : list hunk :=
  match ps with
  | [] => []
  | p :: ps' =>
      match fst p with
      | unchanged => hunks_of (o + 1) (n + 1) ps'
      | added =>
          prepend o n (printed_pair p) (next_is_change ps')
            (hunks_of o (n + 1) ps')
      | removed =>
          prepend o n (printed_pair p) (next_is_change ps')
            (hunks_of (o + 1) n ps')
      end
  end.

(** The loop of formatUnifiedDiff over lines with their kinds, and what
    the function returns after it. *)
Definition run_pairs (ps : list (change * jsstring)) (st : unified_state)
  : unified_state :=
  fold_left (fun st p => unified_line (operation_of (fst p)) (snd p) st)
    ps st.

Definition finish (st : unified_state) : jsstring :=
  if nonempty (hunkLines st) then flush_hunk st else output st.

(** The hunks still to be printed, when the lines [waiting] have been
    read for a hunk that starts at [so] and [sn]. *)
Definition pending (so sn : Z) (waiting : list jsstring) (adjacent : bool)
  (hs : list hunk) : list hunk :=
  match waiting with
  | [] => hs
  | _ :: _ => prepend so sn waiting adjacent hs
  end.

(** What the loop of formatUnifiedDiff keeps true of its counters: they
    are ahead of the hunk starts by the numbers of removed and added lines
    waiting in [hunkLines]. *)
Record counters_ahead (st : unified_state) : Prop := {
  old_ahead :
    (u_oldLineNum st - hunkStartOld st)%Z
    = count_signed minus_sign (hunkLines st);
  new_ahead :
    (u_newLineNum st - hunkStartNew st)%Z
    = count_signed plus_sign (hunkLines st)
}.

(** A file name, or its default when none is passed. *)
Definition file_name (given : option jsstring) (default : jsstring)
  : jsstring :=
  match given with Some f => f | None => default end.

(** The types that the converter of the WKT page knows. *)
Definition page_kind (k : kind) : bool :=
  match k with
  | KPoint | KLineString | KPolygon => true
  | _ => false
  end.

Definition page_invalid_wkt : jsstring := js "Invalid WKT format".

Definition page_invalid_geojson : jsstring := js "Invalid GeoJSON format".

(** The characters that a number is written with. *)
Definition number_char (ch : char) : bool :=
  isDigit ch || existsb (N.eqb ch) [45; 46; 43; 101; 78; 97; 73; 110; 102;
                                    105; 116; 121]%N.

(** A number read back from its own text, and a pair read back in the
    order in which the parser returns it. *)
Definition reread (x : number) : number := parseFloat (toString x).

Definition swapped (p : position) : position :=
  (reread (snd p), reread (fst p)).

(** Writing a geometry and parsing what was written. *)
Definition round_trip (g : geometry) : outcome geometry :=
  match geoJSONToWKTExtended g with
  | Returns w => wktToGeoJSONExtended w
  | Throws m => Throws m
  | OutOfFuel => OutOfFuel
  end.

(** A text of digits, signs and points only, the class of the Point
    pattern. *)
Definition plain_decimal (s : jsstring) : bool :=
  forallb (fun c => N.eqb c 45 || isDigit c || N.eqb c 46) s.

(** The characters of a written list of coordinates. *)
Definition written_char (ch : char) : bool :=
  number_char ch || N.eqb ch 32 || N.eqb ch comma.

(** A character that the pattern [.] matches. *)
Definition line_char (ch : char) : bool := negb (isLineTerminator ch).

(** A text that begins with a digit. *)
Definition digit_first (s : jsstring) : bool :=
  match s with
  | d :: _ => isDigit d
  | [] => false
  end.

(** A text without the line feed at its end, if it has one. *)
Definition chop (t : jsstring) : jsstring :=
  match rev t with
  | ch :: r => if N.eqb ch LF then rev r else t
  | [] => t
  end.

Definition kind_and_line (r : DiffResult) : change * jsstring :=
  (dr_type r, chop (dr_text r)).

(** The texts of the records that computeDiff makes of the lines of one
    tuple. *)
Fixpoint result_texts (lines : list jsstring) : list jsstring :=
  match lines with
  | [] => []
  | line :: rest =>
      if negb (is_last rest) then (line ++ [LF]) :: result_texts rest
      else if nonempty line then line :: result_texts rest
      else result_texts rest
  end.

(** A number in canonical form: no zero at the end of the mantissa, and
    one zero only, the positive one with exponent 0. *)
Definition canonical (x : number) : bool :=
  match x with
  | Fin neg m e =>
      if (m =? 0)%N then (e =? 0)%Z && negb neg
      else negb (m mod 10 =? 0)%N
  | _ => true
  end.

Definition canonical_position (p : position) : bool :=
  canonical (fst p) && canonical (snd p).

(** A position with its two numbers exchanged. *)
Definition swap (p : position) : position := (snd p, fst p).

(** One step of [N_of_digits]. *)
Definition add_digit (acc : N) (c : char) : N := (10 * acc + (c - 48))%N.

(** What parseFloat does behind the sign, when no "Infinity" follows. *)
Definition read_digits (neg : bool) (s1 : jsstring) : number :=
  let '(d1, s2) := span isDigit s1 in
  match s2 with
  | 46%N :: s3 =>
      let '(d2, s4) := span isDigit s3 in
      match d1, d2 with
      | [], [] => NaN
      | _, _ =>
          mkFin neg (N_of_digits (d1 ++ d2))
            (exponent_part s4 - Z.of_nat (length d2))
      end
  | _ =>
      match d1 with
      | [] => NaN
      | _ => mkFin neg (N_of_digits d1) (exponent_part s2)
      end
  end.

(** The same with the two functions of the WKT page. *)
Definition page_round_trip (g : geometry) : outcome geometry :=
  match geoJSONToWKT g with
  | Returns w => wktToGeoJSON w
  | Throws m => Throws m
  | OutOfFuel => OutOfFuel
  end.

(** The kind and the text of a record of computeDiff. *)
Definition kind_and_piece (r : DiffResult) : change * jsstring :=
  (dr_type r, dr_text r).

(** A text cut behind each of its line feeds: every piece but the last
    ends with its line feed, the last piece is what stands behind the last
    line feed, if anything does.  [cur] holds, reversed, the characters of
    the piece that is being read. *)
Fixpoint cut_after (cur : jsstring) (s : jsstring) : list jsstring :=
  match s with
  | [] => match cur with [] => [] | _ :: _ => [rev cur] end
  | c :: s' =>
      if N.eqb c LF then rev (c :: cur) :: cut_after [] s'
      else cut_after (c :: cur) s'
  end.

Definition cut_lines (t : jsstring) : list jsstring := cut_after [] t.

(** The pieces of a tuple, each with the kind of the tuple. *)
Definition tuple_pieces (d : Diff) : list (change * jsstring) :=
  map (pair (change_of (fst d))) (cut_lines (snd d)).

(** A line feed only as the last character, in a text that is not
    empty. *)
Definition one_line_piece (t : jsstring) : Prop :=
  t <> [] /\ no_LF (removelast t) = true.

Definition ends_with_LF (t : jsstring) : bool :=
  match rev t with
  | ch :: _ => N.eqb ch LF
  | [] => false
  end.

(** Lines with a line feed behind each, except behind the last one when
    [closed_last] is false. *)
Fixpoint with_line_feeds (closed_last : bool) (lines : list jsstring)
  : list jsstring :=
  match lines with
  | [] => []
  | l :: rest =>
      match rest with
      | [] => if closed_last then [l ++ [LF]] else [l]
      | _ :: _ => (l ++ [LF]) :: with_line_feeds closed_last rest
      end
  end.

(** The lines of a tuple with their line feeds, as the tuple's text has
    them, each with the kind of the tuple. *)
Definition tuple_fed_lines (d : Diff) : list (change * jsstring) :=
  map (pair (change_of (fst d)))
    (with_line_feeds (ends_with_LF (snd d))
       (kept_lines (split_char LF (snd d)))).

(** * The primitives at work *)

Example split_ws_demo :
  split (Plus true ws) (js "13.4050   52.5200") = [js "13.4050"; js "52.5200"].
Proof. reflexivity. Qed.

Example digits_demo : digits_of_N 1203 = js "1203" /\ digits_of_N 0 = js "0".
Proof. split; reflexivity. Qed.

Example parseFloat_demo :
  parseFloat (js "52.5200") = Fin false 5252 (-2)
  /\ parseFloat (js " -1.5e3x") = Fin true 15 2
  /\ parseFloat (js "2,") = Fin false 2 0
  /\ parseFloat (js ".") = NaN
  /\ parseFloat (js "abc") = NaN.
Proof. repeat split; reflexivity. Qed.

Example toString_demo :
  toString (dec 13405 (-3)) = js "13.405"
  /\ toString (Fin true 5 (-1)) = js "-0.5"
  /\ toString (dec 1 (-7)) = js "1e-7"
  /\ toString (dec 12 19) = js "120000000000000000000"
  /\ toString (dec 12 21) = js "1.2e+22"
  /\ toString (dec 1200 0) = js "1200".
Proof. repeat split; reflexivity. Qed.

(** * Literal cases of the converter *)

(** C3: "POINT(13.4050 52.5200)" is converted to a Point whose coordinates
    array is [52.52, 13.405], the second written number first; the simple
    converter of the WKT page gives the same. *)
Theorem point_literal_second_token_first :
  wktToGeoJSONExtended berlin_wkt
  = Returns (Point (dec 5252 (-2), dec 13405 (-3)))
  /\ wktToGeoJSON berlin_wkt
     = Returns (Point (dec 5252 (-2), dec 13405 (-3))).
Proof. split; vm_compute; reflexivity. Qed.

(** C7: the LineString [[13.405,52.52],[13.41,52.53]] is written as
    "LINESTRING(13.405 52.52, 13.41 52.53)", but reading that text back
    gives [[52.52,13.405],[52.53,13.41]]: every pair comes back swapped,
    so the coordinate array is not the one that was written. *)
Theorem linestring_literal_comes_back_swapped :
  geoJSONToWKTExtended line_geojson = Returns line_wkt
  /\ wktToGeoJSONExtended line_wkt
     = Returns (LineString [(dec 5252 (-2), dec 13405 (-3));
                            (dec 5253 (-2), dec 1341 (-2))])
  /\ wktToGeoJSONExtended line_wkt <> Returns line_geojson.
Proof.
  split; [|split].
  - vm_compute. reflexivity.
  - vm_compute. reflexivity.
  - vm_compute. discriminate.
Qed.

(** C2: the tokens "1 2" and "3 4" of a LineString, and those of a
    Polygon ring, are emitted as [2, 1] and [4, 3]: the two parsed numbers
    of every token are swapped, the first written one does not come
    first. *)
Theorem coordinate_tokens_are_swapped :
  wktToGeoJSONExtended (js "LINESTRING(1 2, 3 4)")
  = Returns (LineString [(dec 2 0, dec 1 0); (dec 4 0, dec 3 0)])
  /\ wktToGeoJSONExtended (js "POLYGON((1 2, 3 4, 1 2))")
     = Returns (Polygon [[(dec 2 0, dec 1 0); (dec 4 0, dec 3 0);
                          (dec 2 0, dec 1 0)]])
  /\ parse_pair (js "1 2") <> (dec 1 0, dec 2 0).
Proof.
  split; [|split].
  - vm_compute. reflexivity.
  - vm_compute. reflexivity.
  - vm_compute. discriminate.
Qed.

(** C1: the round trip fails on the Point [13.405, 52.52].  It is written
    as "POINT(13.405 52.52)" and read back as [52.52, 13.405]; in the
    other direction "POINT(13.405 52.52)" is read and written back as
    "POINT(52.52 13.405)". *)
Theorem round_trip_fails_on_point :
  geoJSONToWKTExtended berlin_point = Returns (js "POINT(13.405 52.52)")
  /\ wktToGeoJSONExtended (js "POINT(13.405 52.52)")
     = Returns (Point (dec 5252 (-2), dec 13405 (-3)))
  /\ wktToGeoJSONExtended (js "POINT(13.405 52.52)") <> Returns berlin_point
  /\ geoJSONToWKTExtended (Point (dec 5252 (-2), dec 13405 (-3)))
     = Returns (js "POINT(52.52 13.405)").
Proof.
  repeat split; try (vm_compute; reflexivity).
  vm_compute. discriminate.
Qed.

(** The lazy body pattern stops at the first closing parenthesis: of a
    polygon with two rings only the first ring is read. *)
Example polygon_second_ring_lost :
  wktToGeoJSONExtended
    (js "POLYGON((0 0, 1 0, 1 1, 0 0), (5 5, 6 6, 7 7, 5 5))")
  = Returns (Polygon [[(dec 0 0, dec 0 0); (dec 0 0, dec 1 0);
                       (dec 1 0, dec 1 0); (dec 0 0, dec 0 0)]]).
Proof. vm_compute. reflexivity. Qed.

(** * Literal cases of the diff engine *)

(** What the library hands to the loops for the two texts of the literal
    case: "a" kept, "b" deleted, "x" inserted, "c" kept, each line with
    its line feed. *)
Example diffLineMode_literal (u : Unmodelled) :
  diffLineMode (model u) old_abc new_axc
  = [ (DIFF_EQUAL, js "a" ++ [LF]); (DIFF_DELETE, js "b" ++ [LF]);
      (DIFF_INSERT, js "x" ++ [LF]); (DIFF_EQUAL, js "c") ].
Proof. vm_compute. reflexivity. Qed.

(** The loop of computeLineDiff on these four tuples, whichever library
    produced them. *)
Example lineDiff_of_literal :
  lineDiff_of
    [ (DIFF_EQUAL, js "a" ++ [LF]); (DIFF_DELETE, js "b" ++ [LF]);
      (DIFF_INSERT, js "x" ++ [LF]); (DIFF_EQUAL, js "c") ]
  = [ mkLine unchanged "a" (Some 1%Z) (Some 1%Z);
      mkLine removed "b" (Some 2%Z) None;
      mkLine added "x" None (Some 2%Z);
      mkLine unchanged "c" (Some 3%Z) (Some 3%Z) ].
Proof. vm_compute. reflexivity. Qed.

(** C5: for "a\nb\nc" against "a\nx\nc", computeLineDiff returns
    unchanged "a" (old 1, new 1), removed "b" (old 2), added "x" (new 2),
    unchanged "c" (old 3, new 3), and nothing else. *)
Theorem computeLineDiff_literal (u : Unmodelled) :
  computeLineDiff (model u) old_abc new_axc
  = [ mkLine unchanged "a" (Some 1%Z) (Some 1%Z);
      mkLine removed "b" (Some 2%Z) None;
      mkLine added "x" None (Some 2%Z);
      mkLine unchanged "c" (Some 3%Z) (Some 3%Z) ].
Proof. vm_compute. reflexivity. Qed.


(** C9: with both texts empty, computeDiff in each of its modes and
    computeLineDiff return the empty sequence. *)
Theorem empty_texts_give_empty_diff (u : Unmodelled) :
  (forall m, computeDiff (model u) [] [] m = [])
  /\ computeLineDiff (model u) [] [] = [].
Proof.
  split.
  - intros m. destruct m; reflexivity.
  - reflexivity.
Qed.

(** * Properties of the matcher *)

Section MatcherFacts.

(** A successful match ends in a call of the continuation, on a suffix of
    the input that is no longer than the one it started with, at the
    index that has moved on by as much as the input got shorter. *)
Lemma rmatch_calls_aligned (r : regex) :
  forall i s c (k : cont) res,
    rmatch r i s c k = Some res ->
    exists j s' c',
      k j s' c' = Some res
      /\ length s' <= length s /\ j + length s' = i + length s.
Proof.
  induction r as [| p | r1 IH1 r2 IH2 | r1 IH1 r2 IH2 | g r1 IH1
                 | n r1 IH1 | | | r1 IH1]; intros i s c k res H.
  - exists i, s, c. split; [exact H | lia].
  - simpl in H. destruct s as [|x s']; [discriminate|].
    destruct (p x); [|discriminate].
    exists (S i), s', c. split; [exact H | simpl; lia].
  - simpl in H. apply IH1 in H. destruct H as (j & s' & c' & H & L1 & A1).
    apply IH2 in H. destruct H as (j2 & s2 & c2 & H & L2 & A2).
    exists j2, s2, c2. split; [exact H | lia].
  - simpl in H. unfold orelse in H.
    destruct (rmatch r1 i s c k) eqn:E.
    + inversion H; subst. apply IH1 in E. exact E.
    + apply IH2 in H. exact H.
  - cbn [rmatch] in H. revert H. generalize (S (length s)) as fuel.
    intros fuel. revert i s c.
    induction fuel as [|f IHf]; intros i s c H.
    + exists i, s, c. split; [exact H | lia].
    + cbn [star_loop] in H. cbv zeta in H.
      match type of H with
      | (if g then orelse ?a ?b else orelse ?b' ?a') = _ =>
          assert (D : a = Some res \/ b = Some res)
      end.
      { destruct g; unfold orelse in H.
        - match goal with
          | H : match ?a with _ => _ end = _ |- _ => destruct a
          end; [left | right]; exact H.
        - match goal with
          | H : match ?a with _ => _ end = _ |- _ => destruct a
          end; [right | left]; exact H. }
      destruct D as [D | D].
      * apply IH1 in D. destruct D as (j & s' & c' & D & L1 & A1).
        destruct (Nat.eqb j i); [discriminate|].
        apply IHf in D. destruct D as (j2 & s2 & c2 & D & L2 & A2).
        exists j2, s2, c2. split; [exact D | lia].
      * exists i, s, c. split; [exact D | lia].
  - simpl in H. apply IH1 in H. destruct H as (j & s' & c' & H & L1 & A1).
    eexists _, _, _. split; [exact H | lia].
  - simpl in H. destruct (Nat.eqb i 0); [|discriminate].
    exists i, s, c. split; [exact H | lia].
  - simpl in H. destruct s; [|discriminate].
    exists i, [], c. split; [exact H | lia].
  - simpl in H. destruct (rmatch r1 i s c accept) as [[[j0 s0] c0]|];
      [|discriminate].
    exists i, s, c0. split; [exact H | lia].
Qed.

Lemma rmatch_calls_continuation (r : regex) :
  forall i s c (k : cont) res,
    rmatch r i s c k = Some res ->
    exists j s' c', k j s' c' = Some res /\ length s' <= length s.
Proof.
  intros i s c k res H. apply rmatch_calls_aligned in H.
  destruct H as (j & s' & c' & H & L & _). exists j, s', c'. auto.
Qed.

(** Where a match ends. *)
Lemma rmatch_end (r : regex) i s c e se c' :
  rmatch r i s c accept = Some (e, se, c') ->
  length se <= length s /\ e + length se = i + length s.
Proof.
  intros H. apply rmatch_calls_aligned in H.
  destruct H as (j & s' & c2 & H & L & A).
  unfold accept in H. inversion H; subst. auto.
Qed.

(** The result of a match depends on the continuation only at the
    positions a match can end at: further right by as much as the rest of
    the input got shorter. *)
Lemma rmatch_ext (r : regex) :
  forall i s c (k1 k2 : cont),
    (forall j s' c',
       j + length s' = i + length s -> length s' <= length s ->
       k1 j s' c' = k2 j s' c') ->
    rmatch r i s c k1 = rmatch r i s c k2.
Proof.
  induction r as [| p | r1 IH1 r2 IH2 | r1 IH1 r2 IH2 | g r1 IH1
                 | n r1 IH1 | | | r1 IH1]; intros i s c k1 k2 K.
  - apply K; lia.
  - simpl. destruct s as [|x s']; [reflexivity|].
    destruct (p x); [|reflexivity]. apply K; simpl; lia.
  - simpl. apply IH1. intros j s' c' A L.
    apply IH2. intros j2 s2 c2 A2 L2. apply K; lia.
  - simpl. rewrite (IH1 i s c k1 k2 K), (IH2 i s c k1 k2 K). reflexivity.
  - cbn [rmatch]. generalize (S (length s)) as fuel. intros fuel.
    assert (G : forall i' s' c',
              i' + length s' = i + length s -> length s' <= length s ->
              star_loop g (rmatch r1) k1 fuel i' s' c'
              = star_loop g (rmatch r1) k2 fuel i' s' c');
      [|apply G; lia].
    induction fuel as [|f IHf]; intros i' s' c' A L.
    + apply K; assumption.
    + cbn [star_loop]. cbv zeta. rewrite (K i' s' c' A L).
      replace (rmatch r1 i' s' c'
                 (fun j s2 c2 =>
                    if Nat.eqb j i' then None
                    else star_loop g (rmatch r1) k1 f j s2 c2))
        with (rmatch r1 i' s' c'
                (fun j s2 c2 =>
                   if Nat.eqb j i' then None
                   else star_loop g (rmatch r1) k2 f j s2 c2));
        [reflexivity|].
      apply IH1. intros j s2 c2 A2 L2.
      destruct (Nat.eqb j i'); [reflexivity|].
      symmetry. apply IHf; lia.
  - simpl. apply IH1. intros j s' c' A L. apply K; assumption.
  - simpl. destruct (Nat.eqb i 0); [apply K; lia | reflexivity].
  - simpl. destruct s; [apply K; lia | reflexivity].
  - simpl. destruct (rmatch r1 i s c accept) as [[[j0 s0] c0]|];
      [apply K; lia | reflexivity].
Qed.

(** Every iteration of a repetition consumes input, so the fuel that
    [rmatch] gives the loop is never used up: more of it changes
    nothing. *)
Lemma star_loop_fuel (g : bool) (r : regex) (k : cont) :
  forall f1 f2 i s c,
    length s < f1 -> length s < f2 ->
    star_loop g (rmatch r) k f1 i s c = star_loop g (rmatch r) k f2 i s c.
Proof.
  induction f1 as [|f1 IH]; intros f2 i s c L1 L2; [lia|].
  destruct f2 as [|f2]; [lia|].
  cbn [star_loop]. cbv zeta.
  replace (rmatch r i s c
             (fun j s' c' =>
                if Nat.eqb j i then None
                else star_loop g (rmatch r) k f1 j s' c'))
    with (rmatch r i s c
            (fun j s' c' =>
               if Nat.eqb j i then None
               else star_loop g (rmatch r) k f2 j s' c'));
    [reflexivity|].
  apply rmatch_ext. intros j s' c' A L.
  destruct (Nat.eqb j i) eqn:E; [reflexivity|].
  apply Nat.eqb_neq in E. symmetry. apply IH; lia.
Qed.

Lemma star_fuel_enough (g : bool) (r : regex) (k : cont) f i s c :
  length s < f ->
  star_loop g (rmatch r) k f i s c = rmatch (Star g r) i s c k.
Proof. intros L. cbn [rmatch]. apply star_loop_fuel; lia. Qed.

(** The same for the loops of [replace] and [split]: a match that is not
    empty shortens the rest, and an empty one is stepped over. *)
Lemma remove_loop_fuel (r : regex) :
  forall f1 f2 i s,
    length s < f1 -> length s < f2 ->
    remove_loop f1 r i s = remove_loop f2 r i s.
Proof.
  induction f1 as [|f1 IH]; intros f2 i s L1 L2; [lia|].
  destruct f2 as [|f2]; [lia|].
  cbn [remove_loop]. cbv zeta.
  assert (St : match s with
               | [] => []
               | x :: s' => x :: remove_loop f1 r (S i) s'
               end
               = match s with
                 | [] => []
                 | x :: s' => x :: remove_loop f2 r (S i) s'
                 end).
  { destruct s as [|x s']; [reflexivity|]. f_equal.
    apply IH; simpl in *; lia. }
  destruct (rmatch r i s [] accept) as [[[e se] c']|] eqn:M; [|exact St].
  destruct (Nat.ltb i e) eqn:Lt; [|exact St].
  apply Nat.ltb_lt in Lt. apply rmatch_end in M.
  apply IH; lia.
Qed.

Lemma split_loop_fuel (r : regex) :
  forall f1 f2 p sp q sq acc,
    2 * length sq + (if Nat.eqb p q then 0 else 1) < f1 ->
    2 * length sq + (if Nat.eqb p q then 0 else 1) < f2 ->
    split_loop f1 r p sp q sq acc = split_loop f2 r p sp q sq acc.
Proof.
  induction f1 as [|f1 IH]; intros f2 p sp q sq acc L1 L2; [lia|].
  destruct f2 as [|f2]; [lia|].
  cbn [split_loop]. destruct sq as [|x sq']; [reflexivity|].
  assert (Step : split_loop f1 r p sp (S q) sq' acc
                 = split_loop f2 r p sp (S q) sq' acc).
  { apply IH; simpl in *; destruct (Nat.eqb p (S q)), (Nat.eqb p q); lia. }
  destruct (rmatch r q (x :: sq') [] accept) as [[[e se] c']|] eqn:M;
    [|exact Step].
  destruct (Nat.eqb e p) eqn:Ep; [exact Step|].
  apply rmatch_end in M. destruct M as [Le A].
  apply IH; rewrite Nat.eqb_refl.
  - destruct (Nat.eqb p q) eqn:Pq.
    + apply Nat.eqb_eq in Pq. apply Nat.eqb_neq in Ep. lia.
    + lia.
  - destruct (Nat.eqb p q) eqn:Pq.
    + apply Nat.eqb_eq in Pq. apply Nat.eqb_neq in Ep. lia.
    + lia.
Qed.

Lemma search_matches (r : regex) :
  forall s i res,
    search r i s = Some res ->
    exists i' s', rmatch r i' s' [] accept = Some res
                  /\ length s' <= length s.
Proof.
  induction s as [|x s IH]; intros i res H; simpl in H.
  - destruct (rmatch r i [] [] accept) eqn:E; [|discriminate].
    inversion H; subst. exists i, []. split; [exact E | lia].
  - destruct (rmatch r i (x :: s) [] accept) eqn:E.
    + inversion H; subst. exists i, (x :: s). split; [exact E | lia].
    + apply IH in H. destruct H as (i' & s' & H & L).
      exists i', s'. split; [exact H | simpl; lia].
Qed.

(** A pattern that starts with [^] matches at the start or nowhere. *)
Lemma search_bol_later (r : regex) :
  forall s i, search (Seq Bol r) (S i) s = None.
Proof.
  induction s as [|x s IH]; intros i; simpl; [reflexivity | apply IH].
Qed.

Lemma test_bol (r : regex) (s : jsstring) :
  test (Seq Bol r) s = true ->
  exists res, rmatch r 0 s [] accept = Some res.
Proof.
  unfold test, exec. intros H.
  destruct s as [|x s]; simpl in H.
  - destruct (rmatch r 0 [] [] accept) eqn:E; [|discriminate].
    eexists; reflexivity.
  - destruct (rmatch r 0 (x :: s) [] accept) eqn:E.
    + eexists; reflexivity.
    + rewrite search_bol_later in H. discriminate.
Qed.

Lemma word_ci_starts (w : jsstring) :
  forall r i s c k res,
    rmatch (Seq (word_ci w) r) i s c k = Some res -> starts_ci w s = true.
Proof.
  induction w as [|x w IH]; intros r i s c k res H; [reflexivity|].
  simpl in H. destruct s as [|y s]; [discriminate|].
  simpl. destruct (N.eqb (upcase y) x); [|discriminate].
  simpl. exact (IH r _ _ _ _ _ H).
Qed.

Lemma starts_ci_compatible (w1 : jsstring) :
  forall w2 s,
    starts_ci w1 s = true -> starts_ci w2 s = true ->
    compatible w1 w2 = true.
Proof.
  induction w1 as [|x w1 IH]; intros w2 s H1 H2; [reflexivity|].
  destruct w2 as [|y w2]; [reflexivity|].
  destruct s as [|z s]; [discriminate|].
  simpl in *.
  apply andb_prop in H1. destruct H1 as [E1 H1].
  apply andb_prop in H2. destruct H2 as [E2 H2].
  apply N.eqb_eq in E1. apply N.eqb_eq in E2.
  rewrite <- E1, <- E2, N.eqb_refl. simpl. exact (IH _ _ H1 H2).
Qed.

End MatcherFacts.

(** * Properties of the converter *)

Lemma all_kinds (k : kind) : In k kinds.
Proof. destruct k; simpl; tauto. Qed.

Lemma prefix_starts (k : kind) (t : jsstring) :
  test (prefix_re k) t = true -> starts_ci (keyword k) t = true.
Proof.
  intros H. apply test_bol in H. destruct H as [res H].
  exact (word_ci_starts _ _ _ _ _ _ H).
Qed.

(** At most one type prefix is recognised. *)
Lemma prefix_exclusive (k1 k2 : kind) (t : jsstring) :
  test (prefix_re k1) t = true -> test (prefix_re k2) t = true -> k1 = k2.
Proof.
  intros H1 H2. apply prefix_starts in H1. apply prefix_starts in H2.
  pose proof (starts_ci_compatible _ _ _ H1 H2) as C.
  destruct k1, k2; try reflexivity; vm_compute in C; discriminate.
Qed.

Lemma rmatch_seq (r1 r2 : regex) i s c (k : cont) :
  rmatch (Seq r1 r2) i s c k
  = rmatch r1 i s c (fun j s' c' => rmatch r2 j s' c' k).
Proof. reflexivity. Qed.

Lemma rmatch_group (n : nat) (r : regex) i s c (k : cont) :
  rmatch (Group n r) i s c k
  = rmatch r i s c (fun j s' c' => k j s' ((n, firstn (j - i) s) :: c')).
Proof. reflexivity. Qed.

Lemma rmatch_chr (p : char -> bool) i s c (k : cont) res :
  rmatch (Chr p) i s c k = Some res ->
  exists x s', s = x :: s' /\ p x = true /\ k (S i) s' c = Some res.
Proof.
  simpl. destruct s as [|x s']; [discriminate|].
  destruct (p x) eqn:E; [|discriminate].
  intros H. exists x, s'. auto.
Qed.

(** The body captured by [/KEYWORD\s*\((.*?)\)/i] is shorter than the
    text it is taken from. *)
Lemma body_capture_shorter (k : kind) (t : jsstring) (c : caps) :
  exec (body_re k) t = Some c ->
  exists b, group 1 c = Some b /\ length b < length t.
Proof.
  unfold exec. destruct (search (body_re k) 0 t) as [[[e se] c0]|] eqn:E;
    [|discriminate].
  intros H. inversion H; subst c0. clear H.
  apply search_matches in E. destruct E as (i & s & H & L).
  unfold body_re in H.
  rewrite rmatch_seq in H.
  apply rmatch_calls_continuation in H. destruct H as (j1 & s1 & c1 & H & L1).
  rewrite rmatch_seq in H.
  apply rmatch_calls_continuation in H. destruct H as (j2 & s2 & c2 & H & L2).
  rewrite rmatch_seq in H.
  apply rmatch_chr in H. destruct H as (x & s3 & E3 & _ & H). subst s2.
  rewrite rmatch_seq, rmatch_group in H.
  apply rmatch_calls_continuation in H. destruct H as (j4 & s4 & c4 & H & L4).
  apply rmatch_chr in H. destruct H as (y & s5 & _ & _ & H).
  unfold accept in H. inversion H; subst.
  eexists. split.
  - simpl. reflexivity.
  - rewrite length_firstn. simpl in L2. lia.
Qed.

Lemma trimStart_length (s : jsstring) : length (trimStart s) <= length s.
Proof.
  induction s as [|x s IH]; simpl; [lia|].
  destruct (isWhiteSpace x); simpl; lia.
Qed.

Lemma trim_length (s : jsstring) : length (trim s) <= length s.
Proof.
  unfold trim, trimEnd. rewrite length_rev.
  etransitivity; [apply trimStart_length|].
  rewrite length_rev. apply trimStart_length.
Qed.

(** ** The scan of a collection body *)

Lemma collect_scan (self : jsstring -> outcome geometry) (n : nat) :
  (forall w, length w <= n -> self w <> OutOfFuel) ->
  forall rev_chars depth current found,
    length rev_chars + length current <= n ->
    collect self rev_chars depth current (conversions self found)
    = Returns (conversions self (scan rev_chars depth current found)).
Proof.
  intros T. induction rev_chars as [|ch rest IH];
    intros depth current found L; [reflexivity|].
  simpl in L. cbn [collect scan]. cbv zeta.
  destruct ((_ =? 0)%Z && nonempty (trim (ch :: current))) eqn:E.
  - pose proof (trim_length (ch :: current)) as TL. simpl in TL.
    assert (NF : self (trim (ch :: current)) <> OutOfFuel)
      by (apply T; lia).
    destruct (self (trim (ch :: current))) as [g | m |] eqn:S.
    + rewrite <- IH by (simpl; lia).
      unfold conversions at 2. cbn [flat_map]. rewrite S. reflexivity.
    + rewrite <- IH by (simpl; lia).
      unfold conversions at 2. cbn [flat_map]. rewrite S. reflexivity.
    + contradiction.
  - apply IH. simpl. lia.
Qed.

Lemma scan_length (n : nat) :
  forall rev_chars depth current found,
    length rev_chars + length current <= n ->
    Forall (fun w => length w <= n) found ->
    Forall (fun w => length w <= n) (scan rev_chars depth current found).
Proof.
  induction rev_chars as [|ch rest IH]; intros depth current found L F;
    [exact F|].
  simpl in L. cbn [scan]. cbv zeta.
  destruct ((_ =? 0)%Z && nonempty (trim (ch :: current))).
  - apply IH; [simpl; lia|]. constructor; [|exact F].
    pose proof (trim_length (ch :: current)) as TL. simpl in TL. lia.
  - apply IH; [simpl; lia | exact F].
Qed.

Lemma conversions_agree (self1 self2 : jsstring -> outcome geometry)
  (n : nat) (l : list jsstring) :
  (forall w, length w <= n -> self1 w = self2 w) ->
  Forall (fun w => length w <= n) l ->
  conversions self1 l = conversions self2 l.
Proof.
  intros A F. induction F as [|w l Hw F IH]; [reflexivity|].
  unfold conversions in *. cbn [flat_map]. rewrite IH, (A w Hw). reflexivity.
Qed.

(** ** The chain of branches *)

Lemma branches_none (self : jsstring -> outcome geometry) (t : jsstring) :
  forall ks,
    (forall k, In k ks ->
       test (prefix_re k) t = false \/ exec (extract_re k) t = None) ->
    branches self ks t = Throws unsupported_wkt.
Proof.
  induction ks as [|k ks IH]; intros H; [reflexivity|].
  cbn [branches].
  destruct (H k (or_introl eq_refl)) as [E | E]; rewrite E.
  - apply IH. intros k' I. apply H. right. exact I.
  - destruct (test (prefix_re k) t); apply IH; intros k' I; apply H;
      right; exact I.
Qed.

Lemma branches_some (self : jsstring -> outcome geometry) (t : jsstring)
  (k : kind) (c : caps) :
  test (prefix_re k) t = true ->
  exec (extract_re k) t = Some c ->
  forall ks, In k ks -> branches self ks t = build self k c.
Proof.
  intros P E. induction ks as [|k' ks IH]; intros I; [contradiction|].
  cbn [branches]. destruct (test (prefix_re k') t) eqn:P'.
  - rewrite (prefix_exclusive _ _ _ P' P), E. reflexivity.
  - destruct I as [-> | I]; [congruence | exact (IH I)].
Qed.

(** Either no branch applies and the final [throw] is reached, or the
    result is that of the one branch whose two patterns match. *)
Lemma branches_cases (self : jsstring -> outcome geometry) (t : jsstring) :
  forall ks,
    (branches self ks t = Throws unsupported_wkt
     /\ forall k, In k ks ->
          test (prefix_re k) t = false \/ exec (extract_re k) t = None)
    \/ (exists k c, In k ks /\ test (prefix_re k) t = true
                    /\ exec (extract_re k) t = Some c
                    /\ branches self ks t = build self k c).
Proof.
  induction ks as [|k ks IH].
  - left. split; [reflexivity | contradiction].
  - cbn [branches]. destruct (test (prefix_re k) t) eqn:P.
    + destruct (exec (extract_re k) t) as [c|] eqn:E.
      * right. exists k, c. simpl. auto.
      * destruct IH as [[B N] | (k' & c & I & P' & E' & B)].
        -- left. split; [exact B|]. intros k' [<- | I]; auto.
        -- right. exists k', c. simpl. auto.
    + destruct IH as [[B N] | (k' & c & I & P' & E' & B)].
      * left. split; [exact B|]. intros k' [<- | I]; auto.
      * right. exists k', c. simpl. auto.
Qed.

Lemma build_collection (self : jsstring -> outcome geometry) (c : caps) :
  (forall w, length w <= length (cap 1 c) -> self w <> OutOfFuel) ->
  build self KGeometryCollection c
  = Returns (GeometryCollection (conversions self (sub_expressions (cap 1 c)))).
Proof.
  intros T. cbn [build].
  change (@nil geometry) with (conversions self []).
  rewrite (collect_scan self T); [reflexivity|].
  rewrite length_rev. simpl. lia.
Qed.

Lemma sub_expressions_length (body : jsstring) :
  Forall (fun w => length w <= length body) (sub_expressions body).
Proof.
  apply scan_length; [|constructor]. rewrite length_rev. simpl. lia.
Qed.

(** A branch never throws by itself. *)
Lemma build_never_throws (self : jsstring -> outcome geometry) (k : kind)
  (c : caps) (m : jsstring) :
  build self k c <> Throws m.
Proof.
  destruct k; cbn [build]; try discriminate.
  generalize (@nil geometry) at 1. generalize (@nil char). generalize 0%Z.
  induction (rev (cap 1 c)) as [|ch rest IH]; intros depth current geoms.
  - discriminate.
  - cbn [collect]. cbv zeta.
    destruct ((_ =? 0)%Z && nonempty (trim (ch :: current))).
    + destruct (self (trim (ch :: current))).
      * apply IH.
      * apply IH.
      * discriminate.
    + apply IH.
Qed.

Lemma rethrow_fuel {A} (p : jsstring) (o : outcome A) :
  o <> OutOfFuel -> rethrow p o <> OutOfFuel.
Proof. destruct o; simpl; congruence. Qed.

(** ** Fuel *)

Lemma branches_stable (self1 self2 : jsstring -> outcome geometry)
  (t : jsstring) :
  (forall w, length w < length t ->
     self1 w = self2 w /\ self1 w <> OutOfFuel) ->
  branches self1 kinds t = branches self2 kinds t
  /\ branches self1 kinds t <> OutOfFuel.
Proof.
  intros A.
  destruct (branches_cases self1 t kinds) as [[B N] | (k & c & I & P & E & B)].
  - rewrite B, (branches_none self2 t kinds N).
    split; [reflexivity | discriminate].
  - rewrite B, (branches_some self2 t k P E kinds I).
    destruct k; cbn [build]; try (split; [reflexivity | discriminate]).
    destruct (body_capture_shorter _ _ E) as (b & G & L).
    assert (Cb : cap 1 c = b) by (unfold cap; rewrite G; reflexivity).
    fold (build self1 KGeometryCollection c).
    fold (build self2 KGeometryCollection c).
    rewrite !build_collection.
    + split; [|discriminate]. do 2 f_equal.
      apply conversions_agree with (n := length (cap 1 c)).
      * intros w Lw. apply A. rewrite Cb in Lw. lia.
      * apply sub_expressions_length.
    + intros w Lw. rewrite Cb in Lw.
      destruct (A w) as [<- NF]; [lia | exact NF].
    + intros w Lw. rewrite Cb in Lw. apply A. lia.
Qed.

Lemma fuel_enough_aux (n : nat) :
  forall m w, m <= n -> length w < m ->
    wktToGeoJSON_fuel m w = wktToGeoJSONExtended w
    /\ wktToGeoJSON_fuel m w <> OutOfFuel.
Proof.
  induction n as [|n IH]; intros m w Lm Lw; [lia|].
  destruct m as [|m]; [lia|].
  unfold wktToGeoJSONExtended. cbn [wktToGeoJSON_fuel].
  pose proof (trim_length w) as TL.
  destruct (branches_stable (wktToGeoJSON_fuel m)
              (wktToGeoJSON_fuel (length w)) (trim w)) as [E NF].
  - intros w' L'.
    destruct (IH m w') as [E1 N1]; [lia | lia |].
    destruct (IH (length w) w') as [E2 N2]; [lia | lia |].
    split; [congruence | exact N1].
  - rewrite E. split; [reflexivity|].
    apply rethrow_fuel. rewrite <- E. exact NF.
Qed.

(** With more fuel than the text is long, the result no longer depends on
    the fuel, and the recursion is never cut off. *)
Lemma fuel_enough (n : nat) (w : jsstring) :
  length w < n ->
  wktToGeoJSON_fuel n w = wktToGeoJSONExtended w.
Proof. intros L. apply (fuel_enough_aux (n := n)); [lia | exact L]. Qed.

(** The converter always returns or throws. *)
Theorem wktToGeoJSONExtended_total (w : jsstring) :
  wktToGeoJSONExtended w <> OutOfFuel.
Proof.
  unfold wktToGeoJSONExtended.
  apply (fuel_enough_aux (n := S (length w))); lia.
Qed.

(** * Errors of the converter *)

(** C8: wktToGeoJSONExtended throws exactly when the trimmed input has no
    supported type prefix, or has one whose extraction pattern finds no
    match; the error then wraps the cause in a message that begins with
    "Invalid WKT format"; the unbalanced "POLYGON(1 2, 3 4" is such an
    input and gives no geometry. *)
Theorem throws_exactly_when_no_branch_matches (wkt : jsstring) :
  ((exists msg, wktToGeoJSONExtended wkt = Throws msg)
   <-> ((forall k, test (prefix_re k) (trim wkt) = false)
        \/ (exists k, test (prefix_re k) (trim wkt) = true
                      /\ exec (extract_re k) (trim wkt) = None)))
  /\ (forall msg, wktToGeoJSONExtended wkt = Throws msg ->
        msg = invalid_wkt_message
        /\ starts_with (js "Invalid WKT format") msg = true)
  /\ wktToGeoJSONExtended (js "POLYGON(1 2, 3 4") = Throws invalid_wkt_message.
Proof.
  assert (Shape : forall msg, wktToGeoJSONExtended wkt = Throws msg ->
            msg = invalid_wkt_message
            /\ forall k, test (prefix_re k) (trim wkt) = false
                         \/ exec (extract_re k) (trim wkt) = None).
  { intros msg H. unfold wktToGeoJSONExtended in H.
    cbn [wktToGeoJSON_fuel] in H.
    destruct (branches_cases (wktToGeoJSON_fuel (length wkt)) (trim wkt) kinds)
      as [[B N] | (k & c & I & P & E & B)]; rewrite B in H.
    - simpl in H. inversion H. split; [reflexivity|].
      intros k. apply N, all_kinds.
    - exfalso. destruct (build _ k c) eqn:Bd; simpl in H; try discriminate.
      exact (build_never_throws _ _ _ Bd). }
  split; [split|split].
  - intros [msg H]. destruct (Shape msg H) as [_ N].
    destruct (existsb (fun k => test (prefix_re k) (trim wkt)) kinds) eqn:X.
    + right. apply existsb_exists in X. destruct X as (k & _ & P).
      exists k. split; [exact P|].
      destruct (N k) as [F | E]; [congruence | exact E].
    + left. intros k.
      destruct (test (prefix_re k) (trim wkt)) eqn:P; [|reflexivity].
      assert (Y : existsb (fun k => test (prefix_re k) (trim wkt)) kinds = true)
        by (apply existsb_exists; exists k; split; [apply all_kinds | exact P]).
      congruence.
  - intros C. exists invalid_wkt_message.
    unfold wktToGeoJSONExtended. cbn [wktToGeoJSON_fuel].
    rewrite branches_none; [reflexivity|].
    intros k _. destruct C as [A | (k0 & P & E)]; [left; apply A|].
    destruct (test (prefix_re k) (trim wkt)) eqn:Pk; [|left; reflexivity].
    right. rewrite (prefix_exclusive _ _ _ Pk P). exact E.
  - intros msg H. destruct (Shape msg H) as [-> _].
    split; reflexivity.
  - vm_compute. reflexivity.
Qed.

(** * Collections *)

(** The throw of the collection branch: "GEOMETRYCOLLECTION(" is
    recognised by the collection prefix, the extraction pattern finds no
    closing parenthesis, and the conversion throws as for any other
    type. *)
Example collection_prefix_can_throw :
  test (prefix_re KGeometryCollection) (trim open_collection) = true
  /\ wktToGeoJSONExtended open_collection = Throws invalid_wkt_message.
Proof. split; vm_compute; reflexivity. Qed.

(** The result of the collection branch. *)
Lemma collection_result (wkt : jsstring) (c : caps) :
  test (prefix_re KGeometryCollection) (trim wkt) = true ->
  exec (extract_re KGeometryCollection) (trim wkt) = Some c ->
  wktToGeoJSONExtended wkt
  = Returns (GeometryCollection
               (conversions wktToGeoJSONExtended (sub_expressions (cap 1 c)))).
Proof.
  intros P E.
  destruct (body_capture_shorter _ _ E) as (b & G & L).
  assert (Cb : cap 1 c = b) by (unfold cap; rewrite G; reflexivity).
  pose proof (trim_length wkt) as TL.
  unfold wktToGeoJSONExtended at 1. cbn [wktToGeoJSON_fuel].
  rewrite (branches_some _ _ _ P E kinds (all_kinds _)).
  rewrite build_collection.
  - cbn [rethrow]. do 2 f_equal.
    apply conversions_agree with (n := length (cap 1 c)).
    + intros w Lw. apply fuel_enough. rewrite Cb in Lw. lia.
    + apply sub_expressions_length.
  - intros w Lw. rewrite Cb in Lw.
    rewrite fuel_enough by lia. apply wktToGeoJSONExtended_total.
Qed.

(** C4 fails in the code: the members of a well-formed collection never
    reach the result.  "POINT(1 2)" and "POINT(3 4)" are each converted
    when given alone, yet "GEOMETRYCOLLECTION(POINT(1 2), POINT(3 4))" and
    "GEOMETRYCOLLECTION(POINT(1 2))" are converted to a GeometryCollection
    without any member, where the claim has the conversions of both, and of
    the one.  The lazy pattern of the body ends at the first closing
    parenthesis: the captured body is "POINT(1 2", in which the scan from
    the right finds, at depth zero, only the single characters "2" and "1",
    and neither is a geometry. *)
Theorem collection_loses_well_formed_members :
  wktToGeoJSONExtended (js "POINT(1 2)")
  = Returns (Point (dec 2 0, dec 1 0))
  /\ wktToGeoJSONExtended (js "POINT(3 4)")
     = Returns (Point (dec 4 0, dec 3 0))
  /\ wktToGeoJSONExtended (js "GEOMETRYCOLLECTION(POINT(1 2), POINT(3 4))")
     = Returns (GeometryCollection [])
  /\ wktToGeoJSONExtended small_collection = Returns (GeometryCollection [])
  /\ exec (extract_re KGeometryCollection)
       (js "GEOMETRYCOLLECTION(POINT(1 2), POINT(3 4))")
     = Some [(1, js "POINT(1 2")]
  /\ sub_expressions (js "POINT(1 2") = [js "1"; js "2"].
Proof. repeat split; vm_compute; reflexivity. Qed.

(** * Line numbers of computeLineDiff *)

Section LineNumbers.

Lemma numbering_snoc (n : nat) :
  numbering (S n) = numbering n ++ [Some (Z.of_nat (S n))].
Proof.
  unfold numbering. rewrite seq_S, map_app. reflexivity.
Qed.

Lemma numbers_snoc_keep (f : DiffLine -> bool) (g : DiffLine -> option Z)
  (rs : list DiffLine) (r : DiffLine) :
  f r = true ->
  map g (filter f (rs ++ [r])) = map g (filter f rs) ++ [g r].
Proof.
  intros E. rewrite filter_app, map_app. simpl. rewrite E. reflexivity.
Qed.

Lemma numbers_snoc_drop (f : DiffLine -> bool) (g : DiffLine -> option Z)
  (rs : list DiffLine) (r : DiffLine) :
  f r = false ->
  map g (filter f (rs ++ [r])) = map g (filter f rs).
Proof.
  intros E. rewrite filter_app, map_app. simpl. rewrite E.
  apply app_nil_r.
Qed.

Lemma counted_snoc (l : list (option Z)) (z : Z) :
  l = numbering (length l) ->
  z = Z.of_nat (S (length l)) ->
  l ++ [Some z] = numbering (length (l ++ [Some z])).
Proof.
  intros C ->. rewrite length_app. simpl.
  replace (length l + 1) with (S (length l)) by lia.
  rewrite numbering_snoc, <- C. reflexivity.
Qed.

Lemma push_line_numbered (operation : Z) (line : jsstring) (st : line_state) :
  numbered st -> numbered (push_line operation line st).
Proof.
  intros [OC ON NC NN SO]. unfold push_line.
  destruct (change_of operation); constructor;
    cbn [results oldLineNum newLineNum];
    unfold old_numbers, new_numbers in *;
    repeat first
      [ rewrite numbers_snoc_keep by reflexivity
      | rewrite numbers_snoc_drop by reflexivity ];
    cbn [oldLineNumber newLineNumber];
    try assumption;
    try (apply counted_snoc; assumption);
    try (rewrite length_app; simpl; lia);
    try (apply Forall_app; split; [assumption|];
         constructor; [|constructor]; split; simpl; congruence).
Qed.

Lemma lineDiff_lines_numbered (operation : Z) (lines : list jsstring) :
  forall st, numbered st -> numbered (lineDiff_lines operation lines st).
Proof.
  induction lines as [|line rest IH]; intros st N; [exact N|].
  cbn [lineDiff_lines]. cbv zeta. apply IH.
  destruct (negb (is_last rest) || nonempty line);
    [apply push_line_numbered|]; exact N.
Qed.

Lemma fold_numbered (diffs : list Diff) :
  forall st,
    numbered st ->
    numbered
      (fold_left
         (fun st d => lineDiff_lines (fst d) (split_char LF (snd d)) st)
         diffs st).
Proof.
  induction diffs as [|d diffs IH]; intros st N; [exact N|].
  simpl. apply IH, lineDiff_lines_numbered, N.
Qed.

Lemma lineDiff_of_numbered (diffs : list Diff) :
  let rs := lineDiff_of diffs in
  old_numbers rs = numbering (length (old_numbers rs))
  /\ new_numbers rs = numbering (length (new_numbers rs))
  /\ Forall sides_ok rs.
Proof.
  unfold lineDiff_of.
  destruct (fold_numbered diffs
              (st := {| results := []; oldLineNum := 1; newLineNum := 1 |}))
    as [OC _ NC _ SO].
  - constructor; simpl; try reflexivity. constructor.
  - auto.
Qed.

(** C10: whatever the two texts (and whatever the diff that the library
    computes for them), in the records of computeLineDiff the
    oldLineNumber fields of the removed and unchanged records read 1, 2,
    3, ... in output order, the newLineNumber fields of the added and
    unchanged records likewise, an added record has no oldLineNumber and a
    removed record has no newLineNumber. *)
Theorem line_numbers_are_consecutive (dmp : DiffMatchPatch)
  (oldText newText : jsstring) :
  let rs := computeLineDiff dmp oldText newText in
  old_numbers rs = numbering (length (old_numbers rs))
  /\ new_numbers rs = numbering (length (new_numbers rs))
  /\ Forall (fun r =>
               (dl_type r = added -> oldLineNumber r = None)
               /\ (dl_type r = removed -> newLineNumber r = None)) rs.
Proof. exact (lineDiff_of_numbered (diffLineMode dmp oldText newText)). Qed.

End LineNumbers.

(** * What a collection can hold

    The body that the collection pattern captures ends before the first
    closing parenthesis.  The scan therefore never sees a balanced member:
    it hands single characters to the recursive call, which rejects them
    all. *)

Section CollectionBody.

Lemma close_group_capture i0 s0 pre i s c res :
  s0 = pre ++ s -> i - i0 = length pre ->
  close_group i0 s0 i s c = Some res ->
  group 1 (snd res) = Some pre.
Proof.
  intros -> Li H. unfold close_group in H.
  apply rmatch_chr in H. destruct H as (x & s' & _ & _ & H).
  unfold accept in H. inversion H. subst res. simpl.
  rewrite Li, firstn_app, Nat.sub_diag, firstn_all. simpl.
  rewrite app_nil_r. reflexivity.
Qed.

Lemma lazy_dots_stop_at_rparen (fuel : nat) :
  forall i0 s0 pre i s c res,
    s0 = pre ++ s -> i0 <= i -> i - i0 = length pre ->
    no_rparen pre = true ->
    star_loop false (rmatch dot) (close_group i0 s0) fuel i s c = Some res ->
    exists b, group 1 (snd res) = Some b /\ no_rparen b = true.
Proof.
  induction fuel as [|f IH]; intros i0 s0 pre i s c res E0 Li Lp NP H.
  - exists pre. split; [|exact NP].
    eapply close_group_capture; [exact E0 | exact Lp | exact H].
  - cbn [star_loop] in H. cbv zeta in H. unfold orelse in H.
    destruct (close_group i0 s0 i s c) as [r0|] eqn:K.
    + inversion H; subst r0. exists pre. split; [|exact NP].
      eapply close_group_capture; [exact E0 | exact Lp | exact K].
    + apply rmatch_chr in H. destruct H as (x & s' & Es & _ & H). subst s.
      assert (Nx : N.eqb rparen x = false).
      { unfold close_group, lit in K. cbn [rmatch] in K.
        destruct (N.eqb rparen x); [discriminate | reflexivity]. }
      destruct (Nat.eqb (S i) i) eqn:Ei;
        [apply Nat.eqb_eq in Ei; lia|].
      apply (IH i0 s0 (pre ++ [x]) (S i) s' c res).
      * rewrite <- app_assoc. exact E0.
      * lia.
      * rewrite length_app. cbn [length]. lia.
      * unfold no_rparen. rewrite forallb_app.
        apply andb_true_intro. split; [exact NP|].
        cbn [forallb]. rewrite N.eqb_sym, Nx. reflexivity.
      * exact H.
Qed.

Lemma body_capture_no_rparen (k : kind) (t : jsstring) (c : caps) :
  exec (body_re k) t = Some c -> no_rparen (cap 1 c) = true.
Proof.
  unfold exec. destruct (search (body_re k) 0 t) as [[[e se] c0]|] eqn:E;
    [|discriminate].
  intros H. inversion H; subst c0. clear H.
  apply search_matches in E. destruct E as (i & s & H & _).
  unfold body_re in H.
  rewrite rmatch_seq in H.
  apply rmatch_calls_continuation in H. destruct H as (j1 & s1 & c1 & H & _).
  rewrite rmatch_seq in H.
  apply rmatch_calls_continuation in H. destruct H as (j2 & s2 & c2 & H & _).
  rewrite rmatch_seq in H.
  apply rmatch_chr in H. destruct H as (x & s3 & _ & _ & H).
  rewrite rmatch_seq, rmatch_group in H.
  change (rmatch (Star false dot) (S j2) s3 c2
            (close_group (S j2) s3) = Some (e, se, c)) in H.
  cbn [rmatch] in H.
  destruct (@lazy_dots_stop_at_rparen (S (length s3)) (S j2) s3 []
              (S j2) s3 c2 (e, se, c) eq_refl (le_n _) (Nat.sub_diag _)
              eq_refl H)
    as (b & G & NB).
  unfold cap. simpl in G. rewrite G. exact NB.
Qed.

Lemma trimStart_all_ws (l : jsstring) :
  forallb isWhiteSpace l = true -> trimStart l = [].
Proof.
  induction l as [|x l IH]; [reflexivity|]. simpl.
  intros H. apply andb_prop in H. destruct H as [Hx Hl].
  rewrite Hx. exact (IH Hl).
Qed.

Lemma trimStart_app_ws (l r : jsstring) :
  forallb isWhiteSpace l = true -> trimStart (l ++ r) = trimStart r.
Proof.
  induction l as [|x l IH]; [reflexivity|]. simpl.
  intros H. apply andb_prop in H. destruct H as [Hx Hl].
  rewrite Hx. exact (IH Hl).
Qed.

Lemma forallb_rev_ws (l : jsstring) :
  forallb isWhiteSpace l = true -> forallb isWhiteSpace (rev l) = true.
Proof.
  intros H. apply forallb_forall. intros x I.
  apply in_rev in I. revert x I. apply forallb_forall. exact H.
Qed.

Lemma trim_all_ws (l : jsstring) :
  forallb isWhiteSpace l = true -> trim l = [].
Proof.
  intros H. unfold trim, trimEnd. rewrite (trimStart_all_ws l H). reflexivity.
Qed.

Lemma trim_head (ch : char) (l : jsstring) :
  isWhiteSpace ch = false -> forallb isWhiteSpace l = true ->
  trim (ch :: l) = [ch].
Proof.
  intros Hc Hl. unfold trim, trimEnd.
  cbn [trimStart]. rewrite Hc. cbn [rev].
  rewrite (trimStart_app_ws _ _ (forallb_rev_ws _ Hl)).
  cbn [trimStart]. rewrite Hc. reflexivity.
Qed.

(** Without a closing parenthesis the depth never rises back to zero, and
    at depth zero every character that is not white space is handed over
    alone. *)
Lemma scan_singletons :
  forall rev_chars depth current found,
    no_rparen rev_chars = true ->
    (depth <= 0)%Z ->
    (depth = 0%Z -> forallb isWhiteSpace current = true) ->
    Forall (fun w => length w = 1) found ->
    Forall (fun w => length w = 1) (scan rev_chars depth current found).
Proof.
  induction rev_chars as [|ch rest IH]; intros depth current found NR D W F;
    [exact F|].
  unfold no_rparen in NR. cbn [forallb] in NR.
  apply andb_prop in NR. destruct NR as [Nc NR].
  apply negb_true_iff in Nc.
  cbn [scan]. cbv zeta. rewrite Nc.
  destruct (N.eqb ch lparen) eqn:Lp.
  - replace ((depth - 1 =? 0)%Z) with false
      by (symmetry; apply Z.eqb_neq; lia).
    cbn [andb]. apply IH; [exact NR | lia | intros; lia | exact F].
  - destruct (depth =? 0)%Z eqn:D0; cbn [andb].
    + apply Z.eqb_eq in D0. specialize (W D0).
      destruct (isWhiteSpace ch) eqn:Wc.
      * rewrite trim_all_ws by (simpl; rewrite Wc; exact W).
        cbn [nonempty].
        apply IH; [exact NR | exact D | | exact F].
        intros _. simpl. rewrite Wc. exact W.
      * rewrite (trim_head _ _ Wc W). cbn [nonempty].
        apply IH; [exact NR | exact D | reflexivity |].
        constructor; [reflexivity | exact F].
    + apply Z.eqb_neq in D0.
      apply IH; [exact NR | exact D | intros; lia | exact F].
Qed.

Lemma starts_ci_length (w : jsstring) :
  forall s, starts_ci w s = true -> length w <= length s.
Proof.
  induction w as [|x w IH]; intros s H; [simpl; lia|].
  destruct s as [|y s]; [discriminate|]. simpl in *.
  apply andb_prop in H. destruct H as [_ H]. apply IH in H. lia.
Qed.

Lemma short_text_throws (w : jsstring) :
  length w <= 1 -> wktToGeoJSONExtended w = Throws invalid_wkt_message.
Proof.
  intros L. unfold wktToGeoJSONExtended. cbn [wktToGeoJSON_fuel].
  rewrite branches_none; [reflexivity|].
  intros k _. left.
  destruct (test (prefix_re k) (trim w)) eqn:P; [|reflexivity].
  apply prefix_starts, starts_ci_length in P.
  pose proof (trim_length w) as TL.
  destruct k; simpl in P; lia.
Qed.

Lemma conversions_of_singletons (l : list jsstring) :
  Forall (fun w => length w = 1) l ->
  conversions wktToGeoJSONExtended l = [].
Proof.
  intros F. induction F as [|w l Hw F IH]; [reflexivity|].
  unfold conversions in *. cbn [flat_map].
  rewrite short_text_throws by lia. exact IH.
Qed.

(** Whatever the input, a collection that the converter returns is
    empty. *)
Theorem returned_collection_is_empty (wkt : jsstring) (gs : list geometry) :
  wktToGeoJSONExtended wkt = Returns (GeometryCollection gs) -> gs = [].
Proof.
  intros H.
  assert (B : exists c,
             test (prefix_re KGeometryCollection) (trim wkt) = true
             /\ exec (extract_re KGeometryCollection) (trim wkt) = Some c).
  { unfold wktToGeoJSONExtended in H. cbn [wktToGeoJSON_fuel] in H.
    destruct (branches_cases (wktToGeoJSON_fuel (length wkt)) (trim wkt) kinds)
      as [[B N] | (k & c & I & P & E & B)]; rewrite B in H;
      [discriminate|].
    destruct k; try (cbn in H; discriminate).
    exists c. auto. }
  destruct B as (c & P & E).
  rewrite (collection_result wkt P E) in H. inversion H.
  apply conversions_of_singletons.
  apply scan_singletons; try lia; try reflexivity; [|constructor].
  unfold no_rparen. apply forallb_forall. intros x I.
  apply in_rev in I. revert x I. apply forallb_forall.
  exact (body_capture_no_rparen _ _ E).
Qed.

End CollectionBody.

(** * The order of the two numbers of a token *)

Section Tokens.

Lemma spaces_fail_on_token_char (q : nat) (ch : char) (s : jsstring) :
  isWhiteSpace ch = false ->
  rmatch spaces_re q (ch :: s) [] accept = None.
Proof.
  intros H. unfold spaces_re, Plus, ws. cbn [rmatch]. rewrite H. reflexivity.
Qed.

Lemma split_skips_token (run : jsstring) :
  forall rest fuel p sp q acc,
    forallb (fun ch => negb (isWhiteSpace ch)) run = true ->
    length run <= fuel ->
    split_loop fuel spaces_re p sp q (run ++ rest) acc
    = split_loop (fuel - length run) spaces_re p sp (q + length run) rest acc.
Proof.
  induction run as [|ch run IH]; intros rest fuel p sp q acc W L.
  - simpl. rewrite Nat.sub_0_r, Nat.add_0_r. reflexivity.
  - cbn [forallb] in W. apply andb_prop in W. destruct W as [Wc W].
    apply negb_true_iff in Wc.
    destruct fuel as [|fuel]; [simpl in L; lia|].
    cbn [split_loop app]. rewrite spaces_fail_on_token_char by exact Wc.
    rewrite IH by (try exact W; simpl in L; lia).
    cbn [length]. f_equal. lia.
Qed.

Lemma spaces_match_one_blank (q : nat) (y : jsstring) :
  token y ->
  rmatch spaces_re q (32%N :: y) [] accept = Some (S q, y, []).
Proof.
  intros [Ny Wy]. destruct y as [|ch y]; [contradiction|].
  cbn [forallb] in Wy. apply andb_prop in Wy. destruct Wy as [Wc _].
  apply negb_true_iff in Wc.
  unfold spaces_re, Plus, ws. cbn [rmatch star_loop length]. cbv zeta.
  rewrite Wc. reflexivity.
Qed.

Lemma split_two_tokens (x y : jsstring) :
  token x -> token y ->
  split spaces_re (x ++ 32%N :: y) = [x; y].
Proof.
  intros Tx Ty. pose proof Tx as [Nx Wx]. pose proof Ty as [Ny Wy].
  unfold split. destruct (x ++ 32%N :: y) as [|c0 s0] eqn:E.
  - destruct x; discriminate.
  - rewrite <- E. clear E.
    rewrite split_skips_token by (try exact Wx; rewrite length_app; simpl; lia).
    remember (2 * length (x ++ 32%N :: y) + 2 - length x) as fuel eqn:Ef.
    assert (Lf : length y + 2 <= fuel)
      by (subst fuel; rewrite length_app; simpl; lia).
    destruct fuel as [|fuel]; [lia|].
    cbn [split_loop]. rewrite spaces_match_one_blank by exact Ty.
    cbn [Nat.add Nat.eqb]. rewrite Nat.sub_0_r, firstn_app, Nat.sub_diag.
    rewrite firstn_all. cbn [firstn]. rewrite app_nil_r.
    rewrite <- (app_nil_r y) at 2.
    rewrite split_skips_token by (try exact Wy; lia).
    destruct (fuel - length y); reflexivity.
Qed.

Lemma trimStart_token (s : jsstring) :
  forallb (fun ch => negb (isWhiteSpace ch)) s = true ->
  forall r,
    trimStart (s ++ r) = match s with [] => trimStart r | _ => s ++ r end.
Proof.
  intros W r. destruct s as [|ch s]; [reflexivity|].
  cbn [forallb] in W. apply andb_prop in W. destruct W as [Wc _].
  apply negb_true_iff in Wc. simpl. rewrite Wc. reflexivity.
Qed.

Lemma trim_two_tokens (x y : jsstring) :
  token x -> token y -> trim (x ++ 32%N :: y) = x ++ 32%N :: y.
Proof.
  intros [Nx Wx] [Ny Wy]. unfold trim, trimEnd.
  rewrite trimStart_token by exact Wx. destruct x as [|cx x]; [contradiction|].
  set (s := (cx :: x) ++ 32%N :: y).
  assert (R : rev s = rev y ++ rev ((cx :: x) ++ [32%N])).
  { unfold s. change (32%N :: y) with ([32%N] ++ y).
    rewrite app_assoc, rev_app_distr. reflexivity. }
  rewrite R, trimStart_token.
  - destruct (rev y) eqn:Ey.
    + apply (f_equal (@rev char)) in Ey. rewrite rev_involutive in Ey.
      simpl in Ey. contradiction.
    + rewrite <- R, rev_involutive. reflexivity.
  - apply forallb_forall. intros c I. apply in_rev in I.
    revert c I. apply forallb_forall. exact Wy.
Qed.

(** For a token written "x y" the parser returns the pair with the number
    read from y first and the one read from x second. *)
Theorem parse_pair_swaps (x y : jsstring) :
  token x -> token y ->
  parse_pair (x ++ js " " ++ y) = (parseFloat y, parseFloat x).
Proof.
  intros Tx Ty. unfold parse_pair. change (js " " ++ y) with (32%N :: y).
  rewrite trim_two_tokens, split_two_tokens by assumption. reflexivity.
Qed.

End Tokens.

Lemma returned_collection_is_empty_witness :
  wktToGeoJSONExtended small_collection = Returns (GeometryCollection [])
  /\ @nil geometry = [].
Proof.
  assert (H : wktToGeoJSONExtended small_collection
              = Returns (GeometryCollection []))
    by (vm_compute; reflexivity).
  split; [exact H|].
  exact (@returned_collection_is_empty small_collection [] H).
Defined.

Lemma parse_pair_swaps_witness :
  parse_pair (js "13.405" ++ js " " ++ js "52.52")
  = (parseFloat (js "52.52"), parseFloat (js "13.405")).
Proof.
  apply (@parse_pair_swaps (js "13.405") (js "52.52"));
    (split; [discriminate | reflexivity]).
Defined.

(** * The converter, without its fuel *)

(** One step of the recursion, as the source has it. *)
Lemma wktToGeoJSONExtended_unfold (w : jsstring) :
  wktToGeoJSONExtended w
  = rethrow invalid_wkt (branches wktToGeoJSONExtended kinds (trim w)).
Proof.
  unfold wktToGeoJSONExtended at 1. cbn [wktToGeoJSON_fuel].
  f_equal. apply branches_stable. intros w' L.
  pose proof (trim_length w) as TL.
  rewrite fuel_enough by lia.
  split; [reflexivity | apply wktToGeoJSONExtended_total].
Qed.

(** ** White space around the text *)

Lemma trimStart_app (w b : jsstring) :
  trimStart (w ++ b)
  = match trimStart w with [] => trimStart b | _ => trimStart w ++ b end.
Proof.
  induction w as [|x w IH]; [reflexivity|]. simpl.
  destruct (isWhiteSpace x); [exact IH | reflexivity].
Qed.

Lemma trimEnd_app_ws (t b : jsstring) :
  forallb isWhiteSpace b = true -> trimEnd (t ++ b) = trimEnd t.
Proof.
  intros Wb. unfold trimEnd. rewrite rev_app_distr.
  rewrite trimStart_app_ws by (apply forallb_rev_ws; exact Wb). reflexivity.
Qed.

Lemma trim_padding (a w b : jsstring) :
  forallb isWhiteSpace a = true -> forallb isWhiteSpace b = true ->
  trim (a ++ w ++ b) = trim w.
Proof.
  intros Wa Wb. unfold trim.
  rewrite trimStart_app_ws by exact Wa. rewrite trimStart_app.
  destruct (trimStart w) as [|x t] eqn:E.
  - rewrite trimStart_all_ws by exact Wb. reflexivity.
  - apply trimEnd_app_ws. exact Wb.
Qed.

(** White space before and after a WKT text changes nothing: the padded
    text is converted to the same geometry, or rejected with the same
    error, as the text itself. *)
Theorem padding_is_ignored (a w b : jsstring) :
  forallb isWhiteSpace a = true -> forallb isWhiteSpace b = true ->
  wktToGeoJSONExtended (a ++ w ++ b) = wktToGeoJSONExtended w.
Proof.
  intros Wa Wb.
  rewrite (wktToGeoJSONExtended_unfold (a ++ w ++ b)).
  rewrite (wktToGeoJSONExtended_unfold w).
  rewrite trim_padding by assumption. reflexivity.
Qed.

Lemma padding_is_ignored_witness :
  forallb isWhiteSpace (js "  ") = true
  /\ forallb isWhiteSpace [LF] = true
  /\ wktToGeoJSONExtended (js "  " ++ berlin_wkt ++ [LF])
     = wktToGeoJSONExtended berlin_wkt.
Proof.
  split; [reflexivity|]. split; [reflexivity|].
  apply (@padding_is_ignored (js "  ") berlin_wkt [LF]); reflexivity.
Defined.

(** ** What a returned geometry looks like *)

Lemma returned_by_branch (w : jsstring) (g : geometry) :
  wktToGeoJSONExtended w = Returns g ->
  exists k c,
    test (prefix_re k) (trim w) = true
    /\ exec (extract_re k) (trim w) = Some c
    /\ build wktToGeoJSONExtended k c = Returns g.
Proof.
  rewrite wktToGeoJSONExtended_unfold. intros H.
  destruct (branches_cases wktToGeoJSONExtended (trim w) kinds)
    as [[B _] | (k & c & _ & P & E & B)]; rewrite B in H.
  - discriminate.
  - exists k, c. split; [exact P|]. split; [exact E|].
    destruct (build wktToGeoJSONExtended k c); simpl in H;
      [exact H | discriminate | discriminate].
Qed.

(** The type of a returned geometry is the one whose keyword starts the
    text: a text is never converted to a geometry of another type than
    the one it names (nor to one of an unsupported type). *)
Theorem returned_type_is_the_prefix (w : jsstring) (g : geometry) :
  wktToGeoJSONExtended w = Returns g ->
  exists k, kind_of g = Some k /\ test (prefix_re k) (trim w) = true.
Proof.
  intros H. apply returned_by_branch in H.
  destruct H as (k & c & P & _ & B). exists k. split; [|exact P].
  destruct k; cbn [build] in B; try (inversion B; reflexivity).
  destruct (collect _ _ _ _ _); inversion B. reflexivity.
Qed.

Lemma returned_type_is_the_prefix_witness :
  wktToGeoJSONExtended line_wkt
  = Returns (LineString [(dec 5252 (-2), dec 13405 (-3));
                         (dec 5253 (-2), dec 1341 (-2))])
  /\ exists k,
       kind_of (LineString [(dec 5252 (-2), dec 13405 (-3));
                            (dec 5253 (-2), dec 1341 (-2))]) = Some k
       /\ test (prefix_re k) (trim line_wkt) = true.
Proof.
  assert (H : wktToGeoJSONExtended line_wkt
              = Returns (LineString [(dec 5252 (-2), dec 13405 (-3));
                                     (dec 5253 (-2), dec 1341 (-2))]))
    by (vm_compute; reflexivity).
  split; [exact H|].
  exact (@returned_type_is_the_prefix line_wkt _ H).
Defined.

Lemma split_char_aux_nonempty (sep : char) (s cur : jsstring) :
  split_char_aux sep cur s <> [].
Proof.
  revert cur. induction s as [|x s IH]; intros cur; simpl; [discriminate|].
  destruct (N.eqb x sep); [discriminate | apply IH].
Qed.

Lemma rev_cons_nonempty {A} (x : A) (l : list A) : rev (x :: l) <> [].
Proof. simpl. destruct (rev l); discriminate. Qed.

Lemma split_loop_nonempty (r : regex) (fuel : nat) :
  forall p sp q sq acc, split_loop fuel r p sp q sq acc <> [].
Proof.
  induction fuel as [|f IH]; intros p sp q sq acc; cbn [split_loop].
  - apply rev_cons_nonempty.
  - destruct sq as [|x sq']; [apply rev_cons_nonempty|].
    destruct (rmatch r q (x :: sq') [] accept) as [[[e se] c]|];
      [|apply IH].
    destruct (Nat.eqb e p); apply IH.
Qed.

Lemma split_nonempty (r : regex) (s : jsstring) :
  rmatch r 0 [] [] accept = None -> split r s <> [].
Proof.
  intros E. unfold split. destruct s as [|x s].
  - rewrite E. discriminate.
  - apply split_loop_nonempty.
Qed.

Lemma map_nonempty {A B} (f : A -> B) (l : list A) :
  l <> [] -> map f l <> [].
Proof. destruct l; [contradiction | discriminate]. Qed.

Lemma parse_points_nonempty (s : jsstring) : parse_points s <> [].
Proof. apply map_nonempty, split_char_aux_nonempty. Qed.

Lemma parse_rings_populated (s : jsstring) :
  parse_rings s <> [] /\ Forall (fun r => r <> []) (parse_rings s).
Proof.
  split.
  - apply map_nonempty, split_nonempty. reflexivity.
  - unfold parse_rings. apply Forall_map, Forall_forall.
    intros ring _. apply parse_points_nonempty.
Qed.

(** No coordinates array of a returned geometry is empty: a LineString or
    MultiPoint has at least one pair, a Polygon or MultiLineString at
    least one ring or line and none of them empty, a MultiPolygon at
    least one polygon, each with rings, each of these with pairs. *)
Theorem returned_arrays_are_not_empty (w : jsstring) (g : geometry) :
  wktToGeoJSONExtended w = Returns g -> populated g.
Proof.
  intros H. apply returned_by_branch in H.
  destruct H as (k & c & _ & _ & B).
  destruct k; cbn [build] in B;
    try (inversion B; subst g; cbn [populated]).
  - exact I.
  - apply parse_points_nonempty.
  - apply parse_rings_populated.
  - apply map_nonempty, split_nonempty. reflexivity.
  - apply parse_rings_populated.
  - split.
    + apply map_nonempty, split_nonempty. reflexivity.
    + unfold parse_polygons. apply Forall_map, Forall_forall.
      intros polygon _. apply parse_rings_populated.
  - destruct (collect _ _ _ _ _); inversion B. exact I.
Qed.

Lemma returned_arrays_are_not_empty_witness :
  wktToGeoJSONExtended (js "POLYGON()")
  = Returns (Polygon [[(NaN, NaN)]])
  /\ populated (Polygon [[(NaN, NaN)]]).
Proof.
  assert (H : wktToGeoJSONExtended (js "POLYGON()")
              = Returns (Polygon [[(NaN, NaN)]]))
    by (vm_compute; reflexivity).
  split; [exact H|].
  exact (@returned_arrays_are_not_empty (js "POLYGON()") _ H).
Defined.

(** * The serializer *)

(** Induction over geometries, through the members of collections. *)
Lemma geometry_nested_ind (P : geometry -> Prop)
  (HPoint : forall c, P (Point c))
  (HLine : forall cs, P (LineString cs))
  (HPoly : forall rs, P (Polygon rs))
  (HMPoint : forall cs, P (MultiPoint cs))
  (HMLine : forall ls, P (MultiLineString ls))
  (HMPoly : forall ps, P (MultiPolygon ps))
  (HColl : forall gs, Forall P gs -> P (GeometryCollection gs))
  (HUnknown : forall ty, P (Unknown ty)) :
  forall g, P g.
Proof.
  fix IH 1. intros [c | cs | rs | cs | ls | ps | gs | ty].
  - apply HPoint.
  - apply HLine.
  - apply HPoly.
  - apply HMPoint.
  - apply HMLine.
  - apply HMPoly.
  - apply HColl. induction gs as [|x l IHl]; constructor.
    + apply IH.
    + exact IHl.
  - apply HUnknown.
Qed.

(** For a geometry object of the shape its type requires:
    geoJSONToWKTExtended returns a text exactly when the object holds no
    object of an unsupported type, at any depth of collections.  Otherwise
    it throws, and the message is that of the first such object, in the
    order of the members: "Unsupported GeoJSON geometry type: " and the
    type, with "Invalid GeoJSON format: " in front once for the object
    itself and once more for every collection it lies in. *)
Theorem serializer_throws_on_unsupported_only (g : geometry) :
  (supported g = true -> exists s, geoJSONToWKTExtended g = Returns s)
  /\ (supported g = false ->
      exists d ty,
        first_unsupported g = Some (d, ty)
        /\ geoJSONToWKTExtended g = Throws (unsupported_message d ty)).
Proof.
  assert (G : (supported g = true ->
               first_unsupported g = None
               /\ exists s, geoJSONToWKTExtended g = Returns s)
              /\ (supported g = false ->
                  exists d ty,
                    first_unsupported g = Some (d, ty)
                    /\ geoJSONToWKTExtended g
                       = Throws (unsupported_message d ty))).
  { induction g as [c | cs | rs | cs | ls | ps | gs IH | ty]
      using geometry_nested_ind;
      try (split; [intros _; split; [reflexivity | eexists; reflexivity]
                  | discriminate]).
    - cbn [geoJSONToWKTExtended supported first_unsupported].
      match goal with
      | |- context [(?each gs)] =>
          lazymatch each with
          | (fix f (l : list geometry) {struct l} : _ := _) =>
              set (E := each)
          end
      end.
      match goal with
      | |- context [first_some ?f gs] => set (F := f)
      end.
      assert (M : (forallb supported gs = true ->
                   first_some F gs = None /\ exists ts, E gs = Returns ts)
                  /\ (forallb supported gs = false ->
                      exists d ty,
                        first_some F gs = Some (S d, ty)
                        /\ E gs = Throws (unsupported_message d ty))).
      { induction IH as [|x l [Hx1 Hx2] _ [IHl1 IHl2]].
        - split; [intros _; split; [reflexivity | eexists; reflexivity]
                 | discriminate].
        - cbn [forallb]. destruct (supported x).
          + destruct (Hx1 eq_refl) as (Fx & t & Ht). split.
            * intros Sp. destruct (IHl1 Sp) as (Fl & ts & Hts). split.
              -- cbn [first_some]. unfold F at 1. rewrite Fx. exact Fl.
              -- exists (t :: ts). cbn. rewrite Ht. fold E. rewrite Hts.
                 reflexivity.
            * intros Sp. destruct (IHl2 Sp) as (d & ty & Fl & Hm).
              exists d, ty. split.
              -- cbn [first_some]. unfold F at 1. rewrite Fx. exact Fl.
              -- cbn. rewrite Ht. fold E. rewrite Hm. reflexivity.
          + destruct (Hx2 eq_refl) as (d & ty & Fx & Hm).
            split; [discriminate|]. intros _. exists d, ty. split.
            * cbn [first_some]. unfold F at 1. rewrite Fx. reflexivity.
            * cbn. rewrite Hm. reflexivity. }
      destruct M as [M1 M2]. split.
      + intros Sp. destruct (M1 Sp) as (Fl & ts & Hts). split; [exact Fl|].
        rewrite Hts. eexists. reflexivity.
      + intros Sp. destruct (M2 Sp) as (d & ty & Fl & Hm).
        exists (S d), ty. split; [exact Fl|]. rewrite Hm.
        cbn [rethrow]. unfold unsupported_message.
        cbn [repeat concat]. rewrite <- !app_assoc. reflexivity.
    - split; [discriminate|]. intros _. exists 0, ty.
      split; reflexivity. }
  destruct G as [G1 G2]. split; [|exact G2].
  intros Sp. destruct (G1 Sp) as [_ R]. exact R.
Qed.

Lemma serializer_throws_on_unsupported_only_witness :
  supported (GeometryCollection [Unknown (js "Circle")]) = false
  /\ exists d ty,
       first_unsupported (GeometryCollection [Unknown (js "Circle")])
       = Some (d, ty)
       /\ geoJSONToWKTExtended (GeometryCollection [Unknown (js "Circle")])
          = Throws (unsupported_message d ty).
Proof.
  split; [reflexivity|].
  apply (proj2 (serializer_throws_on_unsupported_only
                  (GeometryCollection [Unknown (js "Circle")]))).
  reflexivity.
Defined.

(** A collection in a collection: the prefix stands three times, once
    for the object of the unsupported type and once for each of the two
    collections. *)
Example nested_unsupported_message :
  geoJSONToWKTExtended
    (GeometryCollection
       [Point (dec 1 0, dec 2 0);
        GeometryCollection [Unknown (js "Circle")]])
  = Throws (js "Invalid GeoJSON format: Invalid GeoJSON format: "
              ++ js "Invalid GeoJSON format: "
              ++ js "Unsupported GeoJSON geometry type: Circle").
Proof. vm_compute. reflexivity. Qed.

(** * The records of computeDiff and computeLineDiff *)

Section Records.

Variable dmp : DiffMatchPatch.

Lemma join_cons (sep x : jsstring) (l : list jsstring) :
  l <> [] -> join sep (x :: l) = x ++ sep ++ join sep l.
Proof. destruct l; [contradiction | reflexivity]. Qed.

(** Splitting at a character and joining with it gives the text back. *)
Lemma join_split_char_aux (sep : char) (s : jsstring) :
  forall cur, join [sep] (split_char_aux sep cur s) = rev cur ++ s.
Proof.
  induction s as [|x s IH]; intros cur; cbn [split_char_aux].
  - simpl. symmetry. apply app_nil_r.
  - destruct (N.eqb x sep) eqn:E.
    + apply N.eqb_eq in E. subst x.
      rewrite join_cons by apply split_char_aux_nonempty.
      rewrite IH. reflexivity.
    + rewrite IH. simpl. rewrite <- app_assoc. reflexivity.
Qed.

Lemma join_split_char (sep : char) (s : jsstring) :
  join [sep] (split_char sep s) = s.
Proof. apply (join_split_char_aux sep s []). Qed.

Lemma record_text_snoc (c : change) (rs : list DiffResult) (r : DiffResult) :
  record_text c (rs ++ [r])
  = record_text c rs ++ (if change_eqb (dr_type r) c then dr_text r else []).
Proof.
  unfold record_text. rewrite filter_app, map_app, concat_app. f_equal.
  simpl. destruct (change_eqb (dr_type r) c); simpl;
    [apply app_nil_r | reflexivity].
Qed.

Lemma push_result_text (c : change) (operation : Z) (text : jsstring)
  (st : list DiffResult * Z) :
  record_text c (fst (push_result operation text st))
  = record_text c (fst st) ++ chosen c operation text.
Proof.
  destruct st as [rs n]. unfold push_result, chosen.
  destruct (change_of operation); cbn [fst];
    rewrite record_text_snoc; reflexivity.
Qed.

Lemma computeDiff_lines_text (c : change) (operation : Z) :
  forall lines st,
    record_text c (fst (computeDiff_lines operation lines st))
    = record_text c (fst st) ++ chosen c operation (join [LF] lines).
Proof.
  induction lines as [|line rest IH]; intros st.
  - unfold chosen. simpl. destruct (change_eqb _ _);
      symmetry; apply app_nil_r.
  - cbn [computeDiff_lines]. cbv zeta. rewrite IH.
    destruct rest as [|l2 rest].
    + cbn [is_last negb join]. destruct line as [|x line]; cbn [nonempty].
      * unfold chosen. destruct (change_eqb _ _); rewrite !app_nil_r;
          reflexivity.
      * rewrite push_result_text. unfold chosen.
        destruct (change_eqb _ _); rewrite ?app_nil_r; reflexivity.
    + cbn [is_last negb]. rewrite push_result_text.
      rewrite (@join_cons [LF] line (l2 :: rest)) by discriminate.
      unfold chosen.
      destruct (change_eqb _ _); rewrite ?app_nil_r, <- ?app_assoc;
        reflexivity.
Qed.

Lemma tuple_text_cons (c : change) (d : Diff) (diffs : list Diff) :
  tuple_text c (d :: diffs) = chosen c (fst d) (snd d) ++ tuple_text c diffs.
Proof.
  unfold tuple_text, chosen. cbn [filter].
  destruct (change_eqb (change_of (fst d)) c); reflexivity.
Qed.

Lemma computeDiff_fold_text (c : change) (diffs : list Diff) :
  forall st,
    record_text c
      (fst (fold_left
              (fun st d =>
                 computeDiff_lines (fst d) (split_char LF (snd d)) st)
              diffs st))
    = record_text c (fst st) ++ tuple_text c diffs.
Proof.
  induction diffs as [|d diffs IH]; intros st.
  - simpl. symmetry. apply app_nil_r.
  - cbn [fold_left]. rewrite IH, computeDiff_lines_text, join_split_char.
    rewrite tuple_text_cons, app_assoc. reflexivity.
Qed.

(** The texts of the records of one kind, put together, are the texts of
    the tuples of that kind. *)
Lemma computeDiff_record_text (oldText newText : jsstring)
  (m : mode) (c : change) :
  record_text c (computeDiff dmp oldText newText m)
  = tuple_text c (mode_diffs dmp oldText newText m).
Proof.
  unfold computeDiff.
  change (match m with
          | line_mode => diffLineMode dmp oldText newText
          | word_mode =>
              diff_cleanupSemantic dmp (diff_main dmp oldText newText false)
          | char_mode => diff_main dmp oldText newText false
          end) with (mode_diffs dmp oldText newText m).
  rewrite computeDiff_fold_text. reflexivity.
Qed.

Lemma running_snoc (rs : list DiffResult) (r : DiffResult) :
  forall n,
    running n (rs ++ [r])
    = running n rs ++ [(n + Z.of_nat (length (filter is_unchanged rs)))%Z].
Proof.
  induction rs as [|x rs IH]; intros n.
  - simpl. rewrite Z.add_0_r. reflexivity.
  - cbn [app running filter]. rewrite IH. unfold is_unchanged at 2.
    destruct (dr_type x); cbn [change_eqb length];
      first [reflexivity | do 3 f_equal; lia].
Qed.

Lemma push_result_counted (operation : Z) (text : jsstring)
  (st : list DiffResult * Z) :
  counted st -> counted (push_result operation text st).
Proof.
  destruct st as [rs n]. intros [R N]. cbn [fst snd] in *. subst n.
  unfold push_result.
  destruct (change_of operation) eqn:E; constructor; cbn [fst snd];
    rewrite ?map_app, ?running_snoc, ?filter_app, ?length_app, ?R;
    cbn [map lineNumber filter is_unchanged dr_type change_eqb length];
    unfold is_unchanged; cbn [dr_type change_eqb length];
    first [reflexivity | lia | do 2 f_equal; lia | do 3 f_equal; lia].
Qed.

Lemma computeDiff_lines_counted (operation : Z) (lines : list jsstring) :
  forall st, counted st -> counted (computeDiff_lines operation lines st).
Proof.
  induction lines as [|line rest IH]; intros st C; [exact C|].
  cbn [computeDiff_lines]. cbv zeta. apply IH.
  destruct (negb (is_last rest)); [apply push_result_counted; exact C|].
  destruct (nonempty line); [apply push_result_counted|]; exact C.
Qed.

(** The lineNumber of a record of computeDiff is one more than the number
    of unchanged records before it: the counter starts at 1 and only an
    unchanged record moves it on, so added and removed records carry the
    number of the unchanged record that follows them. *)
Theorem computeDiff_numbers_count_unchanged (oldText newText : jsstring)
  (m : mode) :
  map lineNumber (computeDiff dmp oldText newText m)
  = running 1 (computeDiff dmp oldText newText m).
Proof.
  unfold computeDiff.
  generalize (match m with
              | line_mode => diffLineMode dmp oldText newText
              | word_mode =>
                  diff_cleanupSemantic dmp
                    (diff_main dmp oldText newText false)
              | char_mode => diff_main dmp oldText newText false
              end) as diffs.
  intros diffs.
  assert (C : forall st, counted st ->
            counted (fold_left
                       (fun st d =>
                          computeDiff_lines (fst d) (split_char LF (snd d)) st)
                       diffs st)).
  { induction diffs as [|d diffs IH]; intros st C; [exact C|].
    cbn [fold_left]. apply IH, computeDiff_lines_counted, C. }
  apply C. constructor; reflexivity.
Qed.

End Records.

Section LineRecords.

Variable dmp : DiffMatchPatch.

Lemma no_LF_rev (s : jsstring) : no_LF s = true -> no_LF (rev s) = true.
Proof.
  unfold no_LF. intros H. apply forallb_forall. intros x I.
  apply in_rev in I. revert x I. apply forallb_forall. exact H.
Qed.

Lemma split_char_aux_no_LF (s : jsstring) :
  forall cur,
    no_LF cur = true ->
    Forall (fun l => no_LF l = true) (split_char_aux LF cur s).
Proof.
  induction s as [|x s IH]; intros cur C; cbn [split_char_aux].
  - constructor; [apply no_LF_rev; exact C | constructor].
  - destruct (N.eqb x LF) eqn:E.
    + constructor; [apply no_LF_rev; exact C | apply IH; reflexivity].
    + apply IH. unfold no_LF in *. cbn [forallb]. rewrite E. exact C.
Qed.

Lemma kept_lines_incl (lines : list jsstring) :
  incl (kept_lines lines) lines.
Proof.
  induction lines as [|line rest IH]; [apply incl_refl|].
  cbn [kept_lines]. destruct (negb (is_last rest) || nonempty line).
  - apply incl_cons; [left; reflexivity | apply incl_tl, IH].
  - apply incl_tl, IH.
Qed.

Lemma push_line_last (operation : Z) (line : jsstring) (st : line_state) :
  exists r,
    results (push_line operation line st) = results st ++ [r]
    /\ dl_text r = line /\ dl_type r = change_of operation.
Proof.
  unfold push_line. destruct (change_of operation);
    eexists; cbn [results]; split; try reflexivity; split; reflexivity.
Qed.

Lemma lineDiff_lines_results (operation : Z) (lines : list jsstring) :
  forall st,
    exists rs,
      results (lineDiff_lines operation lines st) = results st ++ rs
      /\ map kind_and_text rs
         = map (pair (change_of operation)) (kept_lines lines).
Proof.
  induction lines as [|line rest IH]; intros st.
  - exists []. cbn. rewrite app_nil_r. auto.
  - cbn [lineDiff_lines kept_lines]. cbv zeta.
    destruct (negb (is_last rest) || nonempty line).
    + destruct (push_line_last operation line st) as (r & Hr & Ht & Hc).
      destruct (IH (push_line operation line st)) as (rs & H1 & H2).
      exists (r :: rs). rewrite H1, Hr, <- app_assoc. cbn [map].
      unfold kind_and_text at 1. rewrite Ht, Hc, H2. auto.
    + apply IH.
Qed.

Lemma lineDiff_fold_results (diffs : list Diff) :
  forall st,
    exists rs,
      results
        (fold_left
           (fun st d => lineDiff_lines (fst d) (split_char LF (snd d)) st)
           diffs st)
      = results st ++ rs
      /\ map kind_and_text rs = flat_map tuple_lines diffs.
Proof.
  induction diffs as [|d diffs IH]; intros st.
  - exists []. cbn. rewrite app_nil_r. auto.
  - cbn [fold_left flat_map].
    destruct (lineDiff_lines_results (fst d) (split_char LF (snd d)) st)
      as (r1 & H1 & M1).
    destruct (IH (lineDiff_lines (fst d) (split_char LF (snd d)) st))
      as (r2 & H2 & M2).
    exists (r1 ++ r2). rewrite H2, H1, <- app_assoc, map_app, M1, M2.
    auto.
Qed.

(** The kinds and texts of the records: tuple after tuple, one record of
    the kind of the tuple for each of its kept lines. *)
Lemma lineDiff_of_kinds_and_texts (diffs : list Diff) :
  map kind_and_text (lineDiff_of diffs) = flat_map tuple_lines diffs.
Proof.
  unfold lineDiff_of.
  destruct (lineDiff_fold_results diffs
              {| results := []; oldLineNum := 1; newLineNum := 1 |})
    as (rs & H & M).
  rewrite H. exact M.
Qed.

(** The text of a record of computeLineDiff is one line: it holds no line
    feed. *)
Theorem computeLineDiff_texts_are_single_lines (oldText newText : jsstring) :
  Forall (fun r => no_LF (dl_text r) = true)
    (computeLineDiff dmp oldText newText).
Proof.
  unfold computeLineDiff.
  generalize (diffLineMode dmp oldText newText) as diffs. intros diffs.
  assert (T : Forall (fun p : change * jsstring => no_LF (snd p) = true)
                (map kind_and_text (lineDiff_of diffs))).
  { rewrite lineDiff_of_kinds_and_texts. apply Forall_forall.
    intros p I. apply in_flat_map in I. destruct I as (d & _ & I).
    unfold tuple_lines in I. apply in_map_iff in I.
    destruct I as (l & <- & I). apply kept_lines_incl in I.
    cbn [snd]. revert l I. apply Forall_forall.
    apply split_char_aux_no_LF. reflexivity. }
  apply Forall_map in T. exact T.
Qed.

Lemma closed_text_no_LF (t : jsstring) :
  t <> [] -> no_LF t = true -> closed_text t = t ++ [LF].
Proof.
  intros Nt C. unfold closed_text. destruct (rev t) as [|ch r] eqn:E.
  - apply (f_equal (@rev char)) in E. rewrite rev_involutive in E.
    contradiction.
  - assert (I : In ch t) by (apply in_rev; rewrite E; left; reflexivity).
    unfold no_LF in C. rewrite forallb_forall in C. specialize (C ch I).
    apply negb_true_iff in C. rewrite C. reflexivity.
Qed.

Lemma closed_text_app (a s : jsstring) :
  s <> [] -> closed_text (a ++ s) = a ++ closed_text s.
Proof.
  intros Ns. unfold closed_text. rewrite rev_app_distr.
  destruct (rev s) as [|ch r] eqn:E.
  - apply (f_equal (@rev char)) in E. rewrite rev_involutive in E.
    contradiction.
  - cbn [app]. destruct (N.eqb ch LF); [reflexivity|].
    symmetry. apply app_assoc.
Qed.

Lemma closed_text_LF (a : jsstring) : closed_text (a ++ [LF]) = a ++ [LF].
Proof.
  unfold closed_text. rewrite rev_app_distr. reflexivity.
Qed.

Lemma kept_lines_cons (line : jsstring) (rest : list jsstring) :
  rest <> [] -> kept_lines (line :: rest) = line :: kept_lines rest.
Proof. destruct rest; [contradiction | reflexivity]. Qed.

(** The kept lines of a text, each closed by a line feed, are the text
    with its last line closed. *)
Lemma closed_kept_lines_aux (s : jsstring) :
  forall cur,
    no_LF cur = true ->
    closed_lines (kept_lines (split_char_aux LF cur s))
    = closed_text (rev cur ++ s).
Proof.
  induction s as [|x s IH]; intros cur C; cbn [split_char_aux].
  - rewrite app_nil_r. cbn [kept_lines is_last negb orb].
    destruct (rev cur) as [|y t] eqn:E; [reflexivity|].
    cbn [nonempty]. unfold closed_lines. cbn [map concat].
    rewrite app_nil_r, <- E. symmetry. apply closed_text_no_LF.
    + rewrite E. discriminate.
    + apply no_LF_rev. exact C.
  - destruct (N.eqb x LF) eqn:E.
    + apply N.eqb_eq in E. subst x.
      rewrite kept_lines_cons by apply split_char_aux_nonempty.
      unfold closed_lines in *. cbn [map concat].
      rewrite (IH [] eq_refl). cbn [rev app].
      destruct s as [|y s].
      * cbn. rewrite app_nil_r. symmetry. apply closed_text_LF.
      * change (rev cur ++ LF :: y :: s)
          with (rev cur ++ [LF] ++ (y :: s)).
        rewrite (app_assoc (rev cur)), closed_text_app by discriminate.
        rewrite <- app_assoc. reflexivity.
    + rewrite IH.
      * cbn [rev]. rewrite <- app_assoc. reflexivity.
      * unfold no_LF in *. cbn [forallb]. rewrite E. exact C.
Qed.

Lemma closed_kept_lines (t : jsstring) :
  closed_lines (kept_lines (split_char LF t)) = closed_text t.
Proof. apply (closed_kept_lines_aux t [] eq_refl). Qed.

Lemma side_by_kind (keep : change -> bool) (rs : list DiffLine) :
  map dl_text (filter (fun r => keep (dl_type r)) rs)
  = map snd (filter (fun p : change * jsstring => keep (fst p))
               (map kind_and_text rs)).
Proof.
  induction rs as [|r rs IH]; [reflexivity|]. cbn [map filter].
  unfold kind_and_text at 1. cbn [fst].
  destruct (keep (dl_type r)); cbn [map snd]; rewrite IH; reflexivity.
Qed.

Lemma closed_lines_app (a b : list jsstring) :
  closed_lines (a ++ b) = closed_lines a ++ closed_lines b.
Proof. unfold closed_lines. rewrite map_app, concat_app. reflexivity. Qed.

Lemma kept_side (keep : change -> bool) (c : change) (ls : list jsstring) :
  map snd (filter (fun p : change * jsstring => keep (fst p))
             (map (pair c) ls))
  = if keep c then ls else [].
Proof.
  induction ls as [|l ls IH]; [destruct (keep c); reflexivity|].
  cbn [map filter fst]. destruct (keep c) eqn:K.
  - cbn [map snd]. rewrite IH. reflexivity.
  - exact IH.
Qed.

Lemma side_of_tuples (keep : change -> bool) (diffs : list Diff) :
  closed_lines
    (map snd (filter (fun p : change * jsstring => keep (fst p))
                (flat_map tuple_lines diffs)))
  = concat (map (fun d : Diff => closed_text (snd d))
              (filter (fun d : Diff => keep (change_of (fst d))) diffs)).
Proof.
  induction diffs as [|d diffs IH]; [reflexivity|].
  cbn [flat_map filter]. rewrite filter_app, map_app, closed_lines_app, IH.
  unfold tuple_lines. rewrite kept_side.
  destruct (keep (change_of (fst d))).
  - cbn [map concat]. rewrite closed_kept_lines. reflexivity.
  - reflexivity.
Qed.

(** The records of computeLineDiff hold all the text of the diff: the
    lines of the removed and unchanged records, each followed by a line
    feed, spell out the deleted and kept texts of the tuples, and those of
    the added and unchanged records the inserted and kept texts - in both
    cases with a line feed put behind a tuple whose last line has none. *)
Theorem computeLineDiff_keeps_every_line (oldText newText : jsstring) :
  side_text on_old_side (computeLineDiff dmp oldText newText)
  = concat (map (fun d : Diff => closed_text (snd d))
              (filter old_tuple (diffLineMode dmp oldText newText)))
  /\ side_text on_new_side (computeLineDiff dmp oldText newText)
     = concat (map (fun d : Diff => closed_text (snd d))
                 (filter new_tuple (diffLineMode dmp oldText newText))).
Proof.
  unfold computeLineDiff, side_text.
  generalize (diffLineMode dmp oldText newText) as diffs. intros diffs.
  split.
  - rewrite (@filter_ext _ on_old_side
               (fun r => (fun c => negb (change_eqb c added)) (dl_type r)))
      by (intros r; unfold on_old_side; destruct (dl_type r); reflexivity).
    rewrite (side_by_kind (fun c => negb (change_eqb c added))),
      lineDiff_of_kinds_and_texts.
    apply (side_of_tuples (fun c => negb (change_eqb c added))).
  - rewrite (@filter_ext _ on_new_side
               (fun r => (fun c => negb (change_eqb c removed)) (dl_type r)))
      by (intros r; unfold on_new_side; destruct (dl_type r); reflexivity).
    rewrite (side_by_kind (fun c => negb (change_eqb c removed))),
      lineDiff_of_kinds_and_texts.
    apply (side_of_tuples (fun c => negb (change_eqb c removed))).
Qed.

End LineRecords.

Section LineModes.

Variable dmp : DiffMatchPatch.

Lemma push_result_last (operation : Z) (text : jsstring)
  (st : list DiffResult * Z) :
  exists r,
    fst (push_result operation text st) = fst st ++ [r]
    /\ dr_type r = change_of operation /\ dr_text r = text.
Proof.
  destruct st as [rs n]. unfold push_result.
  destruct (change_of operation) eqn:E; eexists; cbn [fst];
    (split; [reflexivity|]); split; reflexivity.
Qed.

Lemma computeDiff_lines_results (operation : Z) (lines : list jsstring) :
  forall st,
    exists rs,
      fst (computeDiff_lines operation lines st) = fst st ++ rs
      /\ map (fun r => (dr_type r, dr_text r)) rs
         = map (pair (change_of operation)) (result_texts lines).
Proof.
  induction lines as [|line rest IH]; intros st.
  - exists []. cbn. rewrite app_nil_r. auto.
  - cbn [computeDiff_lines result_texts]. cbv zeta.
    destruct (negb (is_last rest)); [|destruct (nonempty line)].
    + destruct (push_result_last operation (line ++ [LF]) st)
        as (r & Hr & Hc & Ht).
      destruct (IH (push_result operation (line ++ [LF]) st))
        as (rs & H1 & H2).
      exists (r :: rs). rewrite H1, Hr, <- app_assoc. cbn [map].
      rewrite Hc, Ht, H2. auto.
    + destruct (push_result_last operation line st) as (r & Hr & Hc & Ht).
      destruct (IH (push_result operation line st)) as (rs & H1 & H2).
      exists (r :: rs). rewrite H1, Hr, <- app_assoc. cbn [map].
      rewrite Hc, Ht, H2. auto.
    + apply IH.
Qed.

Lemma computeDiff_fold_results (diffs : list Diff) :
  forall st,
    exists rs,
      fst (fold_left
             (fun st d =>
                computeDiff_lines (fst d) (split_char LF (snd d)) st)
             diffs st)
      = fst st ++ rs
      /\ map (fun r => (dr_type r, dr_text r)) rs
         = flat_map
             (fun d : Diff =>
                map (pair (change_of (fst d)))
                  (result_texts (split_char LF (snd d))))
             diffs.
Proof.
  induction diffs as [|d diffs IH]; intros st.
  - exists []. cbn. rewrite app_nil_r. auto.
  - cbn [fold_left flat_map].
    destruct (computeDiff_lines_results (fst d) (split_char LF (snd d)) st)
      as (r1 & H1 & M1).
    destruct (IH (computeDiff_lines (fst d) (split_char LF (snd d)) st))
      as (r2 & H2 & M2).
    exists (r1 ++ r2). rewrite H2, H1, <- app_assoc, map_app, M1, M2.
    auto.
Qed.

Lemma chop_closed (line : jsstring) : chop (line ++ [LF]) = line.
Proof.
  unfold chop. rewrite rev_app_distr. cbn [rev app].
  rewrite N.eqb_refl. apply rev_involutive.
Qed.

Lemma chop_no_LF (line : jsstring) : no_LF line = true -> chop line = line.
Proof.
  intros H. unfold chop. destruct (rev line) as [|ch r] eqn:E;
    [reflexivity|].
  assert (I : In ch line) by (apply in_rev; rewrite E; left; reflexivity).
  unfold no_LF in H. rewrite forallb_forall in H. specialize (H ch I).
  apply negb_true_iff in H. rewrite H. reflexivity.
Qed.

Lemma chop_result_texts (lines : list jsstring) :
  Forall (fun l => no_LF l = true) lines ->
  map chop (result_texts lines) = kept_lines lines.
Proof.
  induction 1 as [|line rest Hl _ IH]; [reflexivity|].
  cbn [result_texts kept_lines].
  destruct (negb (is_last rest)); cbn [orb].
  - cbn [map]. rewrite chop_closed, IH. reflexivity.
  - destruct (nonempty line); [|exact IH].
    cbn [map]. rewrite chop_no_LF, IH by exact Hl. reflexivity.
Qed.

Lemma computeDiff_kinds_and_texts (diffs : list Diff) :
  map kind_and_piece
    (fst (fold_left
            (fun st d =>
               computeDiff_lines (fst d) (split_char LF (snd d)) st)
            diffs ([], 1%Z)))
  = flat_map
      (fun d : Diff =>
         map (pair (change_of (fst d)))
           (result_texts (split_char LF (snd d))))
      diffs.
Proof.
  destruct (computeDiff_fold_results diffs ([], 1%Z)) as (rs & H & M).
  rewrite H. exact M.
Qed.

(** The records that the loop makes of a text are its pieces, cut behind
    the line feeds. *)
Lemma result_texts_cut (s : jsstring) :
  forall cur,
    result_texts (split_char_aux LF cur s) = cut_after cur s.
Proof.
  induction s as [|c s IH]; intros cur.
  - cbn [split_char_aux result_texts is_last negb cut_after].
    destruct cur as [|x cur]; [reflexivity|].
    destruct (rev (x :: cur)) eqn:E; [|reflexivity].
    exfalso. exact (rev_cons_nonempty x cur E).
  - cbn [split_char_aux cut_after]. destruct (N.eqb c LF) eqn:E.
    + apply N.eqb_eq in E. subst c. cbn [result_texts].
      destruct (split_char_aux LF [] s) as [|p ps] eqn:S;
        [exfalso; exact (split_char_aux_nonempty LF s [] S)|].
      cbn [is_last negb]. rewrite <- S, IH. reflexivity.
    + apply IH.
Qed.

Lemma no_LF_removelast (p : jsstring) :
  no_LF p = true -> no_LF (removelast p) = true.
Proof.
  unfold no_LF. intros H. apply forallb_forall. intros x I.
  rewrite forallb_forall in H. apply H.
  clear H. induction p as [|y p IH]; [contradiction|].
  cbn [removelast] in I. destruct p as [|z p]; [contradiction|].
  destruct I as [<- | I]; [left; reflexivity | right; exact (IH I)].
Qed.

Lemma cut_after_pieces (s : jsstring) :
  forall cur,
    no_LF cur = true -> Forall one_line_piece (cut_after cur s).
Proof.
  induction s as [|c s IH]; intros cur C.
  - cbn [cut_after]. destruct cur as [|x cur]; constructor; [|constructor].
    split; [apply rev_cons_nonempty|].
    apply no_LF_removelast, no_LF_rev. exact C.
  - cbn [cut_after]. destruct (N.eqb c LF) eqn:E.
    + constructor; [|apply IH; reflexivity]. cbn [rev]. split.
      * destruct (rev cur); discriminate.
      * rewrite removelast_last. apply no_LF_rev. exact C.
    + apply IH. unfold no_LF in *. cbn [forallb]. rewrite E. exact C.
Qed.

Lemma concat_cut_after (s : jsstring) :
  forall cur, concat (cut_after cur s) = rev cur ++ s.
Proof.
  induction s as [|c s IH]; intros cur.
  - cbn [cut_after]. destruct cur as [|x cur]; [reflexivity|].
    cbn [concat]. rewrite !app_nil_r. reflexivity.
  - cbn [cut_after]. destruct (N.eqb c LF).
    + cbn [concat]. rewrite IH. cbn [rev app]. rewrite <- app_assoc.
      reflexivity.
    + rewrite IH. cbn [rev]. rewrite <- app_assoc. reflexivity.
Qed.

(** computeDiff cuts every tuple behind its line feeds and loses nothing,
    in every mode and whatever tuples the library returns.  Its records
    are, tuple after tuple and with the kind of the tuple, the pieces of
    the tuple's text: every piece but the last ends with its line feed,
    the last one is what stands behind the last line feed, and an empty
    last piece gives no record.  So a record's text is never empty and
    holds a line feed only as its last character, the pieces of a tuple
    put together are its text, and the texts of the records of one kind,
    put together, are the texts of the tuples of that kind. *)
Theorem computeDiff_keeps_every_character (oldText newText : jsstring)
  (m : mode) :
  map kind_and_piece (computeDiff dmp oldText newText m)
  = flat_map tuple_pieces (mode_diffs dmp oldText newText m)
  /\ Forall (fun r => one_line_piece (dr_text r))
       (computeDiff dmp oldText newText m)
  /\ (forall d : Diff, concat (cut_lines (snd d)) = snd d)
  /\ (forall c : change,
        record_text c (computeDiff dmp oldText newText m)
        = tuple_text c (mode_diffs dmp oldText newText m)).
Proof.
  assert (K : map kind_and_piece (computeDiff dmp oldText newText m)
              = flat_map tuple_pieces (mode_diffs dmp oldText newText m)).
  { unfold computeDiff.
    change (match m with
            | line_mode => diffLineMode dmp oldText newText
            | word_mode =>
                diff_cleanupSemantic dmp
                  (diff_main dmp oldText newText false)
            | char_mode => diff_main dmp oldText newText false
            end) with (mode_diffs dmp oldText newText m).
    rewrite computeDiff_kinds_and_texts. apply flat_map_ext. intros d.
    unfold tuple_pieces, cut_lines, split_char.
    rewrite result_texts_cut. reflexivity. }
  split; [exact K|]. split; [|split].
  - assert (T : Forall (fun p : change * jsstring => one_line_piece (snd p))
                  (map kind_and_piece
                     (computeDiff dmp oldText newText m))).
    { rewrite K. apply Forall_forall. intros p I.
      apply in_flat_map in I. destruct I as (d & _ & I).
      unfold tuple_pieces in I. apply in_map_iff in I.
      destruct I as (t & <- & I). cbn [snd].
      revert t I. apply Forall_forall. apply cut_after_pieces.
      reflexivity. }
    apply Forall_forall. intros r I. rewrite Forall_forall in T.
    apply (T (kind_and_piece r)). apply in_map. exact I.
  - intros d. apply (concat_cut_after (snd d) []).
  - intros c. apply computeDiff_record_text.
Qed.

Lemma ends_with_LF_no_LF (p : jsstring) :
  no_LF p = true -> ends_with_LF p = false.
Proof.
  intros H. unfold ends_with_LF. destruct (rev p) as [|ch r] eqn:E;
    [reflexivity|].
  assert (I : In ch p) by (apply in_rev; rewrite E; left; reflexivity).
  unfold no_LF in H. rewrite forallb_forall in H.
  apply negb_true_iff. exact (H ch I).
Qed.

Lemma ends_with_LF_app (a b : jsstring) :
  b <> [] -> ends_with_LF (a ++ b) = ends_with_LF b.
Proof.
  intros N. unfold ends_with_LF. rewrite rev_app_distr.
  destruct (rev b) as [|ch r] eqn:E; [|reflexivity].
  apply (f_equal (@rev char)) in E. rewrite rev_involutive in E.
  contradiction.
Qed.

Lemma kept_lines_some (s : jsstring) :
  forall cur,
    cur <> [] \/ s <> [] -> kept_lines (split_char_aux LF cur s) <> [].
Proof.
  induction s as [|c s IH]; intros cur H.
  - destruct H as [H | H]; [|contradiction].
    cbn [split_char_aux kept_lines is_last negb orb].
    destruct cur as [|x cur]; [contradiction|].
    destruct (rev (x :: cur)) eqn:E; [|discriminate].
    exfalso. exact (rev_cons_nonempty x cur E).
  - cbn [split_char_aux]. destruct (N.eqb c LF).
    + rewrite kept_lines_cons by apply split_char_aux_nonempty.
      discriminate.
    + apply IH. left. discriminate.
Qed.

(** The records that the loop of computeDiff makes of a text are its
    lines with their line feeds. *)
Lemma result_texts_fed (s : jsstring) :
  forall cur,
    no_LF cur = true ->
    result_texts (split_char_aux LF cur s)
    = with_line_feeds (ends_with_LF (rev cur ++ s))
        (kept_lines (split_char_aux LF cur s)).
Proof.
  induction s as [|c s IH]; intros cur C.
  - rewrite app_nil_r, ends_with_LF_no_LF by (apply no_LF_rev; exact C).
    cbn [split_char_aux result_texts kept_lines is_last negb orb].
    destruct (nonempty (rev cur)); reflexivity.
  - cbn [split_char_aux]. destruct (N.eqb c LF) eqn:E.
    + apply N.eqb_eq in E. subst c.
      rewrite kept_lines_cons by apply split_char_aux_nonempty.
      cbn [result_texts].
      destruct (split_char_aux LF [] s) as [|p ps] eqn:S;
        [exfalso; exact (split_char_aux_nonempty LF s [] S)|].
      cbn [is_last negb]. rewrite <- S. rewrite (IH [] eq_refl).
      cbn [rev app]. destruct s as [|y s].
      * cbn. unfold ends_with_LF. rewrite rev_app_distr. reflexivity.
      * change (rev cur ++ LF :: y :: s)
          with (rev cur ++ [LF] ++ (y :: s)).
        rewrite app_assoc, ends_with_LF_app by discriminate.
        assert (Kn : kept_lines (split_char_aux LF [] (y :: s)) <> [])
          by (apply kept_lines_some; right; discriminate).
        destruct (kept_lines (split_char_aux LF [] (y :: s))) as [|k ks];
          [contradiction|].
        reflexivity.
    + rewrite IH.
      * cbn [rev]. rewrite <- app_assoc. reflexivity.
      * unfold no_LF in *. cbn [forallb]. rewrite E. exact C.
Qed.

(** computeDiff in line mode and computeLineDiff make the same records of
    the same diff, one for one, whatever tuples the library returns.  The
    records of computeLineDiff are the lines of the tuples, each with the
    kind of its tuple.  The records of computeDiff are the same lines with
    a line feed behind each, except behind the last line of a tuple whose
    text does not end with a line feed.  So the kinds agree in order, and
    the text of computeDiff without the line feed at its end is the text
    of computeLineDiff. *)
Theorem computeDiff_line_mode_matches_computeLineDiff
  (oldText newText : jsstring) :
  map kind_and_text (computeLineDiff dmp oldText newText)
  = flat_map tuple_lines (diffLineMode dmp oldText newText)
  /\ map kind_and_piece (computeDiff dmp oldText newText line_mode)
     = flat_map tuple_fed_lines (diffLineMode dmp oldText newText)
  /\ map kind_and_line (computeDiff dmp oldText newText line_mode)
     = map kind_and_text (computeLineDiff dmp oldText newText).
Proof.
  unfold computeDiff, computeLineDiff.
  generalize (diffLineMode dmp oldText newText) as diffs. intros diffs.
  split; [apply lineDiff_of_kinds_and_texts|]. split.
  - rewrite computeDiff_kinds_and_texts. apply flat_map_ext. intros d.
    unfold tuple_fed_lines, split_char.
    rewrite (result_texts_fed (snd d) [] eq_refl). reflexivity.
  - rewrite lineDiff_of_kinds_and_texts.
    destruct (computeDiff_fold_results diffs ([], 1%Z)) as (rs & H & M).
    rewrite H. cbn [fst app].
    assert (K : map kind_and_line rs
                = map (fun p : change * jsstring => (fst p, chop (snd p)))
                    (map (fun r => (dr_type r, dr_text r)) rs))
      by (rewrite map_map; reflexivity).
    rewrite K, M. clear.
    induction diffs as [|d diffs IH]; [reflexivity|].
    cbn [flat_map]. rewrite map_app, IH. f_equal.
    unfold tuple_lines.
    rewrite <- (@chop_result_texts (split_char LF (snd d)))
      by (apply split_char_aux_no_LF; reflexivity).
    rewrite !map_map. reflexivity.
Qed.

(** A tuple with two lines, the second one not closed: one record with a
    line feed and one without. *)
Example pieces_of_a_tuple :
  cut_lines (js "a" ++ [LF] ++ js "b") = [js "a" ++ [LF]; js "b"]
  /\ cut_lines (js "a" ++ [LF]) = [js "a" ++ [LF]]
  /\ tuple_fed_lines (DIFF_INSERT, js "a" ++ [LF] ++ js "b")
     = [(added, js "a" ++ [LF]); (added, js "b")]
  /\ tuple_lines (DIFF_INSERT, js "a" ++ [LF] ++ js "b")
     = [(added, js "a"); (added, js "b")].
Proof. repeat split; vm_compute; reflexivity. Qed.

End LineModes.

Section Hunks.

Variable dmp : DiffMatchPatch.

Lemma count_signed_snoc (sign : char) (ls : list jsstring) (l : jsstring) :
  count_signed sign (ls ++ [l])
  = (count_signed sign ls + if signed sign l then 1 else 0)%Z.
Proof.
  unfold count_signed. rewrite filter_app, length_app. cbn [filter].
  destruct (signed sign l); cbn [length]; lia.
Qed.

Lemma flush_text (st : unified_state) :
  counters_ahead st ->
  flush_hunk st
  = output st
      ++ hunk_text {| start_old := hunkStartOld st;
                      start_new := hunkStartNew st;
                      hunk_body := hunkLines st |}.
Proof.
  intros [A B]. unfold flush_hunk, hunk_header, hunk_text.
  cbn [start_old start_new hunk_body]. rewrite A, B, <- !app_assoc.
  reflexivity.
Qed.

Lemma unified_line_ahead (operation : Z) (line : jsstring)
  (st : unified_state) :
  counters_ahead st -> counters_ahead (unified_line operation line st).
Proof.
  intros [A B]. unfold unified_line.
  destruct (change_of operation); constructor;
    cbn [hunkLines u_oldLineNum u_newLineNum hunkStartOld hunkStartNew];
    cbv zeta.
  - rewrite count_signed_snoc.
    change (signed minus_sign (js "+" ++ line)) with false.
    cbv iota. lia.
  - rewrite count_signed_snoc.
    change (signed plus_sign (js "+" ++ line)) with true.
    cbv iota. lia.
  - rewrite count_signed_snoc.
    change (signed minus_sign (js "-" ++ line)) with true.
    cbv iota. lia.
  - rewrite count_signed_snoc.
    change (signed plus_sign (js "-" ++ line)) with false.
    cbv iota. lia.
  - destruct (hunkLines st); cbn [nonempty count_signed filter length];
      cbn; lia.
  - destruct (hunkLines st); cbn [nonempty count_signed filter length];
      cbn; lia.
Qed.

(** The loop depends on the kind of the operation only. *)
Lemma unified_line_kind (operation : Z) (line : jsstring)
  (st : unified_state) :
  unified_line operation line st
  = unified_line (operation_of (change_of operation)) line st.
Proof.
  unfold unified_line.
  replace (change_of (operation_of (change_of operation)))
    with (change_of operation)
    by (destruct (change_of operation); reflexivity).
  reflexivity.
Qed.

Lemma unified_lines_run (operation : Z) (lines : list jsstring) :
  forall st,
    unified_lines operation lines st
    = run_pairs (map (pair (change_of operation)) (kept_lines lines)) st.
Proof.
  induction lines as [|line rest IH]; intros st; [reflexivity|].
  cbn [unified_lines kept_lines]. cbv zeta.
  destruct (negb (is_last rest) || nonempty line).
  - rewrite IH, unified_line_kind. reflexivity.
  - apply IH.
Qed.

Lemma unified_fold_run (diffs : list Diff) :
  forall st,
    fold_left
      (fun st d => unified_lines (fst d) (split_char LF (snd d)) st)
      diffs st
    = run_pairs (flat_map tuple_lines diffs) st.
Proof.
  induction diffs as [|d diffs IH]; intros st; [reflexivity|].
  cbn [fold_left flat_map]. rewrite IH, unified_lines_run.
  unfold run_pairs, tuple_lines. rewrite fold_left_app. reflexivity.
Qed.

Lemma prepend_prepend (so sn o n : Z) (l x : list jsstring)
  (adjacent : bool) (hs : list hunk) :
  prepend so sn l true (prepend o n x adjacent hs)
  = prepend so sn (l ++ x) adjacent hs.
Proof.
  unfold prepend. destruct adjacent, hs as [|h hs]; cbn [hunk_body];
    rewrite ?app_assoc; reflexivity.
Qed.

Lemma pending_snoc (so sn o n : Z) (l : list jsstring) (x : jsstring)
  (adjacent : bool) (hs : list hunk) :
  (l = [] -> so = o /\ sn = n) ->
  pending so sn (l ++ [x]) adjacent hs
  = pending so sn l true (prepend o n [x] adjacent hs).
Proof.
  intros E. destruct l as [|y l].
  - destruct (E eq_refl) as [-> ->]. reflexivity.
  - cbn [pending app]. rewrite prepend_prepend. reflexivity.
Qed.

Lemma starts_when_empty (st : unified_state) :
  counters_ahead st ->
  hunkLines st = [] ->
  hunkStartOld st = u_oldLineNum st /\ hunkStartNew st = u_newLineNum st.
Proof.
  intros [A B] E. rewrite E in A, B. cbn in A, B. lia.
Qed.

(** What the loop and the final flush print, from any state on: the
    output so far, the waiting lines as the start of the next hunk, and
    the hunks of the lines that are still to come. *)
Lemma run_pairs_hunks (ps : list (change * jsstring)) :
  forall st,
    counters_ahead st ->
    finish (run_pairs ps st)
    = output st
        ++ concat
             (map hunk_text
                (pending (hunkStartOld st) (hunkStartNew st) (hunkLines st)
                   (next_is_change ps)
                   (hunks_of (u_oldLineNum st) (u_newLineNum st) ps))).
Proof.
  induction ps as [|[k l] ps IH]; intros st H.
  - cbn [run_pairs fold_left hunks_of next_is_change]. unfold finish.
    destruct (hunkLines st) as [|y L] eqn:E.
    + cbn [nonempty pending map concat]. rewrite app_nil_r. reflexivity.
    + cbn [nonempty pending prepend map concat].
      rewrite (flush_text H), E, app_nil_r. reflexivity.
  - change (run_pairs ((k, l) :: ps) st)
      with (run_pairs ps (unified_line (operation_of k) l st)).
    rewrite IH by (apply unified_line_ahead; exact H).
    pose proof (starts_when_empty H) as Em.
    unfold unified_line. destruct k;
      cbn [operation_of change_of DIFF_INSERT DIFF_DELETE DIFF_EQUAL
           Z.eqb Pos.eqb];
      cbn [output hunkLines u_oldLineNum u_newLineNum hunkStartOld
           hunkStartNew hunks_of fst snd next_is_change change_eqb negb
           printed_pair].
    + rewrite (@pending_snoc _ _ (u_oldLineNum st) (u_newLineNum st));
        [reflexivity | exact Em].
    + rewrite (@pending_snoc _ _ (u_oldLineNum st) (u_newLineNum st));
        [reflexivity | exact Em].
    + cbv zeta. destruct (hunkLines st) as [|y L] eqn:E.
      * cbn [nonempty pending]. reflexivity.
      * cbn [nonempty pending prepend map concat].
        rewrite (flush_text H), E, <- app_assoc. reflexivity.
Qed.

Lemma bodies_prepend (so sn : Z) (x : list jsstring) (adjacent : bool)
  (hs : list hunk) :
  concat (map hunk_body (prepend so sn x adjacent hs))
  = x ++ concat (map hunk_body hs).
Proof.
  unfold prepend. destruct adjacent, hs as [|h hs];
    cbn [map concat hunk_body]; rewrite ?app_assoc; reflexivity.
Qed.

(** The lines of the hunks are the printed forms of the removed and added
    lines. *)
Lemma hunks_of_bodies (ps : list (change * jsstring)) :
  forall o n,
    concat (map hunk_body (hunks_of o n ps)) = flat_map printed_pair ps.
Proof.
  induction ps as [|[k l] ps IH]; intros o n; [reflexivity|].
  cbn [hunks_of fst flat_map]. destruct k.
  - rewrite bodies_prepend, IH. reflexivity.
  - rewrite bodies_prepend, IH. reflexivity.
  - rewrite IH. reflexivity.
Qed.

Lemma proper_prepend (so sn : Z) (x : jsstring) (adjacent : bool)
  (hs : list hunk) :
  well_signed x = true ->
  forallb proper_hunk hs = true ->
  forallb proper_hunk (prepend so sn [x] adjacent hs) = true.
Proof.
  intros X H. unfold prepend. destruct adjacent, hs as [|h hs];
    cbn [forallb] in *; unfold proper_hunk in *; cbn [hunk_body app nonempty
      forallb andb]; rewrite ?X; try reflexivity; try exact H.
  apply andb_prop in H. destruct H as [Hh Hs].
  apply andb_prop in Hh. destruct Hh as [_ Hb]. rewrite Hb, Hs.
  reflexivity.
Qed.

Lemma hunks_of_proper (ps : list (change * jsstring)) :
  forall o n, forallb proper_hunk (hunks_of o n ps) = true.
Proof.
  induction ps as [|[k l] ps IH]; intros o n; [reflexivity|].
  cbn [hunks_of fst]. destruct k.
  - apply proper_prepend; [reflexivity | apply IH].
  - apply proper_prepend; [reflexivity | apply IH].
  - apply IH.
Qed.

Lemma printed_records (rs : list DiffLine) :
  flat_map printed rs = flat_map printed_pair (map kind_and_text rs).
Proof.
  induction rs as [|r rs IH]; [reflexivity|].
  cbn [flat_map map]. rewrite IH. reflexivity.
Qed.

(** The text of formatUnifiedDiff is the two file lines followed by the
    hunks of the records of computeLineDiff, whatever tuples the library
    returns.  A hunk is a maximal run of removed and added records: every
    unchanged record closes the hunk before it, and is not printed.  The
    header of a hunk gives the line numbers that the old and the new text
    have reached at its first record, both counted from 1, and the
    numbers of its '-' lines and of its '+' lines.  Every hunk has at
    least one line, each line is the text of its record with '-' or '+'
    in front, and the lines of all hunks are the removed and added
    records in their order. *)
Theorem formatUnifiedDiff_is_header_and_hunks
  (oldText newText : jsstring) (oldFile newFile : option jsstring) :
  formatUnifiedDiff dmp oldText newText oldFile newFile
  = file_header (file_name oldFile (js "old"))
      (file_name newFile (js "new"))
    ++ concat
         (map hunk_text
            (hunks_of 1 1
               (map kind_and_text (computeLineDiff dmp oldText newText))))
  /\ forallb proper_hunk
       (hunks_of 1 1
          (map kind_and_text (computeLineDiff dmp oldText newText)))
     = true
  /\ concat
       (map hunk_body
          (hunks_of 1 1
             (map kind_and_text (computeLineDiff dmp oldText newText))))
     = flat_map printed (computeLineDiff dmp oldText newText).
Proof.
  split; [|split].
  - unfold formatUnifiedDiff, computeLineDiff. cbv zeta.
    fold (file_name oldFile (js "old")).
    fold (file_name newFile (js "new")).
    generalize (file_name oldFile (js "old")) as f1.
    generalize (file_name newFile (js "new")) as f2. intros f2 f1.
    generalize (diffLineMode dmp oldText newText) as diffs. intros diffs.
    rewrite lineDiff_of_kinds_and_texts, unified_fold_run.
    match goal with
    | |- context [run_pairs ?ps ?st0] =>
        change (finish (run_pairs ps st0) = file_header f1 f2
                  ++ concat (map hunk_text (hunks_of 1 1 ps)));
        rewrite (@run_pairs_hunks ps st0)
    end.
    + reflexivity.
    + constructor; reflexivity.
  - apply hunks_of_proper.
  - rewrite hunks_of_bodies, printed_records. reflexivity.
Qed.

(** Two changes with an unchanged line between them make two hunks; two
    changes next to each other make one. *)
Example hunks_of_literal :
  hunks_of 1 1
    [(unchanged, js "a"); (removed, js "b"); (added, js "x");
     (unchanged, js "c"); (removed, js "d"); (added, js "y")]
  = [{| start_old := 2; start_new := 2;
        hunk_body := [js "-b"; js "+x"] |};
     {| start_old := 4; start_new := 4;
        hunk_body := [js "-d"; js "+y"] |}]
  /\ hunks_of 1 1
       [(removed, js "a"); (removed, js "b"); (added, js "x");
        (unchanged, js "c")]
     = [{| start_old := 1; start_new := 1;
           hunk_body := [js "-a"; js "-b"; js "+x"] |}].
Proof. split; vm_compute; reflexivity. Qed.

End Hunks.

Section Escaping.

Variable dmp : DiffMatchPatch.

(** Replacing every occurrence of one character is a substitution
    character by character. *)
Lemma replace_loop_lit (c : char) (rep : jsstring) :
  forall fuel i s,
    (length s < fuel)%nat ->
    replace_loop fuel (lit c) rep i s
    = flat_map (fun x => if N.eqb c x then rep else [x]) s.
Proof.
  induction fuel as [|f IH]; intros i s L; [lia|].
  destruct s as [|x s]; [reflexivity|].
  cbn [replace_loop lit rmatch flat_map length] in *.
  destruct (N.eqb c x).
  - unfold accept. rewrite (proj2 (Nat.ltb_lt i (S i))) by lia.
    rewrite IH by lia. reflexivity.
  - rewrite IH by lia. reflexivity.
Qed.

Lemma replace_all_lit (c : char) (rep s : jsstring) :
  replace_all (lit c) rep s
  = flat_map (fun x => if N.eqb c x then rep else [x]) s.
Proof. unfold replace_all. apply replace_loop_lit. lia. Qed.

Lemma flat_map_flat_map (A B C : Type) (f : A -> list B) (g : B -> list C)
  (l : list A) :
  flat_map g (flat_map f l) = flat_map (fun x => flat_map g (f x)) l.
Proof.
  induction l as [|x l IH]; [reflexivity|].
  cbn [flat_map]. rewrite flat_map_app, IH. reflexivity.
Qed.

Lemma escaped_by_character (text : jsstring) :
  escaped text = flat_map escape_char text.
Proof.
  unfold escaped. rewrite !replace_all_lit, !flat_map_flat_map.
  apply flat_map_ext. intros ch. unfold escape_char.
  rewrite (N.eqb_sym ch ampersand), (N.eqb_sym ch less),
    (N.eqb_sym ch greater), (N.eqb_sym ch LF).
  destruct (N.eqb ampersand ch) eqn:E1; [reflexivity|].
  cbn [flat_map app]. destruct (N.eqb less ch) eqn:E2; [reflexivity|].
  cbn [flat_map app]. destruct (N.eqb greater ch) eqn:E3; [reflexivity|].
  cbn [flat_map app]. destruct (N.eqb LF ch) eqn:E4; reflexivity.
Qed.

Lemma html_fold (diffs : list Diff) :
  forall html,
    fold_left (fun html d => html ++ span_of (fst d) (escaped (snd d)))
      diffs html
    = html
        ++ concat
             (map (fun d : Diff =>
                     span_of (fst d) (flat_map escape_char (snd d)))
                diffs).
Proof.
  induction diffs as [|d diffs IH]; intros html; cbn [fold_left map concat].
  - symmetry. apply app_nil_r.
  - rewrite IH, escaped_by_character, <- app_assoc. reflexivity.
Qed.

(** The fragment of formatHTMLDiff is the opening of the container, one
    span for each tuple of the cleaned-up diff, in order, and the closing.
    In a span the four replacements, done one after the other, come to one
    substitution of the characters of the tuple's text: '&', '<' and '>'
    become their entities, a line feed becomes <br>, every other character
    stays; no character produced by an earlier replacement is replaced
    again by a later one. *)
Theorem formatHTMLDiff_escapes_each_character_once
  (oldText newText : jsstring) :
  formatHTMLDiff dmp oldText newText
  = container_open
      ++ concat
           (map (fun d : Diff =>
                   span_of (fst d) (flat_map escape_char (snd d)))
              (diff_cleanupSemantic dmp
                 (diff_main dmp oldText newText false)))
      ++ container_close.
Proof.
  unfold formatHTMLDiff. cbv zeta. rewrite html_fold, <- app_assoc.
  reflexivity.
Qed.

End Escaping.

(** * The converter of the WKT page *)

Lemma starts_with_ci (w : jsstring) :
  forall s,
    forallb (fun x => N.eqb (upcase x) x) w = true ->
    starts_with w s = true -> starts_ci w s = true.
Proof.
  induction w as [|x w IH]; intros s U H; [reflexivity|].
  destruct s as [|y s]; [discriminate|]. cbn in *.
  apply andb_prop in U. destruct U as [Ux U].
  apply andb_prop in H. destruct H as [E H].
  apply N.eqb_eq in E. subst y. rewrite Ux. exact (IH s U H).
Qed.

Lemma keyword_starts_ci (k : kind) (t : jsstring) :
  starts_with (keyword k) t = true -> starts_ci (keyword k) t = true.
Proof. apply starts_with_ci. destruct k; reflexivity. Qed.

Lemma keywords_exclusive (k1 k2 : kind) (t : jsstring) :
  starts_ci (keyword k1) t = true -> starts_ci (keyword k2) t = true ->
  k1 = k2.
Proof.
  intros H1 H2. pose proof (starts_ci_compatible _ _ _ H1 H2) as C.
  destruct k1, k2; try reflexivity; vm_compute in C; discriminate.
Qed.

(** What the page converter returns comes from one of its three branches. *)
Lemma page_returned_by_branch (w : jsstring) (g : geometry) :
  wktToGeoJSON w = Returns g ->
  exists k c,
    page_kind k = true
    /\ starts_with (keyword k) (trim w) = true
    /\ exec (extract_re k) (trim w) = Some c
    /\ forall self, build self k c = Returns g.
Proof.
  unfold wktToGeoJSON. cbv zeta. intros H.
  destruct (starts_with (js "POINT") (trim w)) eqn:S1;
    [destruct (exec point_re (trim w)) as [c|] eqn:E1|].
  1: { exists KPoint, c. auto. }
  all: destruct (starts_with (js "LINESTRING") (trim w)) eqn:S2;
    [destruct (exec (body_re KLineString) (trim w)) as [c2|] eqn:E2|].
  1, 4: exists KLineString, c2; auto.
  all: destruct (starts_with (js "POLYGON") (trim w)) eqn:S3;
    [destruct (exec (body_re KPolygon) (trim w)) as [c3|] eqn:E3|].
  all: try discriminate H.
  all: exists KPolygon, c3; auto.
Qed.

(** The page converter and the converter of geometry.ts never disagree on
    a result: where the page converter returns a geometry, the other one
    returns the same geometry, or throws (the page converter looks for the
    type word at the start and for the pattern anywhere, the other one
    wants the parenthesis right behind the word). *)
Theorem page_result_is_the_library_result (w : jsstring) (g : geometry) :
  wktToGeoJSON w = Returns g ->
  wktToGeoJSONExtended w = Returns g
  \/ wktToGeoJSONExtended w = Throws invalid_wkt_message.
Proof.
  intros H.
  destruct (page_returned_by_branch w H) as (k & c & _ & S & E & B).
  rewrite wktToGeoJSONExtended_unfold.
  destruct (branches_cases wktToGeoJSONExtended (trim w) kinds)
    as [[T _] | (k' & c' & _ & P' & E' & T)]; rewrite T.
  - right. reflexivity.
  - left.
    assert (K : k' = k).
    { apply (@keywords_exclusive k' k (trim w)).
      - apply prefix_starts. exact P'.
      - apply keyword_starts_ci. exact S. }
    subst k'. rewrite E in E'. injection E' as <-.
    rewrite B. reflexivity.
Qed.

Lemma page_result_is_the_library_result_witness :
  wktToGeoJSONExtended berlin_wkt
  = Returns (Point (dec 5252 (-2), dec 13405 (-3)))
  \/ wktToGeoJSONExtended berlin_wkt = Throws invalid_wkt_message.
Proof.
  apply (@page_result_is_the_library_result berlin_wkt).
  vm_compute. reflexivity.
Defined.

(** The case in which only the page converter returns. *)
Example page_returns_where_library_throws :
  wktToGeoJSON (js "POINT POINT(1 2)") = Returns (Point (dec 2 0, dec 1 0))
  /\ wktToGeoJSONExtended (js "POINT POINT(1 2)")
     = Throws invalid_wkt_message.
Proof. split; vm_compute; reflexivity. Qed.

Lemma other_keyword_does_not_start (k k' : kind) (t : jsstring) :
  starts_with (keyword k) t = true -> k' <> k ->
  starts_with (keyword k') t = false.
Proof.
  intros S N. destruct (starts_with (keyword k') t) eqn:S'; [|reflexivity].
  exfalso. apply N.
  apply (@keywords_exclusive k' k t); apply keyword_starts_ci; assumption.
Qed.

(** On a text whose type word is written in capitals, and is POINT,
    LINESTRING or POLYGON, the page converter returns what the converter
    of geometry.ts returns. *)
Theorem page_follows_library_on_capitals
  (w : jsstring) (g : geometry) (k : kind) :
  page_kind k = true ->
  starts_with (keyword k) (trim w) = true ->
  wktToGeoJSONExtended w = Returns g ->
  wktToGeoJSON w = Returns g.
Proof.
  intros PK S H.
  destruct (returned_by_branch w H) as (k' & c & P & E & B).
  assert (K : k' = k).
  { apply (@keywords_exclusive k' k (trim w)).
    - apply prefix_starts. exact P.
    - apply keyword_starts_ci. exact S. }
  subst k'. unfold wktToGeoJSON. cbv zeta.
  destruct k; try discriminate PK; cbn [extract_re build] in E, B.
  - change (js "POINT") with (keyword KPoint). rewrite S, E. exact B.
  - change (js "POINT") with (keyword KPoint).
    rewrite (@other_keyword_does_not_start KLineString KPoint (trim w) S)
      by discriminate.
    change (js "LINESTRING") with (keyword KLineString).
    rewrite S, E. exact B.
  - change (js "POINT") with (keyword KPoint).
    rewrite (@other_keyword_does_not_start KPolygon KPoint (trim w) S)
      by discriminate.
    change (js "LINESTRING") with (keyword KLineString).
    rewrite (@other_keyword_does_not_start KPolygon KLineString (trim w) S)
      by discriminate.
    change (js "POLYGON") with (keyword KPolygon).
    rewrite S, E. exact B.
Qed.

Lemma page_follows_library_on_capitals_witness :
  wktToGeoJSON line_wkt
  = Returns (LineString [(dec 5252 (-2), dec 13405 (-3));
                         (dec 5253 (-2), dec 1341 (-2))]).
Proof.
  apply (@page_follows_library_on_capitals line_wkt _ KLineString);
    vm_compute; reflexivity.
Defined.

(** The page converter returns no other type than its three, and throws
    one message only. *)
Theorem page_converter_outcomes (w : jsstring) :
  (forall g, wktToGeoJSON w = Returns g ->
     exists k, kind_of g = Some k /\ page_kind k = true)
  /\ (forall msg, wktToGeoJSON w = Throws msg -> msg = page_invalid_wkt)
  /\ wktToGeoJSON w <> OutOfFuel.
Proof.
  split; [|split].
  - intros g H.
    destruct (page_returned_by_branch w H) as (k & c & PK & _ & _ & B).
    specialize (B wktToGeoJSONExtended).
    exists k. split; [|exact PK].
    destruct k; try discriminate PK; cbn [build] in B;
      injection B as <-; reflexivity.
  - unfold wktToGeoJSON. cbv zeta. intros msg H.
    repeat match type of H with
    | context [if ?b then _ else _] => destruct b
    | context [match exec ?r ?t with _ => _ end] => destruct (exec r t)
    end; try discriminate H; injection H as <-; reflexivity.
  - unfold wktToGeoJSON. cbv zeta.
    repeat match goal with
    | |- context [if ?b then _ else _] => destruct b
    | |- context [match exec ?r ?t with _ => _ end] => destruct (exec r t)
    end; discriminate.
Qed.

(** The serializer of the page writes Point, LineString and Polygon as the
    serializer of geometry.ts does, and throws on every other object. *)
Theorem page_serializer_agrees (g : geometry) :
  geoJSONToWKT g
  = match kind_of g with
    | Some k => if page_kind k then geoJSONToWKTExtended g
                else Throws page_invalid_geojson
    | None => Throws page_invalid_geojson
    end.
Proof. destruct g; reflexivity. Qed.

(** * Writing and reading back *)

Section NumberTexts.

Lemma digit_char (n : N) : isDigit (48 + n mod 10)%N = true.
Proof.
  unfold isDigit.
  assert (H : (n mod 10 < 10)%N) by (apply N.mod_lt; discriminate).
  revert H. generalize (n mod 10)%N as d. intros d H.
  apply andb_true_intro. split; apply N.leb_le; lia.
Qed.

Lemma digits_fuel_chars (fuel : nat) :
  forall n acc,
    forallb isDigit acc = true ->
    forallb isDigit (digits_fuel fuel n acc) = true.
Proof.
  induction fuel as [|f IH]; intros n acc A; [exact A|].
  cbn [digits_fuel]. cbv zeta.
  assert (A' : forallb isDigit ((48 + n mod 10)%N :: acc) = true)
    by (cbn [forallb]; rewrite digit_char; exact A).
  destruct (n <? 10)%N; [exact A' | apply IH; exact A'].
Qed.

Lemma digits_chars (n : N) : forallb isDigit (digits_of_N n) = true.
Proof. apply digits_fuel_chars. reflexivity. Qed.

Lemma digit_is_number_char (s : jsstring) :
  forallb isDigit s = true -> forallb number_char s = true.
Proof.
  intros H. apply forallb_forall. intros x I.
  unfold number_char. rewrite forallb_forall in H. rewrite (H x I).
  reflexivity.
Qed.

Lemma forallb_firstn (A : Type) (p : A -> bool) (n : nat) (s : list A) :
  forallb p s = true -> forallb p (firstn n s) = true.
Proof.
  intros H. rewrite <- (firstn_skipn n s), forallb_app in H.
  apply andb_prop in H. tauto.
Qed.

Lemma forallb_skipn (A : Type) (p : A -> bool) (n : nat) (s : list A) :
  forallb p s = true -> forallb p (skipn n s) = true.
Proof.
  intros H. rewrite <- (firstn_skipn n s), forallb_app in H.
  apply andb_prop in H. tauto.
Qed.

Lemma forallb_repeat (A : Type) (p : A -> bool) (x : A) (n : nat) :
  p x = true -> forallb p (repeat x n) = true.
Proof. intros H. induction n; cbn; [reflexivity | rewrite H; assumption]. Qed.

(** A number is written with the characters of [number_char] only. *)
Lemma toString_chars (x : number) : forallb number_char (toString x) = true.
Proof.
  destruct x as [|neg|neg m0 e0]; [reflexivity | destruct neg; reflexivity|].
  unfold toString. destruct (normalize m0 e0) as [m e].
  destruct (m =? 0)%N; [reflexivity|]. cbv zeta.
  pose proof (digit_is_number_char _ (digits_chars m)) as D.
  revert D. generalize (digits_of_N m) as s. intros s D.
  rewrite forallb_app. apply andb_true_intro. split;
    [destruct neg; reflexivity|].
  assert (E : forall z, forallb number_char (digits_of_N z) = true)
    by (intros z; apply digit_is_number_char, digits_chars).
  repeat match goal with
  | |- context [if ?b then _ else _] => destruct b
  end.
  - rewrite forallb_app, D. apply forallb_repeat. reflexivity.
  - rewrite !forallb_app, forallb_firstn, forallb_skipn by exact D.
    reflexivity.
  - rewrite !forallb_app. unfold char in *. rewrite D.
    rewrite forallb_repeat by reflexivity. reflexivity.
  - destruct s as [|d [|d' ds]]; rewrite !forallb_app, E.
    + reflexivity.
    + rewrite D. reflexivity.
    + cbn [forallb] in D. apply andb_prop in D. destruct D as [D1 D2].
      cbn [forallb]. rewrite D1, D2. reflexivity.
  - destruct s as [|d [|d' ds]]; rewrite !forallb_app, E.
    + reflexivity.
    + rewrite D. reflexivity.
    + cbn [forallb] in D. apply andb_prop in D. destruct D as [D1 D2].
      cbn [forallb]. rewrite D1, D2. reflexivity.
Qed.

Lemma digits_fuel_longer (fuel : nat) :
  forall n acc, length acc <= length (digits_fuel fuel n acc).
Proof.
  induction fuel as [|f IH]; intros n acc; [apply Nat.le_refl|].
  cbn [digits_fuel]. cbv zeta. destruct (n <? 10)%N.
  - cbn [length]. lia.
  - etransitivity; [|apply IH]. cbn [length]. lia.
Qed.

Lemma digits_nonempty (n : N) : digits_of_N n <> [].
Proof.
  unfold digits_of_N. cbn [digits_fuel]. cbv zeta. intros E.
  destruct (n <? 10)%N; [discriminate|].
  apply (f_equal (@length char)) in E.
  pose proof (digits_fuel_longer (N.to_nat (N.log2 n)) (n / 10)
                [(48 + n mod 10)%N]) as L.
  cbn [length] in *. unfold char in *. lia.
Qed.

Lemma toString_nonempty (x : number) : toString x <> [].
Proof.
  destruct x as [|neg|neg m0 e0]; [discriminate | destruct neg; discriminate|].
  unfold toString. destruct (normalize m0 e0) as [m e].
  destruct (m =? 0)%N; [discriminate|]. cbv zeta.
  pose proof (digits_nonempty m) as D.
  revert D. generalize (digits_of_N m) as s. intros s D.
  destruct neg; [discriminate|]. cbn [app].
  repeat match goal with
  | |- context [if ?b then _ else _] => destruct b
  end.
  - destruct s; [contradiction | discriminate].
  - intros E. apply app_eq_nil in E. destruct E as [_ E]. discriminate.
  - discriminate.
  - destruct s as [|d [|d' ds]]; discriminate.
  - destruct s as [|d [|d' ds]]; discriminate.
Qed.

(** What a number character is not. *)
Lemma number_char_cases (ch : char) :
  number_char ch = true ->
  isWhiteSpace ch = false /\ isLineTerminator ch = false
  /\ N.eqb ch rparen = false /\ N.eqb ch lparen = false
  /\ N.eqb ch comma = false.
Proof.
  unfold number_char. intros H. apply orb_prop in H. destruct H as [H | H].
  - unfold isDigit in H. apply andb_prop in H. destruct H as [L U].
    apply N.leb_le in L. apply N.leb_le in U.
    unfold isWhiteSpace, isLineTerminator, rparen, lparen, comma.
    cbn [existsb].
    repeat match goal with
    | |- context [N.eqb ch ?k] =>
        rewrite (proj2 (N.eqb_neq ch k)) by lia
    end.
    repeat split.
  - cbn [existsb] in H.
    repeat (apply orb_prop in H; destruct H as [H | H]);
      try discriminate H; apply N.eqb_eq in H; subst ch;
      repeat split.
Qed.

Lemma toString_token (x : number) : token (toString x).
Proof.
  split; [apply toString_nonempty|].
  apply forallb_forall. intros ch I.
  pose proof (toString_chars x) as C. rewrite forallb_forall in C.
  destruct (@number_char_cases ch (C ch I)) as (W & _). rewrite W. reflexivity.
Qed.

(** Reading back what was written: a decimal comes back as it was, the
    sign of a negative zero is lost. *)
Example reread_examples :
  swapped (dec 13405 (-3), dec 5252 (-2)) = (dec 5252 (-2), dec 13405 (-3))
  /\ reread (Fin true 25 (-1)) = Fin true 25 (-1)
  /\ reread (dec 1 21) = dec 1 21
  /\ reread (dec 1 (-7)) = dec 1 (-7)
  /\ reread NaN = NaN
  /\ reread (Infinity true) = Infinity true
  /\ reread (Fin true 0 0) = Fin false 0 0.
Proof. repeat split; vm_compute; reflexivity. Qed.

End NumberTexts.

(** * Numbers written and read back *)

Section NumberRoundTrip.

Lemma N_of_digits_fold (d : jsstring) :
  N_of_digits d = fold_left add_digit d 0%N.
Proof. reflexivity. Qed.

Lemma digits_fuel_value (fuel : nat) :
  forall n acc,
    (n < 2 ^ N.of_nat fuel)%N ->
    fold_left add_digit (digits_fuel fuel n acc) 0%N
    = fold_left add_digit acc n.
Proof.
  induction fuel as [|f IH]; intros n acc L.
  - cbn [digits_fuel]. change (2 ^ N.of_nat 0)%N with 1%N in L.
    replace n with 0%N by lia. reflexivity.
  - cbn [digits_fuel]. cbv zeta. destruct (n <? 10)%N eqn:E.
    + apply N.ltb_lt in E. cbn [fold_left]. unfold add_digit at 2.
      rewrite N.mod_small by exact E.
      replace (10 * 0 + (48 + n - 48))%N with n by lia. reflexivity.
    + apply N.ltb_ge in E. rewrite IH.
      * cbn [fold_left]. unfold add_digit at 2.
        replace (10 * (n / 10) + (48 + n mod 10 - 48))%N with n;
          [reflexivity|].
        assert (DM : n = (10 * (n / 10) + n mod 10)%N)
          by (apply N.div_mod; discriminate).
        revert DM. generalize (n / 10)%N (n mod 10)%N. intros q r DM. lia.
      * rewrite Nat2N.inj_succ, N.pow_succ_r' in L.
        apply N.Div0.div_lt_upper_bound.
        assert (0 < 2 ^ N.of_nat f)%N
          by (apply N.neq_0_lt_0, N.pow_nonzero; discriminate).
        lia.
Qed.

(** The digits of a number denote the number. *)
Lemma digits_value (n : N) : N_of_digits (digits_of_N n) = n.
Proof.
  rewrite N_of_digits_fold. unfold digits_of_N.
  rewrite digits_fuel_value; [reflexivity|].
  rewrite Nat2N.inj_succ, N2Nat.id.
  destruct n as [|p]; [reflexivity|].
  apply N.log2_spec. reflexivity.
Qed.

Lemma zeros_value (z : nat) :
  forall a, fold_left add_digit (repeat 48%N z) a = (a * 10 ^ N.of_nat z)%N.
Proof.
  induction z as [|z IH]; intros a.
  - cbn. lia.
  - cbn [repeat fold_left]. rewrite IH. unfold add_digit.
    rewrite Nat2N.inj_succ, N.pow_succ_r'. lia.
Qed.

Lemma span_digits (d : jsstring) (rest : jsstring) :
  forallb isDigit d = true ->
  match rest with [] => True | c :: _ => isDigit c = false end ->
  span isDigit (d ++ rest) = (d, rest).
Proof.
  intros D R. induction d as [|x d IH].
  - cbn [app]. destruct rest as [|c rest]; [reflexivity|].
    cbn [span]. rewrite R. reflexivity.
  - cbn [forallb] in D. apply andb_prop in D. destruct D as [Dx D].
    cbn [app span]. rewrite Dx, (IH D). reflexivity.
Qed.

Lemma span_all_digits (d : jsstring) :
  forallb isDigit d = true -> span isDigit d = (d, []).
Proof.
  intros D. rewrite <- (app_nil_r d) at 1. apply span_digits; auto.
Qed.

(** The zeros at the end of a mantissa go to the exponent. *)
Lemma strip_zeros_power (m : N) (z : nat) :
  m <> 0%N -> (m mod 10)%N <> 0%N ->
  forall fuel e0,
    z < fuel ->
    strip_zeros fuel (m * 10 ^ N.of_nat z) e0 = (m, (e0 + Z.of_nat z)%Z).
Proof.
  intros M0 M10. induction z as [|z IH]; intros fuel e0 L.
  - destruct fuel as [|f]; [lia|]. cbn [strip_zeros].
    change (10 ^ N.of_nat 0)%N with 1%N. rewrite N.mul_1_r.
    rewrite (proj2 (N.eqb_neq m 0)) by exact M0.
    rewrite (proj2 (N.eqb_neq (m mod 10) 0)) by exact M10.
    rewrite Z.add_0_r. reflexivity.
  - destruct fuel as [|f]; [lia|]. cbn [strip_zeros].
    rewrite Nat2N.inj_succ, N.pow_succ_r'.
    replace (m * (10 * 10 ^ N.of_nat z))%N
      with ((m * 10 ^ N.of_nat z) * 10)%N by lia.
    assert (P : (m * 10 ^ N.of_nat z <> 0)%N).
    { apply N.neq_mul_0. split; [exact M0|].
      apply N.pow_nonzero. discriminate. }
    rewrite (proj2 (N.eqb_neq _ 0))
      by (apply N.neq_mul_0; split; [exact P | discriminate]).
    rewrite N.Div0.mod_mul. cbn [N.eqb].
    rewrite N.div_mul by discriminate.
    rewrite IH by lia. f_equal. lia.
Qed.

Lemma normalize_power (m : N) (z : nat) :
  m <> 0%N -> (m mod 10)%N <> 0%N ->
  normalize (m * 10 ^ N.of_nat z) 0 = (m, Z.of_nat z).
Proof.
  intros M0 M10. unfold normalize.
  rewrite strip_zeros_power; try assumption; [reflexivity|].
  assert (L : (N.of_nat z <= N.log2 (m * 10 ^ N.of_nat z))%N).
  { rewrite <- (N.log2_pow2 (N.of_nat z)) at 1 by lia.
    apply N.log2_le_mono.
    assert (2 ^ N.of_nat z <= 10 ^ N.of_nat z)%N
      by (apply N.pow_le_mono_l; lia).
    nia. }
  lia.
Qed.

Lemma normalize_canonical (m : N) (e : Z) :
  m <> 0%N -> (m mod 10)%N <> 0%N -> normalize m e = (m, e).
Proof.
  intros M0 M10. unfold normalize. cbn [strip_zeros].
  rewrite (proj2 (N.eqb_neq m 0)) by exact M0.
  rewrite (proj2 (N.eqb_neq (m mod 10) 0)) by exact M10. reflexivity.
Qed.

Lemma digit_bounds (d : char) :
  isDigit d = true -> (48 <= d)%N /\ (d <= 57)%N.
Proof.
  unfold isDigit. intros H. apply andb_prop in H. destruct H as [L U].
  apply N.leb_le in L. apply N.leb_le in U. auto.
Qed.

(** parseFloat on a sign and digits. *)
Lemma parseFloat_signed (neg : bool) (body : jsstring) :
  digit_first body = true ->
  parseFloat ((if neg then js "-" else []) ++ body) = read_digits neg body.
Proof.
  destruct body as [|d b]; [discriminate|]. cbn [digit_first]. intros D.
  assert (W : isWhiteSpace d = false).
  { assert (C : number_char d = true)
      by (unfold number_char; rewrite D; reflexivity).
    destruct (@number_char_cases _ C) as (W & _). exact W. }
  destruct (@digit_bounds _ D) as [L U].
  assert (I : starts_with (js "Infinity") (d :: b) = false).
  { change (js "Infinity") with (73%N :: js "nfinity").
    cbn [starts_with]. rewrite (proj2 (N.eqb_neq 73 d)) by lia.
    reflexivity. }
  unfold parseFloat. destruct neg.
  - change (js "-" ++ d :: b) with (45%N :: d :: b).
    cbn [trimStart]. change (isWhiteSpace 45%N) with false. cbv iota.
    change (N.eqb 45 45) with true. cbv iota beta. rewrite I.
    reflexivity.
  - cbn [app trimStart]. rewrite W.
    rewrite (proj2 (N.eqb_neq d 45)), (proj2 (N.eqb_neq d 43)) by lia.
    cbv iota beta. rewrite I. reflexivity.
Qed.

Lemma read_integer (neg : bool) (body : jsstring) :
  body <> [] -> forallb isDigit body = true ->
  read_digits neg body = mkFin neg (N_of_digits body) 0.
Proof.
  intros N D. unfold read_digits. rewrite span_all_digits by exact D.
  destruct body; [contradiction | reflexivity].
Qed.

Lemma not_digit_point : isDigit 46%N = false.
Proof. reflexivity. Qed.

Lemma read_fraction (neg : bool) (d1 d2 ex : jsstring) :
  d1 <> [] ->
  forallb isDigit d1 = true -> forallb isDigit d2 = true ->
  match ex with [] => True | c :: _ => isDigit c = false end ->
  read_digits neg (d1 ++ 46%N :: d2 ++ ex)
  = mkFin neg (N_of_digits (d1 ++ d2))
      (exponent_part ex - Z.of_nat (length d2)).
Proof.
  intros N D1 D2 E. unfold read_digits.
  rewrite (span_digits d1 (46%N :: d2 ++ ex) D1 not_digit_point).
  rewrite (span_digits d2 ex D2 E).
  destruct d1; [contradiction | reflexivity].
Qed.

Lemma read_exponent (neg : bool) (d1 ex : jsstring) (c : char) :
  d1 <> [] -> forallb isDigit d1 = true ->
  isDigit c = false -> N.eqb c 46 = false ->
  read_digits neg (d1 ++ c :: ex)
  = mkFin neg (N_of_digits d1) (exponent_part (c :: ex)).
Proof.
  intros N D1 C P. unfold read_digits.
  rewrite (span_digits d1 (c :: ex) D1 C).
  destruct d1; [contradiction|].
  destruct c as [|p]; [reflexivity|].
  do 6 (try (destruct p as [p|p|]; try reflexivity)).
  discriminate P.
Qed.

Lemma exponent_value (b : bool) (a : N) :
  exponent_part (js "e" ++ (if b then js "-" else js "+") ++ digits_of_N a)
  = if b then (- Z.of_N a)%Z else Z.of_N a.
Proof.
  pose proof (digits_chars a) as D. pose proof (digits_nonempty a) as N.
  pose proof (digits_value a) as V.
  revert D N V. generalize (digits_of_N a) as ds. intros ds D N V.
  destruct b.
  - change (js "e" ++ js "-" ++ ds) with (101%N :: 45%N :: ds).
    unfold exponent_part. cbn [N.eqb Pos.eqb orb].
    rewrite span_all_digits by exact D.
    destruct ds; [contradiction|]. rewrite V. reflexivity.
  - change (js "e" ++ js "+" ++ ds) with (101%N :: 43%N :: ds).
    unfold exponent_part. cbn [N.eqb Pos.eqb orb].
    rewrite span_all_digits by exact D.
    destruct ds; [contradiction|]. rewrite V. reflexivity.
Qed.

Lemma mkFin_canonical (neg : bool) (m : N) (e : Z) :
  m <> 0%N -> (m mod 10)%N <> 0%N -> mkFin neg m e = Fin neg m e.
Proof.
  intros M0 M10. unfold mkFin. rewrite normalize_canonical by assumption.
  reflexivity.
Qed.

Lemma digit_first_app (s rest : jsstring) :
  s <> [] -> forallb isDigit s = true -> digit_first (s ++ rest) = true.
Proof.
  intros N D. destruct s as [|c s]; [contradiction|].
  cbn [forallb] in D. apply andb_prop in D. destruct D as [Dc _].
  exact Dc.
Qed.

Lemma firstn_nonempty (A : Type) (n : nat) (s : list A) :
  0 < n -> s <> [] -> firstn n s <> [].
Proof.
  intros Ln Ns. destruct n as [|n]; [lia|].
  destruct s; [contradiction | discriminate].
Qed.

(** A canonical number is read back from its text as it was. *)
Lemma reread_canonical (x : number) : canonical x = true -> reread x = x.
Proof.
  destruct x as [|neg|neg m e]; intros C.
  - reflexivity.
  - destruct neg; reflexivity.
  - cbn [canonical] in C. destruct (m =? 0)%N eqn:M0.
    + apply N.eqb_eq in M0. apply andb_prop in C. destruct C as [E Ng].
      apply Z.eqb_eq in E. apply negb_true_iff in Ng. subst. reflexivity.
    + apply N.eqb_neq in M0. apply negb_true_iff, N.eqb_neq in C.
      unfold reread, toString.
      rewrite normalize_canonical by assumption.
      rewrite (proj2 (N.eqb_neq m 0)) by assumption. cbv zeta.
      pose proof (digits_chars m) as D.
      pose proof (digits_nonempty m) as Ns.
      pose proof (digits_value m) as V.
      revert D Ns V. generalize (digits_of_N m) as s. intros s D Ns V.
      assert (K : (1 <= Z.of_nat (length s))%Z)
        by (destruct s; [contradiction | cbn [length]; lia]).
      remember (Z.of_nat (length s)) as k eqn:Ek.
      destruct ((k <=? k + e) && (k + e <=? 21))%Z eqn:A.
      * apply andb_prop in A. destruct A as [A1 A2].
        apply Z.leb_le in A1.
        rewrite parseFloat_signed by (apply digit_first_app; assumption).
        rewrite read_integer.
        -- rewrite N_of_digits_fold, fold_left_app, <- N_of_digits_fold, V.
           rewrite zeros_value. unfold mkFin.
           rewrite normalize_power by assumption. f_equal. lia.
        -- destruct s; [contradiction | discriminate].
        -- rewrite forallb_app, D. apply forallb_repeat. reflexivity.
      * assert (A' : (k + e < k \/ 21 < k + e)%Z).
        { apply andb_false_iff in A. destruct A as [A | A];
            apply Z.leb_gt in A; lia. }
        clear A. destruct ((0 <? k + e) && (k + e <=? 21))%Z eqn:B.
        -- apply andb_prop in B. destruct B as [B1 B2].
           apply Z.ltb_lt in B1. apply Z.leb_le in B2.
           change (js "." ++ skipn (Z.to_nat (k + e)) s)
             with (46%N :: skipn (Z.to_nat (k + e)) s).
           rewrite <- (app_nil_r (skipn (Z.to_nat (k + e)) s)).
           assert (F : firstn (Z.to_nat (k + e)) s <> [])
             by (apply firstn_nonempty; [lia | exact Ns]).
           rewrite parseFloat_signed
             by (apply digit_first_app;
                 [exact F | apply forallb_firstn; exact D]).
           rewrite read_fraction;
             [ | exact F | apply forallb_firstn; exact D
               | apply forallb_skipn; exact D | exact I].
           rewrite firstn_skipn, V, length_skipn.
           rewrite mkFin_canonical by assumption. f_equal.
           cbn [exponent_part]. unfold jsstring, char in *. lia.
        -- assert (B' : (k + e <= 0 \/ 21 < k + e)%Z).
           { apply andb_false_iff in B. destruct B as [B | B];
               [apply Z.ltb_ge in B | apply Z.leb_gt in B]; lia. }
           clear B. destruct ((-6 <? k + e) && (k + e <=? 0))%Z eqn:S3.
           ++ apply andb_prop in S3. destruct S3 as [S1 S2].
              apply Z.ltb_lt in S1. apply Z.leb_le in S2.
              change (js "0." ++ repeat 48%N (Z.to_nat (- (k + e))) ++ s)
                with ([48%N] ++ 46%N
                        :: repeat 48%N (Z.to_nat (- (k + e))) ++ s).
              rewrite <- (app_nil_r (repeat 48%N _ ++ s)).
              rewrite parseFloat_signed by reflexivity.
              rewrite read_fraction;
                [ | discriminate | reflexivity
                  | rewrite forallb_app; apply andb_true_intro; split;
                    [apply forallb_repeat; reflexivity | exact D]
                  | exact I].
              rewrite length_app, repeat_length.
              assert (Vz : N_of_digits
                             ([48%N] ++ repeat 48%N (Z.to_nat (- (k + e)))
                              ++ s) = m).
              { rewrite N_of_digits_fold. cbn [app fold_left].
                rewrite fold_left_app, zeros_value.
                change (add_digit 0%N 48%N) with 0%N. rewrite N.mul_0_l.
                exact V. }
              rewrite <- (@mkFin_canonical neg m e M0 C).
              f_equal; [exact Vz|]. cbn [exponent_part]. unfold jsstring, char in *. lia.
           ++ assert (S' : (k + e <= -6 \/ 21 < k + e)%Z).
              { apply andb_false_iff in S3. destruct S3 as [S3 | S3];
                  [apply Z.ltb_ge in S3 | apply Z.leb_gt in S3]; lia. }
              clear S3.
              assert (X : forall (b : bool) (a : N),
                         match js "e" ++ (if b then js "-" else js "+")
                                 ++ digits_of_N a with
                         | [] => True
                         | c :: _ => isDigit c = false
                         end) by (intros b a; reflexivity).
              assert (Xv : exponent_part
                             (js "e"
                              ++ (if (k + e - 1 <? 0)%Z then js "-"
                                  else js "+")
                              ++ digits_of_N (Z.abs_N (k + e - 1)))
                           = (k + e - 1)%Z).
              { rewrite exponent_value, N2Z.inj_abs_N.
                destruct (k + e - 1 <? 0)%Z eqn:Sg;
                  [apply Z.ltb_lt in Sg | apply Z.ltb_ge in Sg]; lia. }
              destruct s as [|d [|d' ds]]; [contradiction | |].
              ** change ([d] ++ js "e" ++ ?t) with ([d] ++ 101%N :: t)
                   at 1.
                 rewrite parseFloat_signed
                   by (apply digit_first_app; [discriminate | exact D]).
                 change (js "e" ++ ?t) with (101%N :: t) in Xv.
                 rewrite read_exponent;
                   [ | discriminate | exact D | reflexivity | reflexivity].
                 rewrite <- (@mkFin_canonical neg m e M0 C).
                 f_equal; [exact V|].
                 etransitivity; [exact Xv|].
                 cbn [length] in Ek. unfold jsstring, char in *. lia.
              ** change ([d] ++ js "." ++ (d' :: ds) ++ ?t)
                   with ([d] ++ 46%N :: (d' :: ds) ++ t).
                 cbn [forallb] in D. apply andb_prop in D.
                 destruct D as [Dd D].
                 rewrite parseFloat_signed by (exact Dd).
                 rewrite read_fraction;
                   [ | discriminate | cbn [forallb]; rewrite Dd; reflexivity
                     | exact D | apply X].
                 rewrite <- (@mkFin_canonical neg m e M0 C).
                 f_equal; [exact V|].
                 assert (G : forall a b c : Z,
                            a = b -> (b - c)%Z = e -> (a - c)%Z = e)
                   by (intros a b c Hab Hbc; subst a; exact Hbc).
                 apply (G _ _ _ Xv).
                 cbn [length] in *. unfold jsstring, char in *. lia.
Qed.

Lemma swapped_canonical (p : position) :
  canonical_position p = true -> swapped p = swap p.
Proof.
  unfold canonical_position, swapped, swap. intros C.
  apply andb_prop in C. destruct C as [C1 C2].
  rewrite (reread_canonical _ C1), (reread_canonical _ C2). reflexivity.
Qed.

Lemma map_swapped_canonical (cs : list position) :
  forallb canonical_position cs = true -> map swapped cs = map swap cs.
Proof.
  intros C. apply map_ext_in. intros p I. apply swapped_canonical.
  rewrite forallb_forall in C. exact (C p I).
Qed.

End NumberRoundTrip.

Section Matching.

(** The type word matches itself. *)
Lemma word_ci_matches (w : jsstring) (r : regex) (k : cont) :
  forallb (fun x => N.eqb (upcase x) x) w = true ->
  forall i s c,
    rmatch (Seq (word_ci w) r) i (w ++ s) c k
    = rmatch r (i + length w) s c k.
Proof.
  induction w as [|x w IH]; intros U i s c.
  - cbn [word_ci rmatch app length]. rewrite Nat.add_0_r. reflexivity.
  - cbn [forallb] in U. apply andb_prop in U. destruct U as [Ux U].
    cbn [word_ci rmatch app length lit_ci]. rewrite Ux.
    rewrite <- Nat.add_succ_comm. exact (IH U (S i) s c).
Qed.

(** A repetition of [\s] in front of a character that is no white space
    matches nothing. *)
Lemma ws_star_skip (k : cont) (i : nat) (x : char) (s : jsstring)
  (c : caps) :
  isWhiteSpace x = false ->
  rmatch (Star true ws) i (x :: s) c k = k i (x :: s) c.
Proof.
  intros W. cbn [rmatch star_loop length ws]. cbv zeta. rewrite W.
  reflexivity.
Qed.

(** The lazy [(.*?)] followed by [\)] takes everything up to the first
    closing parenthesis. *)
Lemma lazy_dots_reach_rparen (body : jsstring) :
  forall fuel i0 s0 pre i rest c,
    s0 = pre ++ body ++ rparen :: rest ->
    i0 <= i -> i - i0 = length pre ->
    no_rparen body = true ->
    forallb (fun ch => negb (isLineTerminator ch)) body = true ->
    length body <= fuel ->
    star_loop false (rmatch dot) (close_group i0 s0) fuel i
      (body ++ rparen :: rest) c
    = Some (S (i + length body), rest, (1, pre ++ body) :: c).
Proof.
  induction body as [|x body IH];
    intros fuel i0 s0 pre i rest c E0 Li Lp NP NL Lf.
  - assert (K : close_group i0 s0 i (rparen :: rest) c
                = Some (S i, rest, (1, pre) :: c)).
    { unfold close_group, lit. cbn [rmatch]. rewrite N.eqb_refl.
      unfold accept. rewrite Lp, E0, firstn_app, Nat.sub_diag, firstn_all.
      cbn [firstn]. rewrite app_nil_r. reflexivity. }
    cbn [app length]. rewrite Nat.add_0_r, app_nil_r.
    destruct fuel as [|f]; cbn [star_loop]; cbv zeta; rewrite K; reflexivity.
  - destruct fuel as [|f]; [cbn in Lf; lia|].
    unfold no_rparen in NP. cbn [forallb] in NP, NL.
    apply andb_prop in NP. destruct NP as [Nx NP].
    apply andb_prop in NL. destruct NL as [Dx NL].
    cbn [star_loop app]. cbv zeta.
    assert (K : close_group i0 s0 i (x :: body ++ rparen :: rest) c = None).
    { unfold close_group, lit. cbn [rmatch].
      apply negb_true_iff in Nx. rewrite N.eqb_sym, Nx. reflexivity. }
    rewrite K. cbn [orelse]. unfold dot at 1. cbn [rmatch]. rewrite Dx.
    rewrite (proj2 (Nat.eqb_neq (S i) i)) by lia.
    rewrite (IH f i0 s0 (pre ++ [x]) (S i) rest c).
    + cbn [length]. rewrite <- app_assoc, Nat.add_succ_r. reflexivity.
    + rewrite E0, <- app_assoc. reflexivity.
    + lia.
    + rewrite length_app. cbn [length]. lia.
    + exact NP.
    + exact NL.
    + cbn [length] in Lf. lia.
Qed.

Lemma keyword_capitals (k : kind) :
  forallb (fun x => N.eqb (upcase x) x) (keyword k) = true.
Proof. destruct k; reflexivity. Qed.

(** The extraction pattern of a type with a body, on a text that starts
    with the type word and a parenthesis: the body is what stands before
    the first closing parenthesis. *)
Lemma body_re_captures (k : kind) (body rest : jsstring) :
  no_rparen body = true ->
  forallb (fun ch => negb (isLineTerminator ch)) body = true ->
  exec (body_re k) (keyword k ++ lparen :: body ++ rparen :: rest)
  = Some [(1, body)].
Proof.
  intros NP NL.
  assert (M : exists e,
             rmatch (body_re k) 0
               (keyword k ++ lparen :: body ++ rparen :: rest) [] accept
             = Some (e, rest, [(1, body)])).
  { unfold body_re.
    rewrite word_ci_matches by apply keyword_capitals.
    rewrite rmatch_seq, ws_star_skip by reflexivity. cbv beta.
    rewrite rmatch_seq. unfold lit at 1. cbn [rmatch]. cbn [N.eqb lparen].
    rewrite Pos.eqb_refl.
    eexists.
    apply (@lazy_dots_reach_rparen body _ _ (body ++ rparen :: rest) []);
      try assumption; try reflexivity; try lia.
    - cbn [length]. lia.
    - rewrite length_app. lia. }
  destruct M as (e & M). unfold exec.
  destruct (keyword k ++ lparen :: body ++ rparen :: rest) as [|x s];
    cbn [search]; rewrite M; reflexivity.
Qed.

(** The type test [/^KEYWORD\s*\(/i] on such a text. *)
Lemma prefix_re_accepts (k : kind) (rest : jsstring) :
  test (prefix_re k) (keyword k ++ lparen :: rest) = true.
Proof.
  assert (M : rmatch (prefix_re k) 0 (keyword k ++ lparen :: rest) []
                accept <> None).
  { unfold prefix_re. rewrite rmatch_seq.
    change (rmatch Bol 0 ?s ?c ?k0) with (k0 0 s c). cbv beta.
    rewrite word_ci_matches by apply keyword_capitals.
    rewrite rmatch_seq, ws_star_skip by reflexivity. cbv beta.
    unfold lit. cbn [rmatch]. cbn [N.eqb lparen]. rewrite Pos.eqb_refl.
    discriminate. }
  unfold test, exec.
  destruct (keyword k ++ lparen :: rest) as [|x s]; cbn [search];
    destruct (rmatch (prefix_re k) 0 _ [] accept) as [[[e se] c]|];
    try reflexivity; contradiction.
Qed.

(** A text between two characters that are no white space is trimmed to
    itself. *)
Lemma trim_between (x y : char) (mid : jsstring) :
  isWhiteSpace x = false -> isWhiteSpace y = false ->
  trim (x :: mid ++ [y]) = x :: mid ++ [y].
Proof.
  intros Wx Wy. unfold trim, trimEnd. cbn [trimStart]. rewrite Wx.
  change (x :: mid ++ [y]) with ((x :: mid) ++ [y]).
  rewrite rev_app_distr. cbn [rev app trimStart]. rewrite Wy.
  cbn [rev]. rewrite rev_app_distr, rev_involutive. reflexivity.
Qed.

Lemma trim_written (k : kind) (inner : jsstring) :
  trim (keyword k ++ lparen :: inner ++ [rparen])
  = keyword k ++ lparen :: inner ++ [rparen].
Proof.
  assert (E : exists x w, keyword k = x :: w /\ isWhiteSpace x = false)
    by (destruct k; eexists; eexists; split; reflexivity).
  destruct E as (x & w & -> & Wx).
  assert (R : (x :: w) ++ lparen :: inner ++ [rparen]
              = x :: (w ++ lparen :: inner) ++ [rparen])
    by (cbn [app]; rewrite <- app_assoc; reflexivity).
  rewrite R. apply trim_between; [exact Wx | reflexivity].
Qed.

End Matching.

Section WrittenCoordinates.

Lemma written_char_cases (ch : char) :
  written_char ch = true ->
  isLineTerminator ch = false
  /\ N.eqb ch rparen = false /\ N.eqb ch lparen = false.
Proof.
  unfold written_char. intros H.
  apply orb_prop in H. destruct H as [H | H];
    [apply orb_prop in H; destruct H as [H | H]|].
  - destruct (@number_char_cases _ H) as (_ & L & R & P & _). auto.
  - apply N.eqb_eq in H. subst ch. repeat split.
  - apply N.eqb_eq in H. subst ch. repeat split.
Qed.

Lemma pair_text_chars (p : position) :
  forallb (fun ch => number_char ch || N.eqb ch 32) (pair_text p) = true.
Proof.
  assert (T : forall x,
             forallb (fun ch => number_char ch || N.eqb ch 32) (toString x)
             = true).
  { intros x. pose proof (toString_chars x) as C.
    rewrite forallb_forall in *. intros ch I. rewrite (C ch I).
    reflexivity. }
  unfold pair_text. rewrite !forallb_app, !T. reflexivity.
Qed.

Lemma pair_text_written (p : position) :
  forallb written_char (pair_text p) = true.
Proof.
  pose proof (pair_text_chars p) as C. rewrite forallb_forall in *.
  intros ch I. unfold written_char. rewrite (C ch I). reflexivity.
Qed.

Lemma pair_text_no_comma (p : position) :
  forallb (fun ch => negb (N.eqb ch comma)) (pair_text p) = true.
Proof.
  pose proof (pair_text_chars p) as C. rewrite forallb_forall in *.
  intros ch I. specialize (C ch I). apply orb_prop in C.
  destruct C as [C | C].
  - destruct (@number_char_cases _ C) as (_ & _ & _ & _ & K). rewrite K.
    reflexivity.
  - apply N.eqb_eq in C. subst ch. reflexivity.
Qed.

Lemma join_written (l : list jsstring) :
  Forall (fun t => forallb written_char t = true) l ->
  forallb written_char (join (js ", ") l) = true.
Proof.
  induction 1 as [|t l Ht _ IH]; [reflexivity|].
  destruct l as [|t' l]; [exact Ht|].
  change (join (js ", ") (t :: t' :: l))
    with (t ++ js ", " ++ join (js ", ") (t' :: l)).
  rewrite !forallb_app, Ht, IH. reflexivity.
Qed.

Lemma coords_text_written (cs : list position) :
  forallb written_char (coords_text cs) = true.
Proof.
  unfold coords_text. apply join_written. apply Forall_forall.
  intros t I. apply in_map_iff in I. destruct I as (p & <- & _).
  apply pair_text_written.
Qed.

(** A written pair is read back with its numbers in the other order. *)
Lemma parse_pair_written (p : position) :
  parse_pair (pair_text p) = swapped p.
Proof.
  unfold parse_pair, pair_text. change (js " " ++ toString (snd p))
    with (32%N :: toString (snd p)).
  rewrite trim_two_tokens, split_two_tokens by apply toString_token.
  reflexivity.
Qed.

Lemma parse_pair_after_blank (s : jsstring) :
  parse_pair (32%N :: s) = parse_pair s.
Proof. reflexivity. Qed.

Lemma split_char_aux_run (sep : char) (run : jsstring) :
  forall cur s,
    forallb (fun ch => negb (N.eqb ch sep)) run = true ->
    split_char_aux sep cur (run ++ s) = split_char_aux sep (rev run ++ cur) s.
Proof.
  induction run as [|x run IH]; intros cur s N; [reflexivity|].
  cbn [forallb] in N. apply andb_prop in N. destruct N as [Nx N].
  apply negb_true_iff in Nx. cbn [app split_char_aux rev]. rewrite Nx.
  rewrite IH by exact N. rewrite <- app_assoc. reflexivity.
Qed.

(** Splitting at the commas gives back what was joined with ", ", each
    piece but the first behind a blank. *)
Lemma split_char_join (l : list jsstring) :
  Forall (fun t => forallb (fun ch => negb (N.eqb ch comma)) t = true) l ->
  forall t0 cur,
    forallb (fun ch => negb (N.eqb ch comma)) t0 = true ->
    split_char_aux comma cur (join (js ", ") (t0 :: l))
    = (rev cur ++ t0) :: map (cons 32%N) l.
Proof.
  induction 1 as [|t l Ht _ IH]; intros t0 cur H0.
  - cbn [join map]. rewrite <- (app_nil_r t0) at 1.
    rewrite split_char_aux_run by exact H0. cbn [split_char_aux].
    rewrite rev_app_distr, rev_involutive. reflexivity.
  - change (join (js ", ") (t0 :: t :: l))
      with (t0 ++ comma :: 32%N :: join (js ", ") (t :: l)).
    rewrite split_char_aux_run by exact H0.
    cbn [split_char_aux]. rewrite N.eqb_refl.
    change (N.eqb 32 comma) with false. cbv iota.
    f_equal.
    + rewrite rev_app_distr, rev_involutive. reflexivity.
    + exact (IH t [32%N] Ht).
Qed.

Lemma parse_points_written (cs : list position) :
  cs <> [] -> parse_points (coords_text cs) = map swapped cs.
Proof.
  destruct cs as [|p cs]; [contradiction|]. intros _.
  unfold parse_points, coords_text, split_char. cbn [map].
  rewrite split_char_join.
  - cbn [rev app map]. rewrite parse_pair_written. f_equal.
    rewrite !map_map. apply map_ext. intros q.
    rewrite parse_pair_after_blank. apply parse_pair_written.
  - apply Forall_forall. intros t I. apply in_map_iff in I.
    destruct I as (q & <- & _). apply pair_text_no_comma.
  - apply pair_text_no_comma.
Qed.

Lemma written_no_rparen (s : jsstring) :
  forallb written_char s = true -> no_rparen s = true.
Proof.
  intros H. unfold no_rparen. rewrite forallb_forall in *. intros ch I.
  destruct (@written_char_cases _ (H ch I)) as (_ & R & _). rewrite R.
  reflexivity.
Qed.

Lemma written_no_line_end (s : jsstring) :
  forallb written_char s = true ->
  forallb (fun ch => negb (isLineTerminator ch)) s = true.
Proof.
  intros H. rewrite forallb_forall in *. intros ch I.
  destruct (@written_char_cases _ (H ch I)) as (L & _). rewrite L.
  reflexivity.
Qed.

(** What the parser makes of a written text of a type with a body: the
    body is what stands before the first closing parenthesis. *)
Lemma written_text_parses (k : kind) (inner body rest : jsstring) :
  k <> KPoint ->
  inner ++ [rparen] = body ++ rparen :: rest ->
  no_rparen body = true ->
  forallb (fun ch => negb (isLineTerminator ch)) body = true ->
  wktToGeoJSONExtended (keyword k ++ lparen :: inner ++ [rparen])
  = rethrow invalid_wkt (build wktToGeoJSONExtended k [(1, body)]).
Proof.
  intros NK E NP NL. rewrite wktToGeoJSONExtended_unfold, trim_written.
  f_equal. apply branches_some.
  - apply prefix_re_accepts.
  - rewrite E. destruct k; try contradiction; cbn [extract_re];
      apply body_re_captures; assumption.
  - apply all_kinds.
Qed.

(** Writing a LineString and parsing the text gives the LineString back
    with the two numbers of every position exchanged: the serializer writes
    a position [lon, lat] as "lon lat", the parser returns such a token as
    [lat, lon].  The numbers themselves are those that parseFloat reads
    from the texts that were written; when every number is in canonical
    form these are the numbers that were written, and the result is the
    list of the exchanged positions. *)
Theorem linestring_round_trip_swaps (cs : list position) :
  cs <> [] ->
  round_trip (LineString cs) = Returns (LineString (map swapped cs))
  /\ (forallb canonical_position cs = true ->
      round_trip (LineString cs) = Returns (LineString (map swap cs))).
Proof.
  intros N.
  assert (R : round_trip (LineString cs)
              = Returns (LineString (map swapped cs))).
  { unfold round_trip.
    change (geoJSONToWKTExtended (LineString cs))
      with (Returns (A := jsstring)
              (keyword KLineString ++ lparen :: coords_text cs ++ [rparen])).
    cbv beta iota.
    rewrite (@written_text_parses KLineString (coords_text cs)
               (coords_text cs) []).
    - cbn [build rethrow]. unfold cap. cbn [group Nat.eqb].
      rewrite parse_points_written by exact N. reflexivity.
    - discriminate.
    - reflexivity.
    - apply written_no_rparen, coords_text_written.
    - apply written_no_line_end, coords_text_written. }
  split; [exact R|]. intros C.
  rewrite R, (map_swapped_canonical _ C). reflexivity.
Qed.

Lemma linestring_round_trip_swaps_witness :
  round_trip line_geojson
  = Returns (LineString (map swapped [(dec 13405 (-3), dec 5252 (-2));
                                      (dec 1341 (-2), dec 5253 (-2))]))
  /\ (forallb canonical_position [(dec 13405 (-3), dec 5252 (-2));
                                  (dec 1341 (-2), dec 5253 (-2))] = true ->
      round_trip line_geojson
      = Returns (LineString (map swap [(dec 13405 (-3), dec 5252 (-2));
                                       (dec 1341 (-2), dec 5253 (-2))]))).
Proof.
  apply (@linestring_round_trip_swaps
           [(dec 13405 (-3), dec 5252 (-2)); (dec 1341 (-2), dec 5253 (-2))]).
  discriminate.
Defined.

Lemma split_without_ring_end (sq : jsstring) :
  forall fuel p sp q acc,
    no_rparen sq = true ->
    split_loop fuel ring_sep_re p sp q sq acc = rev (sp :: acc).
Proof.
  induction sq as [|x sq IH]; intros fuel p sp q acc NP.
  - destruct fuel; reflexivity.
  - destruct fuel as [|f]; [reflexivity|].
    unfold no_rparen in NP. cbn [forallb] in NP.
    apply andb_prop in NP. destruct NP as [Nx NP].
    apply negb_true_iff in Nx.
    cbn [split_loop]. unfold ring_sep_re at 1, lit at 1. cbn [rmatch].
    rewrite N.eqb_sym, Nx. apply IH. exact NP.
Qed.

Lemma split_rings_of_one (body : jsstring) :
  body <> [] -> no_rparen body = true -> split ring_sep_re body = [body].
Proof.
  intros N NP. unfold split. destruct body as [|x body]; [contradiction|].
  rewrite split_without_ring_end by exact NP. reflexivity.
Qed.

(** Removing the matches of a character class leaves the other
    characters. *)
Lemma remove_loop_class (p : char -> bool) :
  forall fuel i s,
    length s < fuel ->
    remove_loop fuel (Chr p) i s = filter (fun x => negb (p x)) s.
Proof.
  induction fuel as [|f IH]; intros i s L; [lia|].
  destruct s as [|x s]; [reflexivity|].
  cbn [remove_loop rmatch filter length] in *. cbv zeta.
  destruct (p x); cbn [negb].
  - unfold accept. rewrite (proj2 (Nat.ltb_lt i (S i))) by lia.
    apply IH. lia.
  - rewrite IH by lia. reflexivity.
Qed.

Lemma filter_all (A : Type) (f : A -> bool) (l : list A) :
  forallb f l = true -> filter f l = l.
Proof.
  induction l as [|x l IH]; [reflexivity|]. cbn [forallb filter].
  intros H. apply andb_prop in H. destruct H as [Hx Hl].
  rewrite Hx, IH by exact Hl. reflexivity.
Qed.

Lemma ring_without_parens (cs : list position) :
  remove_all parens_re (lparen :: coords_text cs) = coords_text cs.
Proof.
  unfold remove_all, parens_re. rewrite remove_loop_class by lia.
  cbn [filter]. change (N.eqb lparen lparen) with true. cbn [orb negb].
  apply filter_all. pose proof (coords_text_written cs) as W.
  rewrite forallb_forall in *. intros ch I.
  destruct (@written_char_cases _ (W ch I)) as (_ & R & P).
  rewrite R, P. reflexivity.
Qed.

(** After the first ring of a written Polygon comes its closing
    parenthesis. *)
Lemma rings_text_first (ring : list position)
  (rest : list (list position)) :
  exists tail,
    rings_text (ring :: rest)
    = (lparen :: coords_text ring) ++ rparen :: tail.
Proof.
  unfold rings_text. cbn [map]. destruct (map ring_text rest) as [|t l].
  - exists []. reflexivity.
  - exists (js ", " ++ join (js ", ") (t :: l)).
    change (join (js ", ") (ring_text ring :: t :: l))
      with (ring_text ring ++ js ", " ++ join (js ", ") (t :: l)).
    unfold ring_text. rewrite <- !app_assoc. reflexivity.
Qed.

(** The body of a written list of rings is cut after the first ring, and
    read as that one ring. *)
Lemma written_rings_parse (k : kind) (ring : list position)
  (rest : list (list position)) :
  k <> KPoint -> ring <> [] ->
  wktToGeoJSONExtended
    (keyword k ++ lparen :: rings_text (ring :: rest) ++ [rparen])
  = rethrow invalid_wkt
      (build wktToGeoJSONExtended k [(1, lparen :: coords_text ring)])
  /\ parse_rings (lparen :: coords_text ring) = [map swapped ring].
Proof.
  intros NK N.
  destruct (rings_text_first ring rest) as (tail & E).
  assert (W : forallb written_char (coords_text ring) = true)
    by apply coords_text_written.
  assert (NP : no_rparen (lparen :: coords_text ring) = true).
  { unfold no_rparen. cbn [forallb].
    change (N.eqb lparen rparen) with false. cbn [negb andb].
    apply written_no_rparen. exact W. }
  split.
  - apply (@written_text_parses k (rings_text (ring :: rest))
             (lparen :: coords_text ring) (tail ++ [rparen])).
    + exact NK.
    + rewrite E, <- app_assoc. reflexivity.
    + exact NP.
    + cbn [forallb]. change (isLineTerminator lparen) with false.
      cbn [negb andb]. apply written_no_line_end. exact W.
  - unfold parse_rings. rewrite split_rings_of_one.
    + cbn [map]. rewrite ring_without_parens, parse_points_written
        by exact N. reflexivity.
    + discriminate.
    + exact NP.
Qed.

(** Writing a Polygon and parsing the text keeps the first ring only, and
    exchanges the two numbers of each of its positions: the lazy pattern
    of the body stops at the first closing parenthesis, which is the one
    of the first ring. *)
Theorem polygon_round_trip_keeps_first_ring (ring : list position)
  (rest : list (list position)) :
  ring <> [] ->
  round_trip (Polygon (ring :: rest))
  = Returns (Polygon [map swapped ring]).
Proof.
  intros N. unfold round_trip.
  change (geoJSONToWKTExtended (Polygon (ring :: rest)))
    with (Returns (A := jsstring)
            (keyword KPolygon ++ lparen :: rings_text (ring :: rest)
               ++ [rparen])).
  cbv beta iota.
  destruct (@written_rings_parse KPolygon ring rest) as (T & R);
    [discriminate | exact N |].
  rewrite T. cbn [build rethrow]. unfold cap. cbn [group Nat.eqb].
  rewrite R. reflexivity.
Qed.

Lemma polygon_round_trip_keeps_first_ring_witness :
  round_trip
    (Polygon [[(dec 0 0, dec 0 0); (dec 4 0, dec 0 0); (dec 0 0, dec 4 0);
               (dec 0 0, dec 0 0)];
              [(dec 1 0, dec 1 0); (dec 2 0, dec 1 0); (dec 1 0, dec 2 0);
               (dec 1 0, dec 1 0)]])
  = Returns
      (Polygon [map swapped [(dec 0 0, dec 0 0); (dec 4 0, dec 0 0);
                             (dec 0 0, dec 4 0); (dec 0 0, dec 0 0)]]).
Proof.
  apply (@polygon_round_trip_keeps_first_ring
           [(dec 0 0, dec 0 0); (dec 4 0, dec 0 0); (dec 0 0, dec 4 0);
            (dec 0 0, dec 0 0)]).
  discriminate.
Defined.

(** The same for a MultiLineString: only its first line comes back, with
    the two numbers of each position exchanged. *)
Theorem multilinestring_round_trip_keeps_first_line (line : list position)
  (rest : list (list position)) :
  line <> [] ->
  round_trip (MultiLineString (line :: rest))
  = Returns (MultiLineString [map swapped line]).
Proof.
  intros N. unfold round_trip.
  change (geoJSONToWKTExtended (MultiLineString (line :: rest)))
    with (Returns (A := jsstring)
            (keyword KMultiLineString ++ lparen
               :: rings_text (line :: rest) ++ [rparen])).
  cbv beta iota.
  destruct (@written_rings_parse KMultiLineString line rest) as (T & R);
    [discriminate | exact N |].
  rewrite T. cbn [build rethrow]. unfold cap. cbn [group Nat.eqb].
  rewrite R. reflexivity.
Qed.

Lemma multilinestring_round_trip_keeps_first_line_witness :
  round_trip
    (MultiLineString [[(dec 1 0, dec 2 0); (dec 3 0, dec 4 0)];
                      [(dec 5 0, dec 6 0); (dec 7 0, dec 8 0)]])
  = Returns
      (MultiLineString [map swapped [(dec 1 0, dec 2 0); (dec 3 0, dec 4 0)]]).
Proof.
  apply (@multilinestring_round_trip_keeps_first_line
           [(dec 1 0, dec 2 0); (dec 3 0, dec 4 0)]).
  discriminate.
Defined.

End WrittenCoordinates.

Section PageRoundTrip.

(** The two functions of the WKT page have the same defect between them:
    a non-empty LineString that the page writes and reads back has the
    two numbers of every position exchanged. *)
Theorem page_linestring_round_trip_swaps (cs : list position) :
  cs <> [] ->
  page_round_trip (LineString cs) = Returns (LineString (map swapped cs)).
Proof.
  intros N. unfold page_round_trip.
  change (geoJSONToWKT (LineString cs))
    with (Returns (A := jsstring)
            (keyword KLineString ++ lparen :: coords_text cs ++ [rparen])).
  cbv beta iota. unfold wktToGeoJSON. cbv zeta.
  rewrite trim_written.
  change (starts_with (js "POINT")
            (keyword KLineString ++ lparen :: coords_text cs ++ [rparen]))
    with false.
  change (starts_with (js "LINESTRING")
            (keyword KLineString ++ lparen :: coords_text cs ++ [rparen]))
    with true.
  cbv iota.
  rewrite (@body_re_captures KLineString (coords_text cs) []).
  - unfold cap. cbn [group Nat.eqb].
    rewrite parse_points_written by exact N. reflexivity.
  - apply written_no_rparen, coords_text_written.
  - apply written_no_line_end, coords_text_written.
Qed.

Lemma page_linestring_round_trip_swaps_witness :
  page_round_trip line_geojson
  = Returns (LineString (map swapped [(dec 13405 (-3), dec 5252 (-2));
                                      (dec 1341 (-2), dec 5253 (-2))])).
Proof.
  apply (@page_linestring_round_trip_swaps
           [(dec 13405 (-3), dec 5252 (-2)); (dec 1341 (-2), dec 5253 (-2))]).
  discriminate.
Defined.

End PageRoundTrip.

Section WrittenPoint.

Lemma rmatch_class_cons (p : char -> bool) i x s c (k : cont) :
  rmatch (Chr p) i (x :: s) c k = if p x then k (S i) s c else None.
Proof. reflexivity. Qed.

Lemma rmatch_class_nil (p : char -> bool) i c (k : cont) :
  rmatch (Chr p) i [] c k = None.
Proof. reflexivity. Qed.

(** A greedy repetition of a character class takes the whole run of
    characters of the class, when what follows can then be matched. *)
Lemma greedy_run (p : char -> bool) (k : cont) (run : jsstring) :
  forall fuel i rest c res,
    forallb p run = true ->
    match rest with [] => True | y :: _ => p y = false end ->
    length run <= fuel ->
    k (i + length run) rest c = Some res ->
    star_loop true (rmatch (Chr p)) k fuel i (run ++ rest) c = Some res.
Proof.
  induction run as [|x run IH]; intros fuel i rest c res P R L K.
  - cbn [app length] in *. rewrite Nat.add_0_r in K.
    destruct fuel as [|f]; [exact K|].
    cbn [star_loop]. cbv zeta.
    destruct rest as [|y rest].
    + rewrite rmatch_class_nil. exact K.
    + rewrite rmatch_class_cons, R. exact K.
  - destruct fuel as [|f]; [cbn in L; lia|].
    cbn [forallb] in P. apply andb_prop in P. destruct P as [Px P].
    cbn [star_loop app]. cbv zeta. rewrite rmatch_class_cons, Px.
    rewrite (proj2 (Nat.eqb_neq (S i) i)) by lia.
    rewrite (IH f (S i) rest c res); try assumption.
    + reflexivity.
    + cbn [length] in L. lia.
    + cbn [length] in K. rewrite <- Nat.add_succ_comm in K. exact K.
Qed.

(** A group [([...]+)] captures the run. *)
Lemma group_captures_run (n : nat) (p : char -> bool) (k : cont)
  (run rest : jsstring) (i : nat) (c : caps) (res : mres) :
  run <> [] ->
  forallb p run = true ->
  match rest with [] => True | y :: _ => p y = false end ->
  k (i + length run) rest ((n, run) :: c) = Some res ->
  rmatch (Group n (Plus true (Chr p))) i (run ++ rest) c k = Some res.
Proof.
  intros N P R K. destruct run as [|x run]; [contradiction|].
  cbn [forallb] in P. apply andb_prop in P. destruct P as [Px P].
  unfold Plus. rewrite rmatch_group, rmatch_seq. cbn [app].
  rewrite rmatch_class_cons, Px.
  change (rmatch (Star true (Chr p)) ?j ?s ?c0 ?k0)
    with (star_loop true (rmatch (Chr p)) k0 (S (length s)) j s c0).
  apply greedy_run; try assumption.
  - rewrite length_app. lia.
  - cbn [length] in K. rewrite <- Nat.add_succ_comm in K.
    replace (S i + length run - i) with (S (length run)) by lia.
    cbn [firstn]. rewrite firstn_app, Nat.sub_diag, firstn_all.
    cbn [firstn]. rewrite app_nil_r. exact K.
Qed.

Lemma plain_decimal_head (s : jsstring) :
  s <> [] -> plain_decimal s = true ->
  exists x s', s = x :: s' /\ isWhiteSpace x = false.
Proof.
  intros N P. destruct s as [|x s']; [contradiction|].
  exists x, s'. split; [reflexivity|].
  unfold plain_decimal in P. cbn [forallb] in P.
  apply andb_prop in P. destruct P as [Px _].
  apply orb_prop in Px. destruct Px as [Px | Px];
    [apply orb_prop in Px; destruct Px as [Px | Px]|].
  - apply N.eqb_eq in Px. subst x. reflexivity.
  - assert (C : number_char x = true)
      by (unfold number_char; rewrite Px; reflexivity).
    destruct (@number_char_cases _ C) as (W & _). exact W.
  - apply N.eqb_eq in Px. subst x. reflexivity.
Qed.

(** The Point pattern on a written Point whose two numbers are plain
    decimals. *)
Lemma point_re_captures (tx ty : jsstring) :
  tx <> [] -> ty <> [] ->
  plain_decimal tx = true -> plain_decimal ty = true ->
  exec point_re (keyword KPoint ++ lparen :: tx ++ 32%N :: ty ++ [rparen])
  = Some [(2, ty); (1, tx)].
Proof.
  intros Nx Ny Px Py.
  destruct (plain_decimal_head Nx Px) as (x0 & tx' & Ex & Wx).
  destruct (plain_decimal_head Ny Py) as (y0 & ty' & Ey & Wy).
  assert (M : exists e,
             rmatch point_re 0
               (keyword KPoint ++ lparen :: tx ++ 32%N :: ty ++ [rparen])
               [] accept
             = Some (e, [], [(2, ty); (1, tx)])).
  { subst tx ty. unfold point_re.
    rewrite word_ci_matches by apply keyword_capitals.
    rewrite rmatch_seq, ws_star_skip by reflexivity. cbv beta.
    rewrite rmatch_seq. unfold lit at 1.
    rewrite rmatch_class_cons. change (N.eqb lparen lparen) with true.
    cbv iota. cbn [app].
    rewrite rmatch_seq, ws_star_skip by exact Wx. cbv beta.
    rewrite rmatch_seq. eexists.
    unfold numch.
    apply (@group_captures_run 1 _ _ (x0 :: tx')
             (32%N :: y0 :: ty' ++ [rparen]));
      try assumption; [reflexivity|].
    rewrite rmatch_seq. unfold Plus at 1. rewrite rmatch_seq.
    unfold ws at 1. rewrite rmatch_class_cons.
    change (isWhiteSpace 32%N) with true. cbv iota. cbn [app].
    rewrite ws_star_skip by exact Wy. cbv beta.
    rewrite rmatch_seq.
    apply (@group_captures_run 2 _ _ (y0 :: ty') [rparen]);
      try assumption; [reflexivity|].
    rewrite rmatch_seq, ws_star_skip by reflexivity. cbv beta.
    unfold lit. rewrite rmatch_class_cons.
    change (N.eqb rparen rparen) with true. cbv iota.
    unfold accept. reflexivity. }
  destruct M as (e & M). unfold exec.
  destruct (keyword KPoint ++ lparen :: tx ++ 32%N :: ty ++ [rparen])
    as [|x s]; cbn [search]; rewrite M; reflexivity.
Qed.

(** Writing a Point and parsing the text gives the Point back with its
    two numbers exchanged, when both are written as plain decimals (a
    sign, digits, a point): these are the texts that the Point pattern
    [[-\d.]+] accepts.  The numbers are those that parseFloat reads from
    the texts; when both are in canonical form the result is the
    exchanged position itself. *)
Theorem point_round_trip_swaps (p : position) :
  plain_decimal (toString (fst p)) = true ->
  plain_decimal (toString (snd p)) = true ->
  round_trip (Point p) = Returns (Point (swapped p))
  /\ (canonical_position p = true ->
      round_trip (Point p) = Returns (Point (swap p))).
Proof.
  intros Px Py.
  assert (R : round_trip (Point p) = Returns (Point (swapped p))).
  { unfold round_trip.
    change (geoJSONToWKTExtended (Point p))
      with (Returns (A := jsstring)
              (keyword KPoint ++ lparen
                 :: (toString (fst p) ++ 32%N :: toString (snd p))
                 ++ [rparen])).
    cbv beta iota.
    rewrite wktToGeoJSONExtended_unfold, trim_written.
    rewrite (@branches_some wktToGeoJSONExtended _ KPoint
               [(2, toString (snd p)); (1, toString (fst p))]).
    - reflexivity.
    - apply prefix_re_accepts.
    - rewrite <- app_assoc. cbn [app extract_re].
      apply point_re_captures; try assumption; apply toString_nonempty.
    - apply all_kinds. }
  split; [exact R|]. intros C.
  rewrite R, (swapped_canonical _ C). reflexivity.
Qed.

Lemma point_round_trip_swaps_witness :
  round_trip (Point (dec 13405 (-3), dec 5252 (-2)))
  = Returns (Point (swapped (dec 13405 (-3), dec 5252 (-2))))
  /\ (canonical_position (dec 13405 (-3), dec 5252 (-2)) = true ->
      round_trip (Point (dec 13405 (-3), dec 5252 (-2)))
      = Returns (Point (swap (dec 13405 (-3), dec 5252 (-2))))).
Proof.
  apply (@point_round_trip_swaps (dec 13405 (-3), dec 5252 (-2)));
    vm_compute; reflexivity.
Defined.

(** A number that is written with an exponent, or as NaN or Infinity, is
    not accepted by the Point pattern: the round trip throws. *)
Example point_round_trip_throws :
  round_trip (Point (dec 1 21, dec 0 0)) = Throws invalid_wkt_message
  /\ round_trip (Point (NaN, dec 0 0)) = Throws invalid_wkt_message.
Proof. split; vm_compute; reflexivity. Qed.

End WrittenPoint.

Section WrittenCollection.

Lemma join_class (p : char -> bool) (sep : jsstring) (l : list jsstring) :
  forallb p sep = true ->
  Forall (fun t => forallb p t = true) l ->
  forallb p (join sep l) = true.
Proof.
  intros S. induction 1 as [|t l Ht _ IH]; [reflexivity|].
  destruct l as [|t' l]; [exact Ht|].
  change (join sep (t :: t' :: l)) with (t ++ sep ++ join sep (t' :: l)).
  rewrite !forallb_app, Ht, S, IH. reflexivity.
Qed.

Lemma pair_text_line (c : position) :
  forallb line_char (pair_text c) = true.
Proof. apply written_no_line_end, pair_text_written. Qed.

Lemma coords_text_line (cs : list position) :
  forallb line_char (coords_text cs) = true.
Proof. apply written_no_line_end, coords_text_written. Qed.

Lemma rings_text_line (rings : list (list position)) :
  forallb line_char (rings_text rings) = true.
Proof.
  unfold rings_text. apply join_class; [reflexivity|].
  apply Forall_forall. intros t I. apply in_map_iff in I.
  destruct I as (r & <- & _). unfold ring_text.
  rewrite !forallb_app, coords_text_line. reflexivity.
Qed.

(** The text of a geometry without unsupported member is written on one
    line. *)
Lemma written_on_one_line (g : geometry) :
  supported g = true ->
  exists t, geoJSONToWKTExtended g = Returns t
            /\ forallb line_char t = true.
Proof.
  induction g as [c | cs | rs | cs | ls | ps | gs IH | ty]
    using geometry_nested_ind; intros S.
  - eexists. split; [reflexivity|].
    rewrite !forallb_app, pair_text_line. reflexivity.
  - eexists. split; [reflexivity|].
    rewrite !forallb_app, coords_text_line. reflexivity.
  - eexists. split; [reflexivity|].
    rewrite !forallb_app, rings_text_line. reflexivity.
  - eexists. split; [reflexivity|].
    rewrite !forallb_app, coords_text_line. reflexivity.
  - eexists. split; [reflexivity|].
    rewrite !forallb_app, rings_text_line. reflexivity.
  - eexists. split; [reflexivity|].
    rewrite !forallb_app. rewrite join_class; [reflexivity | reflexivity|].
    apply Forall_forall. intros t I. apply in_map_iff in I.
    destruct I as (q & <- & _).
    rewrite !forallb_app, rings_text_line. reflexivity.
  - cbn [geoJSONToWKTExtended supported] in *.
    match goal with
    | |- context [(?each gs)] =>
        lazymatch each with
        | (fix f (l : list geometry) {struct l} : _ := _) => set (E := each)
        end
    end.
    assert (M : exists ts,
               E gs = Returns ts
               /\ Forall (fun t => forallb line_char t = true) ts).
    { induction IH as [|x l Hx _ IHl].
      - exists []. split; [reflexivity | constructor].
      - cbn [forallb] in S. apply andb_prop in S. destruct S as [Sx Sl].
        destruct (Hx Sx) as (t & Ht & Lt).
        destruct (IHl Sl) as (ts & Hts & Lts).
        exists (t :: ts). split; [|constructor; assumption].
        cbn. rewrite Ht. fold E. rewrite Hts. reflexivity. }
    destruct M as (ts & Hts & Lts). rewrite Hts.
    eexists. split; [reflexivity|].
    rewrite !forallb_app, join_class by (try reflexivity; exact Lts).
    reflexivity.
  - discriminate S.
Qed.

(** Up to the first closing parenthesis. *)
Lemma first_rparen (p : char -> bool) (s : jsstring) :
  forallb p s = true ->
  exists pre rest,
    s ++ [rparen] = pre ++ rparen :: rest
    /\ no_rparen pre = true /\ forallb p pre = true.
Proof.
  induction s as [|x s IH]; intros H.
  - exists [], []. auto.
  - cbn [forallb] in H. apply andb_prop in H. destruct H as [Hx H].
    destruct (N.eqb x rparen) eqn:E.
    + apply N.eqb_eq in E. subst x. exists [], (s ++ [rparen]). auto.
    + destruct (IH H) as (pre & rest & Es & NP & Pp).
      exists (x :: pre), rest. cbn [app]. rewrite Es.
      unfold no_rparen in *. cbn [forallb]. rewrite E, NP, Hx, Pp. auto.
Qed.

(** Writing a GeometryCollection and parsing the text gives an empty
    collection, whatever its members are: the body is cut at the first
    closing parenthesis, and the scan from its end finds no complete
    member in what is left. *)
Theorem collection_round_trip_is_empty (gs : list geometry) :
  forallb supported gs = true ->
  round_trip (GeometryCollection gs) = Returns (GeometryCollection []).
Proof.
  intros S. unfold round_trip.
  destruct (@written_on_one_line (GeometryCollection gs) S)
    as (t & Ht & Lt).
  rewrite Ht.
  assert (I : exists inner,
             t = keyword KGeometryCollection ++ lparen :: inner ++ [rparen]
             /\ forallb line_char inner = true).
  { cbn [geoJSONToWKTExtended] in Ht.
    match type of Ht with
    | context [(?each gs)] =>
        lazymatch each with
        | (fix f (l : list geometry) {struct l} : _ := _) =>
            destruct (each gs) as [ts | m |]
        end
    end; try discriminate Ht.
    assert (Et : t = js "GEOMETRYCOLLECTION(" ++ join (js ", ") ts ++ js ")")
      by (cbn [rethrow] in Ht; congruence).
    clear Ht. subst t.
    exists (join (js ", ") ts). split; [reflexivity|].
    rewrite !forallb_app in Lt.
    apply andb_prop in Lt. destruct Lt as [_ Lt].
    apply andb_prop in Lt. tauto. }
  destruct I as (inner & -> & Li).
  destruct (first_rparen line_char inner Li) as (pre & rest & E & NP & Lp).
  rewrite (@written_text_parses KGeometryCollection inner pre rest);
    try assumption; [|discriminate].
  cbn [build]. unfold cap. cbn [group Nat.eqb].
  change (@nil geometry) with (conversions wktToGeoJSONExtended []) at 1.
  rewrite (@collect_scan wktToGeoJSONExtended (length pre)).
  - cbn [rethrow]. rewrite conversions_of_singletons; [reflexivity|].
    apply scan_singletons; try lia; try reflexivity; [|constructor].
    unfold no_rparen in *. apply forallb_forall. intros x I.
    apply in_rev in I. revert x I. apply forallb_forall. exact NP.
  - intros w _. apply wktToGeoJSONExtended_total.
  - rewrite length_rev. cbn [length]. lia.
Qed.

Lemma collection_round_trip_is_empty_witness :
  round_trip
    (GeometryCollection [Point (dec 1 0, dec 2 0);
                         LineString [(dec 1 0, dec 2 0); (dec 3 0, dec 4 0)]])
  = Returns (GeometryCollection []).
Proof.
  apply (@collection_round_trip_is_empty
           [Point (dec 1 0, dec 2 0);
            LineString [(dec 1 0, dec 2 0); (dec 3 0, dec 4 0)]]).
  reflexivity.
Defined.

End WrittenCollection.

Section WrittenMultiPolygon.

Lemma split_without_polygon_end (sq : jsstring) :
  forall fuel p sp q acc,
    no_rparen sq = true ->
    split_loop fuel polygon_sep_re p sp q sq acc = rev (sp :: acc).
Proof.
  induction sq as [|x sq IH]; intros fuel p sp q acc NP.
  - destruct fuel; reflexivity.
  - destruct fuel as [|f]; [reflexivity|].
    unfold no_rparen in NP. cbn [forallb] in NP.
    apply andb_prop in NP. destruct NP as [Nx NP].
    apply negb_true_iff in Nx.
    cbn [split_loop]. unfold polygon_sep_re at 1, lit at 1. cbn [rmatch].
    rewrite N.eqb_sym, Nx. apply IH. exact NP.
Qed.

(** [/^\(|\)$/g] finds nothing behind the start of a text without closing
    parenthesis. *)
Lemma edge_parens_inside (s : jsstring) :
  forall fuel i,
    i <> 0 -> no_rparen s = true -> length s < fuel ->
    remove_loop fuel edge_parens_re i s = s.
Proof.
  induction s as [|x s IH]; intros fuel i Ni NP L.
  - destruct fuel as [|f]; [reflexivity|].
    cbn [remove_loop]. cbv zeta. unfold edge_parens_re. cbn [rmatch].
    rewrite (proj2 (Nat.eqb_neq i 0)) by exact Ni. reflexivity.
  - destruct fuel as [|f]; [cbn in L; lia|].
    unfold no_rparen in NP. cbn [forallb] in NP.
    apply andb_prop in NP. destruct NP as [Nx NP].
    apply negb_true_iff in Nx.
    cbn [remove_loop]. cbv zeta. unfold edge_parens_re at 1, lit.
    cbn [rmatch]. rewrite (proj2 (Nat.eqb_neq i 0)) by exact Ni.
    rewrite N.eqb_sym, Nx. cbn [orelse].
    rewrite IH; [reflexivity | lia | exact NP | cbn [length] in L; lia].
Qed.

Lemma remove_loop_step (f : nat) (r : regex) (i : nat) (s : jsstring) :
  remove_loop (S f) r i s
  = match rmatch r i s [] accept with
    | Some (e, se, _) =>
        if Nat.ltb i e then remove_loop f r e se
        else match s with
             | [] => []
             | x :: s' => x :: remove_loop f r (S i) s'
             end
    | None =>
        match s with
        | [] => []
        | x :: s' => x :: remove_loop f r (S i) s'
        end
    end.
Proof. reflexivity. Qed.

Lemma edge_parens_first (s : jsstring) :
  no_rparen s = true ->
  remove_all edge_parens_re (lparen :: s) = s.
Proof.
  intros NP. unfold remove_all. rewrite remove_loop_step.
  change (rmatch edge_parens_re 0 (lparen :: s) [] accept)
    with (Some (1, s, @nil (nat * jsstring))).
  cbv beta iota. change (Nat.ltb 0 1) with true. cbv iota.
  apply edge_parens_inside; [lia | exact NP | cbn [length]; lia].
Qed.

(** After the first ring of the first polygon of a written MultiPolygon
    comes its closing parenthesis. *)
Lemma polygons_text_first (ring : list position)
  (rings : list (list position)) (polys : list (list (list position))) :
  exists tail,
    join (js ", ")
      (map (fun p => js "(" ++ rings_text p ++ js ")")
         ((ring :: rings) :: polys))
    = (lparen :: lparen :: coords_text ring) ++ rparen :: tail.
Proof.
  destruct (rings_text_first ring rings) as (t1 & E1).
  cbn [map]. rewrite E1.
  destruct (map (fun p => js "(" ++ rings_text p ++ js ")") polys)
    as [|t l].
  - exists (t1 ++ js ")"). cbn [join].
    change (js "(") with [lparen]. cbn [app]. rewrite <- !app_assoc.
    reflexivity.
  - exists (t1 ++ js ")" ++ js ", " ++ join (js ", ") (t :: l)).
    match goal with
    | |- join ?sep (?x :: t :: l) = _ =>
        change (join sep (x :: t :: l)) with (x ++ sep ++ join sep (t :: l))
    end.
    change (js "(") with [lparen]. cbn [app]. rewrite <- !app_assoc.
    reflexivity.
Qed.

(** Writing a MultiPolygon and parsing the text keeps the first ring of
    the first polygon only, with the two numbers of each position
    exchanged. *)
Theorem multipolygon_round_trip_keeps_first_ring (ring : list position)
  (rings : list (list position)) (polys : list (list (list position))) :
  ring <> [] ->
  round_trip (MultiPolygon ((ring :: rings) :: polys))
  = Returns (MultiPolygon [[map swapped ring]]).
Proof.
  intros N. unfold round_trip.
  change (geoJSONToWKTExtended (MultiPolygon ((ring :: rings) :: polys)))
    with (Returns (A := jsstring)
            (keyword KMultiPolygon ++ lparen
               :: join (js ", ")
                    (map (fun p => js "(" ++ rings_text p ++ js ")")
                       ((ring :: rings) :: polys))
               ++ [rparen])).
  cbv beta iota.
  destruct (polygons_text_first ring rings polys) as (tail & E).
  assert (W : forallb written_char (coords_text ring) = true)
    by apply coords_text_written.
  assert (NP : no_rparen (lparen :: coords_text ring) = true).
  { unfold no_rparen. cbn [forallb].
    change (N.eqb lparen rparen) with false. cbn [negb andb].
    apply written_no_rparen. exact W. }
  assert (NP2 : no_rparen (lparen :: lparen :: coords_text ring) = true).
  { unfold no_rparen in *. cbn [forallb] in *.
    change (N.eqb lparen rparen) with false in *. exact NP. }
  rewrite (@written_text_parses KMultiPolygon _
             (lparen :: lparen :: coords_text ring) (tail ++ [rparen])).
  - cbn [build rethrow]. unfold cap. cbn [group Nat.eqb].
    unfold parse_polygons, split.
    rewrite split_without_polygon_end by exact NP2.
    cbn [rev app map]. rewrite edge_parens_first by exact NP.
    destruct (@written_rings_parse KPolygon ring []) as (_ & R);
      [discriminate | exact N |].
    rewrite R. reflexivity.
  - discriminate.
  - rewrite E, <- app_assoc. reflexivity.
  - exact NP2.
  - cbn [forallb]. change (isLineTerminator lparen) with false.
    cbn [negb andb]. apply written_no_line_end. exact W.
Qed.

Lemma multipolygon_round_trip_keeps_first_ring_witness :
  round_trip
    (MultiPolygon [[[(dec 0 0, dec 0 0); (dec 4 0, dec 0 0);
                     (dec 0 0, dec 4 0); (dec 0 0, dec 0 0)]];
                   [[(dec 5 0, dec 5 0); (dec 6 0, dec 5 0);
                     (dec 5 0, dec 6 0); (dec 5 0, dec 5 0)]]])
  = Returns
      (MultiPolygon [[map swapped [(dec 0 0, dec 0 0); (dec 4 0, dec 0 0);
                                   (dec 0 0, dec 4 0); (dec 0 0, dec 0 0)]]]).
Proof.
  apply (@multipolygon_round_trip_keeps_first_ring
           [(dec 0 0, dec 0 0); (dec 4 0, dec 0 0); (dec 0 0, dec 4 0);
            (dec 0 0, dec 0 0)]).
  discriminate.
Defined.

End WrittenMultiPolygon.

Section WrittenMultiPoint.

Lemma multipoint_sep_fails (q : nat) (x : char) (s : jsstring) :
  N.eqb x rparen = false -> N.eqb x comma = false ->
  rmatch multipoint_sep_re q (x :: s) [] accept = None.
Proof.
  intros R C. unfold multipoint_sep_re, ring_sep_re, lit. cbn [rmatch].
  rewrite (N.eqb_sym rparen x), (N.eqb_sym comma x), R, C. reflexivity.
Qed.

Lemma split_skips_piece (run : jsstring) :
  forall rest fuel p sp q acc,
    forallb (fun ch => negb (N.eqb ch rparen) && negb (N.eqb ch comma)) run
    = true ->
    length run <= fuel ->
    split_loop fuel multipoint_sep_re p sp q (run ++ rest) acc
    = split_loop (fuel - length run) multipoint_sep_re p sp
        (q + length run) rest acc.
Proof.
  induction run as [|ch run IH]; intros rest fuel p sp q acc W L.
  - cbn [app length]. rewrite Nat.sub_0_r, Nat.add_0_r. reflexivity.
  - cbn [forallb] in W. apply andb_prop in W. destruct W as [Wc W].
    apply andb_prop in Wc. destruct Wc as [Rc Cc].
    apply negb_true_iff in Rc. apply negb_true_iff in Cc.
    destruct fuel as [|fuel]; [cbn in L; lia|].
    cbn [split_loop app]. rewrite multipoint_sep_fails by assumption.
    rewrite IH by (try exact W; cbn [length] in L; lia).
    cbn [length]. rewrite <- Nat.add_succ_comm. reflexivity.
Qed.

(** A comma and a blank in front of a digit are a separator. *)
Lemma multipoint_sep_matches (q : nat) (d : char) (s : jsstring) :
  isDigit d = true ->
  rmatch multipoint_sep_re q (comma :: 32%N :: d :: s) [] accept
  = Some (S (S q), d :: s, []).
Proof.
  intros D.
  assert (W : isWhiteSpace d = false).
  { assert (C : number_char d = true)
      by (unfold number_char; rewrite D; reflexivity).
    destruct (@number_char_cases _ C) as (W & _). exact W. }
  unfold multipoint_sep_re, ring_sep_re, lit.
  change (rmatch (Alt ?a ?b) ?i ?t ?c ?k)
    with (orelse (rmatch a i t c k) (rmatch b i t c k)).
  rewrite rmatch_seq, rmatch_class_cons.
  change (N.eqb rparen comma) with false. cbv iota. cbn [orelse].
  rewrite rmatch_seq, rmatch_class_cons.
  change (N.eqb comma comma) with true. cbv iota.
  rewrite rmatch_seq.
  change (rmatch (Star true ws) ?j ?t ?c0 ?k0)
    with (star_loop true (rmatch (Chr isWhiteSpace)) k0 (S (length t)) j t
            c0).
  apply (@greedy_run isWhiteSpace _ [32%N]); try reflexivity.
  - exact W.
  - cbn [length]. lia.
  - cbn [length rmatch]. unfold digit. cbn [rmatch]. rewrite D.
    unfold accept. rewrite Nat.add_1_r. reflexivity.
Qed.

(** Splitting at the separators gives back the pieces that were joined
    with ", ", when each piece after the first begins with a digit. *)
Lemma split_multipoint_join (ts : list jsstring) :
  forall t0 fuel p acc,
    Forall (fun t =>
              forallb (fun ch => negb (N.eqb ch rparen)
                                 && negb (N.eqb ch comma)) t = true)
      (t0 :: ts) ->
    Forall (fun t => digit_first t = true) ts ->
    2 * length (join (js ", ") (t0 :: ts)) + 2 <= fuel ->
    split_loop fuel multipoint_sep_re p (join (js ", ") (t0 :: ts)) p
      (join (js ", ") (t0 :: ts)) acc
    = rev acc ++ t0 :: ts.
Proof.
  induction ts as [|t ts IH]; intros t0 fuel p acc G D F.
  - cbn [join] in *. inversion G as [|? ? G0 _]; subst.
    rewrite <- (app_nil_r t0) at 2.
    rewrite split_skips_piece by (try exact G0; lia).
    destruct (fuel - length t0); reflexivity.
  - inversion G as [|? ? G0 G']; subst.
    inversion D as [|? ? Dt D']; subst.
    destruct t as [|d t']; [discriminate Dt|]. cbn [digit_first] in Dt.
    unfold jsstring, char in *.
    assert (J : exists s, join (js ", ") ((d :: t') :: ts) = d :: s)
      by (destruct ts; eexists; reflexivity).
    destruct J as (s & J).
    assert (E : join (js ", ") (t0 :: (d :: t') :: ts)
                = t0 ++ comma :: 32%N :: d :: s)
      by (rewrite <- J; reflexivity).
    rewrite E in F. rewrite length_app in F. cbn [length] in F.
    specialize (IH (d :: t') (fuel - length t0 - 1) (S (S (p + length t0)))
                  (t0 :: acc) G' D').
    rewrite J in IH. rewrite E.
    rewrite split_skips_piece
      by (try exact G0; unfold jsstring, char in *; lia).
    unfold jsstring, char in *.
    destruct (fuel - length t0) as [|f] eqn:Ef; [lia|].
    cbn [split_loop]. rewrite multipoint_sep_matches by exact Dt.
    rewrite (proj2 (Nat.eqb_neq (S (S (p + length t0))) p)) by lia.
    replace (p + length t0 - p) with (length t0) by lia.
    rewrite firstn_app, Nat.sub_diag, firstn_all. cbn [firstn].
    rewrite app_nil_r.
    replace (S f - 1) with f in IH by lia.
    transitivity (rev (t0 :: acc) ++ (d :: t') :: ts).
    + apply IH. cbn [length]. lia.
    + cbn [rev]. rewrite <- app_assoc. reflexivity.
Qed.

Lemma pair_text_piece (p : position) :
  forallb (fun ch => negb (N.eqb ch rparen) && negb (N.eqb ch comma))
    (pair_text p) = true.
Proof.
  pose proof (pair_text_written p) as W.
  pose proof (pair_text_no_comma p) as C.
  rewrite forallb_forall in *. intros ch I.
  destruct (@written_char_cases _ (W ch I)) as (_ & R & _).
  rewrite R, (C ch I). reflexivity.
Qed.

Lemma pair_text_without_parens (p : position) :
  remove_all parens_re (pair_text p) = pair_text p.
Proof.
  unfold remove_all, parens_re. rewrite remove_loop_class by lia.
  apply filter_all. pose proof (pair_text_written p) as W.
  rewrite forallb_forall in *. intros ch I.
  destruct (@written_char_cases _ (W ch I)) as (_ & R & P).
  rewrite R, P. reflexivity.
Qed.

Lemma parse_multipoint_written (c0 : position) (cs : list position) :
  Forall (fun p => digit_first (toString (fst p)) = true) cs ->
  parse_multipoint (coords_text (c0 :: cs)) = map swapped (c0 :: cs).
Proof.
  intros D. unfold parse_multipoint, coords_text.
  assert (S : split multipoint_sep_re (join (js ", ") (map pair_text (c0 :: cs)))
              = map pair_text (c0 :: cs)).
  { unfold split.
    destruct (join (js ", ") (map pair_text (c0 :: cs))) as [|x s] eqn:E.
    - exfalso. cbn [map] in E.
      assert (N : pair_text c0 = []).
      { destruct (map pair_text cs); [exact E|].
        change (join (js ", ") (pair_text c0 :: j :: l))
          with (pair_text c0 ++ js ", " ++ join (js ", ") (j :: l)) in E.
        apply app_eq_nil in E. tauto. }
      unfold pair_text in N. apply app_eq_nil in N.
      destruct N as [N _]. exact (toString_nonempty _ N).
    - rewrite <- E. cbn [map].
      rewrite split_multipoint_join; [reflexivity | | | lia].
      + constructor; [apply pair_text_piece|].
        apply Forall_forall. intros t I. apply in_map_iff in I.
        destruct I as (q & <- & _). apply pair_text_piece.
      + apply Forall_forall. intros t I. apply in_map_iff in I.
        destruct I as (q & <- & Iq).
        rewrite Forall_forall in D. specialize (D q Iq).
        unfold pair_text. destruct (toString (fst q)); [discriminate D|].
        exact D. }
  rewrite S, map_map. apply map_ext. intros q.
  rewrite pair_text_without_parens.
  exact (parse_pair_written q).
Qed.

(** Writing a MultiPoint and parsing the text gives the points back with
    their two numbers exchanged, when the first number of every point
    after the first is written with a digit at its start: the separator
    pattern wants a digit behind the comma. *)
Theorem multipoint_round_trip_swaps (c0 : position) (cs : list position) :
  Forall (fun p => digit_first (toString (fst p)) = true) cs ->
  round_trip (MultiPoint (c0 :: cs))
  = Returns (MultiPoint (map swapped (c0 :: cs))).
Proof.
  intros D. unfold round_trip.
  change (geoJSONToWKTExtended (MultiPoint (c0 :: cs)))
    with (Returns (A := jsstring)
            (keyword KMultiPoint ++ lparen :: coords_text (c0 :: cs)
               ++ [rparen])).
  cbv beta iota.
  rewrite (@written_text_parses KMultiPoint (coords_text (c0 :: cs))
             (coords_text (c0 :: cs)) []).
  - cbn [build rethrow]. unfold cap. cbn [group Nat.eqb].
    rewrite parse_multipoint_written by exact D. reflexivity.
  - discriminate.
  - reflexivity.
  - apply written_no_rparen, coords_text_written.
  - apply written_no_line_end, coords_text_written.
Qed.

Lemma multipoint_round_trip_swaps_witness :
  round_trip (MultiPoint [(dec 1 0, dec 2 0); (dec 3 0, dec 4 0)])
  = Returns (MultiPoint (map swapped [(dec 1 0, dec 2 0);
                                      (dec 3 0, dec 4 0)])).
Proof.
  apply (@multipoint_round_trip_swaps (dec 1 0, dec 2 0)
           [(dec 3 0, dec 4 0)]).
  repeat constructor.
Defined.

(** A point whose first number is negative is not split off: it is lost
    with the point before it read from the merged text. *)
Example multipoint_negative_point_lost :
  round_trip (MultiPoint [(dec 1 0, dec 2 0); (Fin true 3 0, dec 4 0)])
  = Returns (MultiPoint [(dec 2 0, dec 1 0)]).
Proof. vm_compute. reflexivity. Qed.

End WrittenMultiPoint.
